(** * Cuevana-Scraper: the resolution pipeline, embedded and verified

    Shallow embedding of [src/utils.py] (normalizer, similarity scorer,
    matcher), [src/cuevana_scraper.py] (listing extraction) and
    [src/addon.py] (metadata and stream handlers with their caches).

    Python values are modelled as follows.
    - [str] is a sequence of Unicode code points: [list N].
    - [int] is [Z]; lengths and indices that can never be negative are [nat].
    - [float] results of [SequenceMatcher.ratio] are modelled by the exact
      rational [2*matches/length] in [Q]; every comparison the claims need
      (with [0.0], [1.0], or another ratio of strings shorter than 2^25
      characters) has the same outcome on the rounded value; a threshold
      is a rational as well.
    - a [dict] used as a cache is a [gmap] keyed by strings; a [dict] used as
      a response envelope is an association list in insertion order. *)

From Stdlib Require Import ZArith NArith QArith Lia List Sorted.
From Stdlib Require Import Strings.String Strings.Ascii DecimalString.
From stdpp Require Import gmap list.

(** * Part I: the program *)

Local Open Scope N_scope.

(** ** Python strings *)

Abbreviation pystr := (list N).

(** ASCII literal as a Python string. *)
Definition py (s : string) : pystr :=
  map N_of_ascii (list_ascii_of_string s).

(** [Py_UNICODE_ISSPACE]: the characters matched by [\s] in a [str] pattern
    and removed by [str.strip()]. *)
Definition isspace (c : N) : bool :=
  ((9 <=? c) && (c <=? 13)) || ((28 <=? c) && (c <=? 32))
  || (c =? 133) || (c =? 160) || (c =? 5760)
  || ((8192 <=? c) && (c <=? 8202))
  || (c =? 8232) || (c =? 8233) || (c =? 8239) || (c =? 8287) || (c =? 12288).

(** [re.sub(r'\s+', ' ', s)]: every maximal run of whitespace becomes one
    space.  [in_run] says that the previous character was whitespace. *)
Fixpoint sub_ws (in_run : bool) (s : pystr) : pystr :=
  match s with
  | [] => []
  | c :: r =>
      if isspace c
      then (if in_run then sub_ws true r else 32 :: sub_ws true r)
      else c :: sub_ws false r
  end.

Definition re_sub_ws (s : pystr) : pystr := sub_ws false s.

(** [str.strip()] with no argument. *)
Fixpoint lstrip (s : pystr) : pystr :=
  match s with
  | [] => []
  | c :: r => if isspace c then lstrip r else s
  end.

Fixpoint rstrip (s : pystr) : pystr :=
  match s with
  | [] => []
  | c :: r =>
      match rstrip r with
      | [] => if isspace c then [] else [c]
      | r' => c :: r'
      end
  end.

Definition strip (s : pystr) : pystr := rstrip (lstrip s).

Definition is_upper (c : N) : bool := (65 <=? c) && (c <=? 90).

Section Normalizer.

(** [unidecode] and the Unicode case tables are third-party data: the
    transliteration of a code point >= 0x80, and [str.lower] of one. *)
Variable unidecode_table : N -> pystr.
Variable unicode_lower : N -> pystr.

(** [unidecode(s)]: ASCII code points are copied, every other one is
    replaced by its table entry. *)
Definition unidecode_cp (c : N) : pystr :=
  if c <? 128 then [c] else unidecode_table c.

Definition unidecode (s : pystr) : pystr := flat_map unidecode_cp s.

(** [str.lower()]. *)
Definition lower_cp (c : N) : pystr :=
  if is_upper c then [c + 32]
  else if c <? 128 then [c] else unicode_lower c.

Definition lower (s : pystr) : pystr := flat_map lower_cp s.

(** [normalize_text] (utils.py, l. 76-93).  [None] is Python's [None]. *)
Definition normalize_text (text : option pystr) : pystr :=
  match text with
  | None => []
  | Some [] => []
  | Some t => strip (re_sub_ws (lower (unidecode t)))
  end.

End Normalizer.

(** ** Edit distance (utils.py, l. 33-73) *)

(** The table [dist] is a list of rows.  Every index the loops use is in
    range (rows and columns are allocated first), so a read or write out of
    range, which would raise in Python, never happens; the accessors give
    [0] and leave the table alone there. *)
Definition dist_get (dist : list (list Z)) (i j : nat) : Z :=
  match dist !! i with
  | Some row => default 0%Z (row !! j)
  | None => 0%Z
  end.

Definition dist_set (dist : list (list Z)) (i j : nat) (v : Z)
  : list (list Z) :=
  match dist !! i with
  | Some row => <[i := <[j := v]> row]> dist
  | None => dist
  end.

(** [min(x, y, z)] *)
Definition min3 (x y z : Z) : Z := Z.min x (Z.min y z).

(** One assignment [dist[i][j] = min(...)] of the inner loop. *)
Definition lev_cell (s1 s2 : pystr) (i : nat) (dist : list (list Z)) (j : nat)
  : list (list Z) :=
  let cost := if (nth (i - 1) s1 0 =? nth (j - 1) s2 0) then 0%Z else 1%Z in
  dist_set dist i j
    (min3 (dist_get dist (i - 1) j + 1)
          (dist_get dist i (j - 1) + 1)
          (dist_get dist (i - 1) (j - 1) + cost)).

(** The inner loop [for j in range(1, cols)] for one [i]. *)
Definition lev_row (s1 s2 : pystr) (cols : nat) (dist : list (list Z)) (i : nat)
  : list (list Z) :=
  fold_left (lev_cell s1 s2 i) (seq 1 (cols - 1)) dist.

(** The filled table for two (already normalized) strings. *)
Definition lev_table (s1 s2 : pystr) : list (list Z) :=
  let rows := (length s1 + 1)%nat in
  let cols := (length s2 + 1)%nat in
  let dist := replicate rows (replicate cols 0%Z) in
  let dist := fold_left (fun d i => dist_set d i 0 (Z.of_nat i))
                        (seq 1 (rows - 1)) dist in
  let dist := fold_left (fun d j => dist_set d 0 j (Z.of_nat j))
                        (seq 1 (cols - 1)) dist in
  fold_left (lev_row s1 s2 cols) (seq 1 (rows - 1)) dist.

(** [dist[-1][-1]] *)
Definition dist_last (dist : list (list Z)) : Z :=
  default 0%Z (last dist ≫= last).

Section EditDistance.

Variable unidecode_table : N -> pystr.
Variable unicode_lower : N -> pystr.

Definition levenshtein_distance (str1 str2 : pystr) : Z :=
  match str1, str2 with
  | [], _ => Z.of_nat (length str2)
  | _, [] => Z.of_nat (length str1)
  | _, _ =>
      let str1 := normalize_text unidecode_table unicode_lower (Some str1) in
      let str2 := normalize_text unidecode_table unicode_lower (Some str2) in
      dist_last (lev_table str1 str2)
  end.

End EditDistance.

(** ** difflib.SequenceMatcher

    [calculate_similarity] calls [SequenceMatcher(None, a, b).ratio()] of
    Python's standard library.  The matcher is embedded here from
    Lib/difflib.py for the configuration the call uses: [isjunk=None] (so
    [bjunk] is empty and the two junk-extension loops of
    [find_longest_match] never run) and [autojunk=True]. *)

(** [Match(a, b, size)] *)
Record Match := mkMatch { m_a : nat; m_b : nat; m_size : nat }.

(** [__chain_b]: [b2j] maps each element of [b] to the ascending list of
    its positions; for [len(b) >= 200] the elements occurring more than
    [len(b) // 100 + 1] times ("popular") are purged. *)
Definition chain_b_add (b2j : gmap N (list nat)) (ie : nat * N)
  : gmap N (list nat) :=
  <[ie.2 := default [] (b2j !! ie.2) ++ [ie.1]]> b2j.

Definition chain_b_index (b : pystr) : gmap N (list nat) :=
  fold_left chain_b_add (zip (seq 0 (length b)) b) ∅.

Definition chain_b (b : pystr) : gmap N (list nat) :=
  let b2j := chain_b_index b in
  let n := length b in
  if (200 <=? n)%nat
  then filter (fun kv => (length kv.2 <= n / 100 + 1)%nat) b2j
  else b2j.

(** [a[i] == b[j]] for indices in range. *)
Definition elt_eq (a b : pystr) (i j : nat) : bool :=
  match a !! i, b !! j with
  | Some x, Some y => x =? y
  | _, _ => false
  end.

Section FindLongestMatch.

Variables a b : pystr.
Variable b2j : gmap N (list nat).
Variables alo ahi blo bhi : nat.

(** [j2len.get(j-1, 0)]; [-1] is never a key. *)
Definition j2len_prev (j2len : gmap nat nat) (j : nat) : nat :=
  match j with
  | O => 0%nat
  | S j' => default 0%nat (j2len !! j')
  end.

(** The loop [for j in b2j.get(a[i], nothing)] with its [continue] and
    [break].  [k <= i + 1] and [k <= j + 1] always hold, so [i - k + 1] is
    written [i + 1 - k]. *)
Fixpoint flm_inner (i : nat) (j2len : gmap nat nat) (js : list nat)
    (newj2len : gmap nat nat) (best : Match) : gmap nat nat * Match :=
  match js with
  | [] => (newj2len, best)
  | j :: js' =>
      if (j <? blo)%nat then flm_inner i j2len js' newj2len best
      else if (bhi <=? j)%nat then (newj2len, best)
      else
        let k := (j2len_prev j2len j + 1)%nat in
        flm_inner i j2len js' (<[j := k]> newj2len)
          (if (m_size best <? k)%nat
           then mkMatch (i + 1 - k) (j + 1 - k) k
           else best)
  end.

(** One iteration of [for i in range(alo, ahi)].  ([ahi <= len(a)] in
    every call, so [a[i]] exists.) *)
Definition flm_row (st : gmap nat nat * Match) (i : nat)
  : gmap nat nat * Match :=
  match a !! i with
  | Some x => flm_inner i st.1 (default [] (b2j !! x)) ∅ st.2
  | None => (∅, st.2)
  end.

Definition flm_scan : gmap nat nat * Match :=
  fold_left flm_row (seq alo (ahi - alo)) (∅, mkMatch alo blo 0).

(** [while besti > alo and bestj > blo and a[besti-1] == b[bestj-1]] *)
Fixpoint extend_back (besti bestj bestsize : nat) {struct besti} : Match :=
  match besti, bestj with
  | S i', S j' =>
      if (alo <? besti)%nat && (blo <? bestj)%nat && elt_eq a b i' j'
      then extend_back i' j' (S bestsize)
      else mkMatch besti bestj bestsize
  | _, _ => mkMatch besti bestj bestsize
  end.

(** [while besti+bestsize < ahi and bestj+bestsize < bhi and
    a[besti+bestsize] == b[bestj+bestsize]]; [gap] is
    [ahi - (besti + bestsize)], which reaches [0] exactly when the first
    test fails. *)
Fixpoint extend_fwd (gap besti bestj bestsize : nat) {struct gap} : Match :=
  match gap with
  | O => mkMatch besti bestj bestsize
  | S gap' =>
      if (besti + bestsize <? ahi)%nat && (bestj + bestsize <? bhi)%nat
         && elt_eq a b (besti + bestsize) (bestj + bestsize)
      then extend_fwd gap' besti bestj (S bestsize)
      else mkMatch besti bestj bestsize
  end.

Definition find_longest_match : Match :=
  let best := flm_scan.2 in
  let best := extend_back (m_a best) (m_b best) (m_size best) in
  extend_fwd (ahi - (m_a best + m_size best))
             (m_a best) (m_b best) (m_size best).

End FindLongestMatch.

(** [get_matching_blocks]: the work list [queue] is used as a stack
    ([pop()] takes the element appended last), kept here with its top at
    the head.  [fuel] bounds the number of turns; [None] means it ran out. *)
Fixpoint gmb_loop (a b : pystr) (b2j : gmap N (list nat)) (fuel : nat)
    (queue : list (nat * nat * nat * nat)) (blocks : list Match)
  : option (list Match) :=
  match queue with
  | [] => Some blocks
  | (alo, ahi, blo, bhi) :: queue =>
      match fuel with
      | O => None
      | S fuel' =>
          let x := find_longest_match a b b2j alo ahi blo bhi in
          let i := m_a x in
          let j := m_b x in
          let k := m_size x in
          if (k =? 0)%nat then gmb_loop a b b2j fuel' queue blocks
          else
            let queue :=
              if (alo <? i)%nat && (blo <? j)%nat
              then (alo, i, blo, j) :: queue else queue in
            let queue :=
              if (i + k <? ahi)%nat && (j + k <? bhi)%nat
              then ((i + k)%nat, ahi, (j + k)%nat, bhi) :: queue
              else queue in
            gmb_loop a b b2j fuel' queue (blocks ++ [x])
      end
  end.

(** Tuple order of [matching_blocks.sort()]. *)
Definition match_leb (x y : Match) : bool :=
  (m_a x <? m_a y)%nat
  || ((m_a x =? m_a y)%nat
      && ((m_b x <? m_b y)%nat
          || ((m_b x =? m_b y)%nat && (m_size x <=? m_size y)%nat))).

Fixpoint sort_insert (x : Match) (l : list Match) : list Match :=
  match l with
  | [] => [x]
  | y :: l' => if match_leb x y then x :: l else y :: sort_insert x l'
  end.

Definition sort_blocks (l : list Match) : list Match :=
  fold_right sort_insert [] l.

(** The loop that collapses adjacent blocks, and the final flush. *)
Fixpoint non_adjacent (i1 j1 k1 : nat) (blocks : list Match) : list Match :=
  match blocks with
  | [] => if (k1 =? 0)%nat then [] else [mkMatch i1 j1 k1]
  | x :: rest =>
      if ((i1 + k1 =? m_a x) && (j1 + k1 =? m_b x))%nat
      then non_adjacent i1 j1 (k1 + m_size x) rest
      else (if (k1 =? 0)%nat then [] else [mkMatch i1 j1 k1])
             ++ non_adjacent (m_a x) (m_b x) (m_size x) rest
  end.

(** Turns that always suffice ([get_matching_blocks_sum]): the [None]
    branch below is never taken. *)
Definition gmb_fuel (a : pystr) : nat := (2 * length a + 1)%nat.

Definition get_matching_blocks (a b : pystr) : list Match :=
  let la := length a in
  let lb := length b in
  match gmb_loop a b (chain_b b) (gmb_fuel a) [(0, la, 0, lb)%nat] [] with
  | Some blocks => non_adjacent 0 0 0 (sort_blocks blocks) ++ [mkMatch la lb 0]
  | None => []
  end.

(** [_calculate_ratio(matches, length)] *)
Definition _calculate_ratio (matches length : nat) : Q :=
  if (length =? 0)%nat then 1%Q
  else Qmake (2 * Z.of_nat matches) (Pos.of_nat length).

(** [SequenceMatcher(None, a, b).ratio()] *)
Definition ratio (a b : pystr) : Q :=
  let matches := list_sum (map m_size (get_matching_blocks a b)) in
  _calculate_ratio matches (length a + length b).

(** ** Similarity and matching (utils.py, l. 13-30 and 96-138) *)

(** [x > y] on scores. *)
Definition Qgtb (x y : Q) : bool := negb (Qle_bool x y).

Section Matcher.

Variable unidecode_table : N -> pystr.
Variable unicode_lower : N -> pystr.

Definition calculate_similarity (str1 str2 : pystr) : Q :=
  match str1, str2 with
  | [], _ => 0%Q
  | _, [] => 0%Q
  | _, _ =>
      let str1_normalized :=
        normalize_text unidecode_table unicode_lower (Some str1) in
      let str2_normalized :=
        normalize_text unidecode_table unicode_lower (Some str2) in
      ratio str1_normalized str2_normalized
  end.

Definition fuzzy_match (query target : pystr) (threshold : Q) : bool :=
  Qle_bool threshold (calculate_similarity query target).

(** The body of [for candidate in candidates] on the pair
    [(best_match, best_score)]. *)
Definition best_match_step (query : pystr) (st : option pystr * Q)
    (candidate : pystr) : option pystr * Q :=
  let score := calculate_similarity query candidate in
  if Qgtb score st.2 then (Some candidate, score) else st.

Definition find_best_match (query : pystr) (candidates : list pystr)
    (threshold : Q) : option pystr :=
  match candidates with
  | [] => None
  | _ => (fold_left (best_match_step query) candidates (None, threshold)).1
  end.

End Matcher.

Local Open Scope nat_scope.

(** ** Python values of requests, entities and envelopes *)

Inductive pyscalar :=
| PyNone
| PyInt (z : Z)
| PyStr (s : pystr).

Unset Elimination Schemes.
Inductive pyval :=
| PyScalar (v : pyscalar)
| PyList (l : list pyval)
| PyDict (d : list (pystr * pyval)).
Set Elimination Schemes.

(** The outcome of a call: a value, or an exception (by class name). *)
Inductive outcome (A : Type) :=
| Returned (x : A)
| Raised (exc : pystr).
Arguments Returned {A} x.
Arguments Raised {A} exc.

(** [bool(v)] *)
Definition truthy (v : pyscalar) : bool :=
  match v with
  | PyNone => false
  | PyInt z => negb (z =? 0)%Z
  | PyStr [] => false
  | PyStr _ => true
  end.

Definition truthy_val (v : pyval) : bool :=
  match v with
  | PyScalar s => truthy s
  | PyList [] => false
  | PyList _ => true
  | PyDict [] => false
  | PyDict _ => true
  end.

(** The text of a value: what [str(v)] and an f-string field [{v}] give
    when they give a text at all. *)
Definition str_of (v : pyscalar) : pystr :=
  match v with
  | PyNone => py "None"
  | PyInt z => py (NilEmpty.string_of_int (Z.to_int z))
  | PyStr s => s
  end.

(** CPython prints an integer only if it has at most 4300 digits (the
    default of [sys.get_int_max_str_digits()]). *)
Definition printable (v : pyscalar) : bool :=
  match v with
  | PyInt z => (Z.abs z <? 10 ^ 4300)%Z
  | _ => true
  end.

(** [str(v)] and the f-string field [{v}]: [ValueError] for an integer
    that is too long to print. *)
Definition py_str (v : pyscalar) : outcome pystr :=
  if printable v then Returned (str_of v) else Raised (py "ValueError").

(** A logging call [logger.info(f"... {a} ... {b} ...")]: the f-string is
    built before the call, so the line raises what formatting one of its
    fields raises; the result is that exception, if any. *)
Definition log_fields (fields : list pyscalar) : option pystr :=
  if forallb printable fields then None else Some (py "ValueError").

(** [l[:limit]] *)
Definition slice_to (A : Type) (limit : Z) (l : list A) : list A :=
  if (0 <=? limit)%Z then take (Z.to_nat limit) l
  else take (Z.to_nat (Z.of_nat (length l) + limit)) l.
Arguments slice_to {A} limit l.

(** [s.startswith(p)] *)
Fixpoint startswith (s p : pystr) : bool :=
  match p, s with
  | [], _ => true
  | _ :: _, [] => false
  | c :: p', d :: s' => (c =? d)%N && startswith s' p'
  end.

(** ** Listing extraction (cuevana_scraper.py) *)

(** constants.py *)
Definition ID_PREFIX : pystr := py "cuevanap_".
Definition CUEVANA_PRO_URL : pystr := py "https://cuevana.pro/".

(** A BeautifulSoup tag, as far as the parser looks at it: its stripped
    text and its (string-valued) attributes. *)
Record tag := mkTag {
  tag_text : pystr;
  tag_attrs : gmap pystr pystr
}.

(** [t.get(key, default)] *)
Definition tag_get (t : tag) (key : pystr) (default : pyscalar) : pyscalar :=
  match tag_attrs t !! key with
  | Some v => PyStr v
  | None => default
  end.

(** A listing node, seen through the four [select_one] queries of the
    item parser: ['h2, .title, .name'], ['a'], ['img'], ['.year, .date'].
    [None] is the query that finds nothing; a tag that is found is truthy
    whatever it contains. *)
Record element := mkElement {
  sel_title : option tag;
  sel_link : option tag;
  sel_poster : option tag;
  sel_year : option tag
}.

Section Scraper.

(** [urllib.parse.urljoin] and [quote], and the network: [select_page url]
    is the list [soup.select('.movie-item, .film-item, article')] of the
    page at [url], or the exception raised by the request, an
    [Exception] (a connection error, a timeout, an HTTP status), which the
    method's [except Exception] catches.  [urljoin] raises [ValueError] on
    a reference it cannot split (['//['], say). *)
Variable urljoin : pystr -> pystr -> outcome pystr.
Variable quote : pystr -> pystr.
Variable select_page : pystr -> outcome (list element).

Definition base_url : pystr := CUEVANA_PRO_URL.

(** [_parse_movie_item] (l. 189-215).  In its [try] block only [urljoin]
    can raise; [except Exception] then returns [None]. *)
Definition _parse_movie_item (e : element) : option pyval :=
  match sel_title e, sel_link e with
  | Some title, Some link =>
      let movie_url :=
        match tag_attrs link !! py "href" with
        | Some v => v
        | None => []
        end in
      match (if negb (startswith movie_url (py "http"))
             then urljoin base_url movie_url else Returned movie_url) with
      | Raised _ => None
      | Returned movie_url =>
          Some (PyDict
            [ (py "type", PyScalar (PyStr (py "movie")));
              (py "id", PyScalar (PyStr (ID_PREFIX ++ movie_url)));
              (py "name", PyScalar (PyStr (tag_text title)));
              (py "poster",
                PyScalar match sel_poster e with
                         | Some poster =>
                             tag_get poster (py "src")
                               (tag_get poster (py "data-src") PyNone)
                         | None => PyStr []
                         end);
              (py "year",
                PyScalar (PyStr match sel_year e with
                                | Some year => tag_text year
                                | None => []
                                end));
              (py "url", PyScalar (PyStr movie_url)) ])
      end
  | _, _ => None
  end.

(** The body of [for item in ...[:limit]]: append the movie if there is
    one. *)
Definition collect_movie (movies : list pyval) (item : element)
  : list pyval :=
  match _parse_movie_item item with
  | Some movie => if truthy_val movie then movies ++ [movie] else movies
  | None => movies
  end.

(** [search_movies] (l. 20-52) *)
Definition search_movies (query : pystr) (limit : Z) : list pyval :=
  let search_url := base_url ++ py "?s=" ++ quote query in
  match select_page search_url with
  | Returned items => fold_left collect_movie (slice_to limit items) []
  | Raised _ => []
  end.

End Scraper.

(** ** Request handlers (addon.py) *)

(** [request.get(key, default)] *)
Definition dict_get (d : gmap pystr pyscalar) (key : pystr)
    (default : pyscalar) : pyscalar :=
  match d !! key with
  | Some v => v
  | None => default
  end.


(** *** MetadataHandler *)

(** [self.cache], and the calls of [_fetch_metadata] made so far (a ghost
    field, to tell a fetch from a cache hit). *)
Record metadata_handler := mkMetadataHandler {
  meta_cache : gmap pystr pyval;
  meta_fetched : list (pyscalar * pyscalar)
}.

(** [_fetch_metadata] as it stands in the source (l. 211-242): the empty
    record of the item; the scraper is not wired in yet. *)
Definition _fetch_metadata (content_id content_type : pyscalar) : pyval :=
  PyDict
    [ (py "id", PyScalar content_id);
      (py "type", PyScalar content_type);
      (py "name", PyScalar (PyStr []));
      (py "poster", PyScalar (PyStr []));
      (py "description", PyScalar (PyStr []));
      (py "releaseInfo", PyScalar (PyStr []));
      (py "imdbRating", PyScalar (PyInt 0));
      (py "runtime", PyScalar (PyStr []));
      (py "genres", PyList []);
      (py "writers", PyList []);
      (py "directors", PyList []);
      (py "cast", PyList []);
      (py "videos", PyList []) ].


(** The cache key of a metadata request (l. 196).  The key is built after
    the logging line has formatted the same fields, so they print. *)
Definition metadata_key (content_type content_id : pyscalar) : pystr :=
  str_of content_type ++ py ":" ++ str_of content_id.

(** The cache key of a stream request (l. 279-281), built from fields the
    logging line has formatted before. *)
Definition stream_key (content_type content_id season episode : pyscalar)
  : pystr :=
  let cache_key := str_of content_type ++ py ":" ++ str_of content_id in
  match season with
  | PyNone => cache_key
  | _ => cache_key ++ py ":s" ++ str_of season ++ py "e" ++ str_of episode
  end.

(** [self.cache] and the calls of [_fetch_streams] made so far (ghost). *)
Record stream_handler := mkStreamHandler {
  stream_cache : gmap pystr (list pyval);
  stream_fetched : list (pyscalar * pyscalar * pyscalar * pyscalar)
}.

Section Handlers.

(** The fetch methods are the seam to the scraper.  They are parameters
    here: given the calls made before, the arguments decide the result, so
    that a retry may see a different upstream. *)
Variable fetch_metadata :
  list (pyscalar * pyscalar) -> pyscalar -> pyscalar -> outcome pyval.
Variable fetch_streams :
  list (pyscalar * pyscalar * pyscalar * pyscalar) ->
  pyscalar -> pyscalar -> pyscalar -> pyscalar -> outcome (list pyval).

(** [MetadataHandler.get_metadata] (l. 177-209), from its guard on; the
    logging line before the guard is in [MetadataHandler_get_metadata]
    below. *)
Definition get_metadata (self : metadata_handler)
    (request : gmap pystr pyscalar)
  : outcome (list (pystr * pyval)) * metadata_handler :=
  let content_id := dict_get request (py "id") PyNone in
  let content_type := dict_get request (py "type") (PyStr (py "movie")) in
  if negb (truthy content_id)
  then (Returned [(py "meta", PyDict [])], self)
  else
    let cache_key := metadata_key content_type content_id in
    match meta_cache self !! cache_key with
    | Some cached => (Returned [(py "meta", cached)], self)
    | None =>
        let fetched := meta_fetched self ++ [(content_id, content_type)] in
        match fetch_metadata (meta_fetched self) content_id content_type with
        | Raised exc =>
            (Raised exc, mkMetadataHandler (meta_cache self) fetched)
        | Returned meta =>
            let cache :=
              if truthy_val meta then <[cache_key := meta]> (meta_cache self)
              else meta_cache self in
            (Returned [ (py "meta", meta);
                        (py "cacheMaxAge", PyScalar (PyInt 604800)) ],
             mkMetadataHandler cache fetched)
        end
    end.

(** [StreamHandler.get_streams] (l. 257-295), from its guard on; the
    logging line before the guard is in [StreamHandler_get_streams]
    below. *)
Definition get_streams (self : stream_handler)
    (request : gmap pystr pyscalar)
  : outcome (list (pystr * pyval)) * stream_handler :=
  let content_id := dict_get request (py "id") PyNone in
  let content_type := dict_get request (py "type") (PyStr (py "movie")) in
  let season := dict_get request (py "season") PyNone in
  let episode := dict_get request (py "episode") PyNone in
  if negb (truthy content_id)
  then (Returned [(py "streams", PyList [])], self)
  else
    let cache_key := stream_key content_type content_id season episode in
    match stream_cache self !! cache_key with
    | Some cached => (Returned [(py "streams", PyList cached)], self)
    | None =>
        let fetched :=
          stream_fetched self
          ++ [(content_id, content_type, season, episode)] in
        match fetch_streams (stream_fetched self)
                content_id content_type season episode with
        | Raised exc =>
            (Raised exc, mkStreamHandler (stream_cache self) fetched)
        | Returned streams =>
            let cache :=
              match streams with
              | [] => stream_cache self
              | _ => <[cache_key := streams]> (stream_cache self)
              end in
            (Returned [ (py "streams", PyList streams);
                        (py "cacheMaxAge", PyScalar (PyInt 3600)) ],
             mkStreamHandler cache fetched)
        end
    end.

(** The two methods from their first line.  The logging line (l. 190,
    l. 272) formats the fields it names before the guard is reached, and
    raises before anything else is done if one of them cannot be
    printed. *)
Definition MetadataHandler_get_metadata (self : metadata_handler)
    (request : gmap pystr pyscalar)
  : outcome (list (pystr * pyval)) * metadata_handler :=
  let content_id := dict_get request (py "id") PyNone in
  let content_type := dict_get request (py "type") (PyStr (py "movie")) in
  match log_fields [content_id; content_type] with
  | Some exc => (Raised exc, self)
  | None => get_metadata self request
  end.


(** [isinstance(e, Exception)] for the exception of that class name: what
    [except Exception] catches.  [KeyboardInterrupt], [SystemExit] and
    [GeneratorExit] are not caught. *)
Variable is_exception : pystr -> bool.

(** [f"{request}"]: the text of a dict holds the text of every value. *)
Definition request_printable (request : gmap pystr pyscalar) : bool :=
  forallb (fun kv => printable kv.2) (map_to_list request).

(** [AddonHandler.handle_metadata] and [handle_stream] (l. 45-77).  Their
    first line logs the whole request; the [ValueError] it raises for a
    request that cannot be printed is an [Exception] and is answered with
    the empty envelope, like every [Exception] the handler raises.  Any
    other exception passes through. *)
Definition handle_metadata (self : metadata_handler)
    (request : gmap pystr pyscalar)
  : outcome (list (pystr * pyval)) * metadata_handler :=
  if negb (request_printable request)
  then (Returned [(py "meta", PyDict [])], self)
  else
    match MetadataHandler_get_metadata self request with
    | (Returned envelope, self') => (Returned envelope, self')
    | (Raised exc, self') =>
        if is_exception exc
        then (Returned [(py "meta", PyDict [])], self')
        else (Raised exc, self')
    end.


(** A session of metadata (resp. stream) requests, each with the time in
    seconds at which it arrives.  The handlers never read a clock, so the
    times do not enter the computation. *)
Definition serve_metadata (self : metadata_handler)
    (calls : list (Z * gmap pystr pyscalar)) : metadata_handler :=
  fold_left (fun h call => (get_metadata h call.2).2) calls self.

Definition serve_streams (self : stream_handler)
    (calls : list (Z * gmap pystr pyscalar)) : stream_handler :=
  fold_left (fun h call => (get_streams h call.2).2) calls self.

End Handlers.



(** The handlers with the fetch methods of the source. *)
Definition source_fetch_metadata (_ : list (pyscalar * pyscalar))
    (content_id content_type : pyscalar) : outcome pyval :=
  Returned (_fetch_metadata content_id content_type).



(** ** Matching, continued (utils.py, l. 141-190) *)

(** [matches.sort(key=lambda x: x[1], reverse=True)]: Python's sort is
    stable, also with [reverse=True], so the result is the one descending
    arrangement that keeps entries of equal score in their order.  An entry
    is inserted in front of a sorted tail, behind the entries that score
    strictly higher. *)
Fixpoint insert_by_score (x : pystr * Q) (l : list (pystr * Q))
  : list (pystr * Q) :=
  match l with
  | [] => [x]
  | y :: l' => if Qgtb y.2 x.2 then y :: insert_by_score x l' else x :: l
  end.

Definition sort_by_score (l : list (pystr * Q)) : list (pystr * Q) :=
  fold_right insert_by_score [] l.

(** [needle in hay] on strings. *)
Fixpoint str_contains (hay needle : pystr) : bool :=
  startswith hay needle
  || match hay with
     | [] => false
     | _ :: hay' => str_contains hay' needle
     end.

Section MatcherMore.

Variable unidecode_table : N -> pystr.
Variable unicode_lower : N -> pystr.

(** The body of the loop of [find_all_matches]. *)
Definition all_matches_step (query : pystr) (threshold : Q)
    (matches : list (pystr * Q)) (candidate : pystr) : list (pystr * Q) :=
  let score :=
    calculate_similarity unidecode_table unicode_lower query candidate in
  if Qle_bool threshold score then matches ++ [(candidate, score)]
  else matches.

Definition find_all_matches (query : pystr) (candidates : list pystr)
    (threshold : Q) : list (pystr * Q) :=
  sort_by_score
    (fold_left (all_matches_step query threshold) candidates []).

Definition match_titles (title1 title2 : pystr) (allow_partial : bool)
  : bool :=
  let norm1 := normalize_text unidecode_table unicode_lower (Some title1) in
  let norm2 := normalize_text unidecode_table unicode_lower (Some title2) in
  if bool_decide (norm1 = norm2) then true
  else if allow_partial
          && (str_contains norm2 norm1 || str_contains norm1 norm2)
  then true
  else fuzzy_match unidecode_table unicode_lower title1 title2 (85 # 100).

End MatcherMore.

(** ** Validation of a record (utils.py, l. 449-465) *)

(** [v is None] *)
Definition is_none (v : pyval) : bool :=
  match v with
  | PyScalar PyNone => true
  | _ => false
  end.

(** [field not in data or data[field] is None] *)
Definition field_missing (data : gmap pystr pyval) (field : pystr) : bool :=
  match data !! field with
  | Some v => is_none v
  | None => true
  end.

(** [validate_data_dict]; [data = None] stands for an argument that is not
    a [dict]. *)
Definition validate_data_dict (data : option (gmap pystr pyval))
    (required_fields : list pystr) : bool * list pystr :=
  match data with
  | None => (false, required_fields)
  | Some d =>
      let missing := List.filter (field_missing d) required_fields in
      (length missing =? 0, missing)
  end.

(** ** The other scraper methods (cuevana_scraper.py) *)

(** A detail page, seen through the queries of the [_extract_*] methods:
    six [select_one] results and the list [select('.genre, .tag,
    [data-genre]')]. *)
Record soup := mkSoup {
  soup_title : option tag;
  soup_description : option tag;
  soup_poster : option tag;
  soup_year : option tag;
  soup_rating : option tag;
  soup_runtime : option tag;
  soup_genres : list tag
}.

Section ScraperMore.

Variable urljoin : pystr -> pystr -> outcome pystr.
Variable quote : pystr -> pystr.

(** The network: [select_nodes url selector] is the list
    [soup.select(selector)] of the page at [url] (for listings),
    [select_tags] the same for stream links, [fetch_soup] the parsed detail
    page; each may raise instead, an [Exception] of the request, which the
    calling method's [except Exception] catches. *)
Variable select_nodes : pystr -> pystr -> outcome (list element).
Variable select_tags : pystr -> pystr -> outcome (list tag).
Variable fetch_soup : pystr -> outcome soup.

(** [get_top_movies] (l. 54-83) *)
Definition get_top_movies (limit : Z) : list pyval :=
  match select_nodes (base_url ++ py "peliculas/")
          (py ".movie-item, .film-item") with
  | Returned items =>
      fold_left (collect_movie urljoin) (slice_to limit items) []
  | Raised _ => []
  end.

(** [_parse_series_item] (l. 217-242).  As for a movie, only [urljoin]
    can raise in its [try] block, and [except Exception] then returns
    [None]. *)
Definition _parse_series_item (e : element) : option pyval :=
  match sel_title e, sel_link e with
  | Some title, Some link =>
      let series_url :=
        match tag_attrs link !! py "href" with
        | Some v => v
        | None => []
        end in
      match (if negb (startswith series_url (py "http"))
             then urljoin base_url series_url else Returned series_url) with
      | Raised _ => None
      | Returned series_url =>
          Some (PyDict
            [ (py "type", PyScalar (PyStr (py "series")));
              (py "id", PyScalar (PyStr (ID_PREFIX ++ series_url)));
              (py "name", PyScalar (PyStr (tag_text title)));
              (py "poster",
                PyScalar match sel_poster e with
                         | Some poster =>
                             tag_get poster (py "src")
                               (tag_get poster (py "data-src") PyNone)
                         | None => PyStr []
                         end);
              (py "year",
                PyScalar (PyStr match sel_year e with
                                | Some year => tag_text year
                                | None => []
                                end));
              (py "url", PyScalar (PyStr series_url)) ])
      end
  | _, _ => None
  end.

Definition collect_series (series : list pyval) (item : element)
  : list pyval :=
  match _parse_series_item item with
  | Some show => if truthy_val show then series ++ [show] else series
  | None => series
  end.

(** [get_series] (l. 85-120); [query = None] is the default argument. *)
Definition get_series (query : option pystr) (limit : Z) : list pyval :=
  let url :=
    match query with
    | Some (c :: q) => base_url ++ py "?s=" ++ quote (c :: q) ++ py "&type=tv"
    | _ => base_url ++ py "series/"
    end in
  match select_nodes url (py ".series-item, .tv-item") with
  | Returned items =>
      fold_left collect_series (slice_to limit items) []
  | Raised _ => []
  end.

(** [_parse_stream] (l. 244-260); the title is the television emoji
    (U+1F4FA), a space and the server name. *)
Definition _parse_stream (e : tag) : option pyval :=
  let server_name := tag_text e in
  let stream_url := tag_get e (py "href") (tag_get e (py "data-url") PyNone) in
  if negb (truthy stream_url) then None
  else Some (PyDict
    [ (py "url", PyScalar stream_url);
      (py "title", PyScalar (PyStr ([128250%N; 32%N] ++ server_name)));
      (py "server", PyScalar (PyStr server_name)) ]).

Definition collect_stream (streams : list pyval) (e : tag) : list pyval :=
  match _parse_stream e with
  | Some stream => if truthy_val stream then streams ++ [stream] else streams
  | None => streams
  end.

(** [CuevanaScraper.get_streams] (l. 154-185) *)
Definition scraper_get_streams (movie_url : pystr) : list pyval :=
  match select_tags movie_url
          (py ".server-item, .stream-link, .player-link") with
  | Returned elems => fold_left collect_stream elems []
  | Raised _ => []
  end.

(** [x.get_text(strip=True) if x else ''] *)
Definition text_or_empty (x : option tag) : pystr :=
  match x with
  | Some t => tag_text t
  | None => []
  end.

Definition _extract_title (s : soup) : pystr := text_or_empty (soup_title s).
Definition _extract_description (s : soup) : pystr :=
  text_or_empty (soup_description s).
Definition _extract_year (s : soup) : pystr := text_or_empty (soup_year s).
Definition _extract_rating (s : soup) : pystr :=
  text_or_empty (soup_rating s).
Definition _extract_runtime (s : soup) : pystr :=
  text_or_empty (soup_runtime s).

(** [poster.get('src') or poster.get('data-src') or ''] *)
Definition _extract_poster (s : soup) : pystr :=
  match soup_poster s with
  | Some poster =>
      match tag_attrs poster !! py "src" with
      | Some (c :: v) => c :: v
      | _ =>
          match tag_attrs poster !! py "data-src" with
          | Some (c :: v) => c :: v
          | _ => []
          end
      end
  | None => []
  end.

Definition _extract_genres (s : soup) : list pystr :=
  fold_left
    (fun genres genre =>
       match tag_text genre with
       | [] => genres
       | genre_text => genres ++ [genre_text]
       end)
    (soup_genres s) [].

(** [get_movie_details] (l. 122-152) *)
Definition get_movie_details (movie_url : pystr) : option pyval :=
  match fetch_soup movie_url with
  | Returned s =>
      Some (PyDict
        [ (py "url", PyScalar (PyStr movie_url));
          (py "title", PyScalar (PyStr (_extract_title s)));
          (py "description", PyScalar (PyStr (_extract_description s)));
          (py "poster", PyScalar (PyStr (_extract_poster s)));
          (py "year", PyScalar (PyStr (_extract_year s)));
          (py "rating", PyScalar (PyStr (_extract_rating s)));
          (py "runtime", PyScalar (PyStr (_extract_runtime s)));
          (py "genres",
            PyList (map (fun g => PyScalar (PyStr g)) (_extract_genres s))) ])
  | Raised _ => None
  end.

End ScraperMore.

(** [d[key]] / [d.get(key)] on a dict kept as an association list. *)
Fixpoint dict_lookup (d : list (pystr * pyval)) (key : pystr)
  : option pyval :=
  match d with
  | [] => None
  | (k, v) :: d' => if bool_decide (k = key) then Some v else dict_lookup d' key
  end.

(** ** Text processing (utils.py, l. 470-535) *)

Local Open Scope N_scope.

(** What [[a-z0-9]] matches under [re.IGNORECASE]: the ASCII letters and
    digits, and the four characters whose case folding is an ASCII letter
    (U+0130 and U+0131 for i, U+017F for s, U+212A for k). *)
Definition is_alnum_i (c : N) : bool :=
  ((48 <=? c) && (c <=? 57)) || ((65 <=? c) && (c <=? 90))
  || ((97 <=? c) && (c <=? 122))
  || (c =? 304) || (c =? 305) || (c =? 383) || (c =? 8490).

Local Open Scope nat_scope.

(** [remove_special_characters] (l. 470-489): [re.sub] with the empty
    replacement drops every character the negated class matches. *)
Definition remove_special_characters (text : pystr) (keep_spaces : bool)
  : pystr :=
  match text with
  | [] => []
  | _ =>
      if keep_spaces
      then strip (List.filter (fun c => is_alnum_i c || isspace c) text)
      else strip (List.filter is_alnum_i text)
  end.

(** [' '.join(words)] *)
Fixpoint join_space (words : list pystr) : pystr :=
  match words with
  | [] => []
  | [w] => w
  | w :: ws => w ++ 32%N :: join_space ws
  end.

(** The stop words used when none are given (l. 525-528). *)
Definition default_stop_words : list pystr :=
  [py "the"; py "a"; py "an"; py "and"; py "or"; py "but"; py "in"; py "on";
   py "at"; py "to"; py "for"; py "of"; py "with"; py "by"; py "from";
   py "is"; py "was"; py "are"; py "were"; py "be"; py "been"].

Section Words.

(** [str.lower()] on a whole string (it is not a map over characters: a
    capital sigma is lowered according to its context), and the characters
    [\w] matches. *)
Variable str_lower : pystr -> pystr.
Variable is_word : N -> bool.

(** [re.findall(r'\b\w+\b', s)]: a match starts where a run of word
    characters starts, [\w+] takes the whole run, and the search goes on
    after it; so the matches are the maximal runs, in order.  [cur] is the
    run being read. *)
Fixpoint findall_words (cur : pystr) (s : pystr) : list pystr :=
  match s with
  | [] => match cur with [] => [] | _ => [cur] end
  | c :: r =>
      if is_word c then findall_words (cur ++ [c]) r
      else match cur with
           | [] => findall_words [] r
           | _ => cur :: findall_words [] r
           end
  end.

(** [extract_words] (l. 492-507) *)
Definition extract_words (text : pystr) : list pystr :=
  match text with
  | [] => []
  | _ => findall_words [] (str_lower text)
  end.

(** [w not in stop_words] *)
Definition not_in (stop_words : list pystr) (w : pystr) : bool :=
  negb (bool_decide (w ∈ stop_words)).

(** [remove_stop_words] (l. 510-535); [stop_words = None] is the default
    argument. *)
Definition remove_stop_words (text : pystr)
    (stop_words : option (list pystr)) : pystr :=
  match text with
  | [] => []
  | _ =>
      let stop_words :=
        match stop_words with
        | None => default_stop_words
        | Some given => map str_lower given
        end in
      join_space (List.filter (not_in stop_words) (extract_words text))
  end.

End Words.

(** ** Formatting and validation of numbers (utils.py, l. 222-405) *)

From Stdlib Require DecimalPos DecimalZ.

Section Numbers.

(** [int(s)] for a string ([None] is [ValueError]) and [c.isdigit()] for a
    character are Python's own. *)
Variable int_of_str : pystr -> option Z.
Variable isdigit : N -> bool.

(** [int(v)]; [None] when it raises ([TypeError] for [None], [ValueError]
    for a string that is no number). *)
Definition int_of (v : pyscalar) : option Z :=
  match v with
  | PyNone => None
  | PyInt z => Some z
  | PyStr s => int_of_str s
  end.

(** [format_year] (l. 222-246).  Neither [str(year)] nor [int(year_str)]
    is inside a [try]. *)
Definition format_year (year : pyscalar) : outcome (option pystr) :=
  match year with
  | PyNone => Returned None
  | _ =>
      match py_str year with
      | Raised exc => Raised exc
      | Returned text =>
          let year_str := strip text in
          if match year_str with [] => true | _ => false end
             || negb (forallb isdigit year_str)
          then Returned None
          else
            match int_of_str year_str with
            | None => Raised (py "ValueError")
            | Some year_int =>
                if ((1800 <=? year_int) && (year_int <=? 2100))%Z
                then Returned (Some year_str)
                else Returned None
            end
      end
  end.

(** [try: ... except (ValueError, TypeError): return None] around a
    formatted text. *)
Definition or_none (text : outcome pystr) : option pystr :=
  match text with
  | Returned t => Some t
  | Raised _ => None
  end.

(** [a + b] for two formatted pieces of one f-string. *)
Definition fconcat (a b : outcome pystr) : outcome pystr :=
  match a, b with
  | Returned x, Returned y => Returned (x ++ y)
  | Raised exc, _ => Raised exc
  | _, Raised exc => Raised exc
  end.

(** [format_duration] (l. 274-303).  The f-strings are inside the [try]:
    a number of hours too long to print gives [None]. *)
Definition format_duration (minutes : pyscalar) : option pystr :=
  match minutes with
  | PyNone => None
  | _ =>
      match int_of minutes with
      | None => None
      | Some minutes_int =>
          if (minutes_int <=? 0)%Z then None
          else
            let hours := (minutes_int / 60)%Z in
            let mins := (minutes_int mod 60)%Z in
            if (hours =? 0)%Z
            then or_none (fconcat (py_str (PyInt mins)) (Returned (py "m")))
            else if (mins =? 0)%Z
            then or_none (fconcat (py_str (PyInt hours)) (Returned (py "h")))
            else or_none
                   (fconcat (py_str (PyInt hours))
                      (fconcat (Returned (py "h "))
                         (fconcat (py_str (PyInt mins))
                            (Returned (py "m")))))
      end
  end.

(** [is_valid_year] (l. 357-371) *)
Definition is_valid_year (year : pyscalar) : bool :=
  match int_of year with
  | Some year_int => ((1800 <=? year_int) && (year_int <=? 2100))%Z
  | None => false
  end.

(** [is_valid_duration] (l. 391-405) *)
Definition is_valid_duration (duration : pyscalar) : bool :=
  match int_of duration with
  | Some duration_int => (0 <? duration_int)%Z
  | None => false
  end.

End Numbers.

Section Years.

(** The characters [\w] matches, and the value of a decimal digit: [\d]
    matches the characters that have one, and [int] reads them by it. *)
Variable is_word : N -> bool.
Variable decimal : N -> option Z.

(** [\b] between two neighbours; there is no character before the start
    and none after the end. *)
Definition word_boundary (before after : option N) : bool :=
  xorb (from_option is_word false before) (from_option is_word false after).

(** A match of [\b(1[8-9]\d{2}|20\d{2})\b] at the head of [s], with [before]
    the character in front of it; the result is [int] of the group. *)
Definition match_year (before : option N) (s : pystr) : option Z :=
  match s with
  | c1 :: c2 :: c3 :: c4 :: rest =>
      if word_boundary before (Some c1) && word_boundary (Some c4) (head rest)
      then
        match decimal c3, decimal c4 with
        | Some d3, Some d4 =>
            if ((c1 =? 49) && ((c2 =? 56) || (c2 =? 57)))%N
            then Some (1000 + 100 * (Z.of_N c2 - 48) + 10 * d3 + d4)%Z
            else if ((c1 =? 50) && (c2 =? 48))%N
            then Some (2000 + 10 * d3 + d4)%Z
            else None
        | _, _ => None
        end
      else None
  | _ => None
  end.

(** [re.findall(...)[0]]: the leftmost match. *)
Fixpoint first_year (before : option N) (s : pystr) : option Z :=
  match s with
  | [] => None
  | c :: r =>
      match match_year before s with
      | Some year => Some year
      | None => first_year (Some c) r
      end
  end.

(** [extract_year_from_string] (l. 306-325) *)
Definition extract_year_from_string (text : pystr) : option Z :=
  match text with
  | [] => None
  | _ => first_year None text
  end.

End Years.

(** ** Validation of titles and addresses (utils.py, l. 330-354, 408-423) *)

From Stdlib Require Floats.

(** Python's floats are binary64; the literal [0.2] is the float nearest
    to one fifth. *)
Module PyFloat.
Import Floats.
Definition float_of_len (n : nat) : float :=
  PrimFloat.of_uint63 (Uint63.of_Z (Z.of_nat n)).
Definition point_two : float := 0x1.999999999999ap-3%float.
Definition mul : float -> float -> float := PrimFloat.mul.
Definition gt (x y : float) : bool := PrimFloat.ltb y x.
End PyFloat.

Local Open Scope N_scope.

(** What the character class of [is_valid_title] matches under
    [re.IGNORECASE]: the letters and digits of [is_alnum_i], whitespace,
    the punctuation [- : ( ) & . , ! ?] with the en dash, the em dash, the
    apostrophe and the double quote, and the six accented letters
    [ñ á é í ó ú] in either case. *)
Definition is_title_char (c : N) : bool :=
  is_alnum_i c || isspace c
  || bool_decide (c ∈ [33; 34; 38; 39; 40; 41; 44; 45; 46; 58; 63;
                       8211; 8212;
                       241; 225; 233; 237; 243; 250;
                       209; 193; 201; 205; 211; 218]).

Local Open Scope nat_scope.

(** [is_valid_title] (l. 330-354), for a [str]. *)
Definition is_valid_title (title : pystr) : bool :=
  match title with
  | [] => false
  | _ =>
      if (length (strip title) <? 1) || (500 <? length title) then false
      else
        let clean := List.filter (fun c => negb (is_title_char c)) title in
        if PyFloat.gt (PyFloat.float_of_len (length clean))
             (PyFloat.mul (PyFloat.float_of_len (length title))
                PyFloat.point_two)
        then false
        else true
  end.

Local Open Scope N_scope.

(** The pieces of [^https?://[^\s/$.?#].[^\s]*$] under [re.IGNORECASE].
    The long s (U+017F) passes for an s. *)
Definition url_h (c : N) : bool := (c =? 104) || (c =? 72).
Definition url_t (c : N) : bool := (c =? 116) || (c =? 84).
Definition url_p (c : N) : bool := (c =? 112) || (c =? 80).
Definition url_s (c : N) : bool := (c =? 115) || (c =? 83) || (c =? 383).

(** [[^\s/$.?#]] *)
Definition url_first (c : N) : bool :=
  negb (isspace c || (c =? 47) || (c =? 36) || (c =? 46) || (c =? 63)
        || (c =? 35)).

(** [.]: any character but the newline. *)
Definition url_any (c : N) : bool := negb (c =? 10).

(** [[^\s]*$]: characters that are not whitespace up to the end of the
    string, or up to a newline that ends it. *)
Fixpoint url_tail (s : pystr) : bool :=
  match s with
  | [] => true
  | c :: r =>
      match r with
      | [] => (c =? 10) || negb (isspace c)
      | _ :: _ => negb (isspace c) && url_tail r
      end
  end.

(** [https?://]: what follows it, if the string starts with it. *)
Definition url_after_scheme (url : pystr) : option pystr :=
  match url with
  | h :: t1 :: t2 :: p :: a :: b :: c :: r =>
      if url_h h && url_t t1 && url_t t2 && url_p p
      then
        if (a =? 58) && (b =? 47) && (c =? 47) then Some r
        else
          match r with
          | d :: r' =>
              if url_s a && (b =? 58) && (c =? 47) && (d =? 47)
              then Some r' else None
          | [] => None
          end
      else None
  | _ => None
  end.

Local Open Scope nat_scope.

(** [is_valid_url] (l. 408-423), for a [str]. *)
Definition is_valid_url (url : pystr) : bool :=
  match url with
  | [] => false
  | _ =>
      match url_after_scheme url with
      | Some (c1 :: c2 :: rest) => url_first c1 && url_any c2 && url_tail rest
      | _ => false
      end
  end.

(** ** Formatting of a title (utils.py, l. 195-219) *)

Local Open Scope N_scope.

(** The delimiters [-–—:()]. *)
Definition is_delimiter (c : N) : bool :=
  (c =? 45) || (c =? 8211) || (c =? 8212) || (c =? 58) || (c =? 40)
  || (c =? 41).

Local Open Scope nat_scope.

(** [re.split(r'([-–—:()])', s)]: the pieces between delimiters, with each
    delimiter as a piece of its own between them.  [cur] is the piece being
    read. *)
Fixpoint re_split_delimiters (cur : pystr) (s : pystr) : list pystr :=
  match s with
  | [] => [cur]
  | c :: r =>
      if is_delimiter c then cur :: [c] :: re_split_delimiters [] r
      else re_split_delimiters (cur ++ [c]) r
  end.

Section Titles.

(** [c.upper()] for one character; it may be more than one character. *)
Variable upper_cp : N -> pystr.

(** One turn of the loop over the pieces. *)
Definition format_word (word : pystr) : pystr :=
  match word with
  | [] => word
  | [c] => if is_delimiter c then word else upper_cp c
  | c :: rest => upper_cp c ++ rest
  end.

(** [format_title] (l. 195-219) *)
Definition format_title (title : pystr) : pystr :=
  match title with
  | [] => []
  | _ => strip (concat (map format_word (re_split_delimiters [] title)))
  end.

End Titles.

(** * Part II: vocabulary of the statements, sample data *)

Local Open Scope N_scope.

(** ** Normalizer *)

(** A fragment of unidecode's table for the Latin-1 block (x000.py): the
    accented letters, used to run the normalizer on concrete inputs.  The
    entries outside the fragment are left empty here. *)
Definition latin1_table (c : N) : pystr :=
  if (192 <=? c) && (c <=? 197) then py "A"
  else if c =? 199 then py "C"
  else if (200 <=? c) && (c <=? 203) then py "E"
  else if (204 <=? c) && (c <=? 207) then py "I"
  else if c =? 209 then py "N"
  else if (210 <=? c) && (c <=? 214) then py "O"
  else if (217 <=? c) && (c <=? 220) then py "U"
  else if c =? 223 then py "ss"
  else if (224 <=? c) && (c <=? 229) then py "a"
  else if c =? 230 then py "ae"
  else if c =? 231 then py "c"
  else if (232 <=? c) && (c <=? 235) then py "e"
  else if (236 <=? c) && (c <=? 239) then py "i"
  else if c =? 241 then py "n"
  else if (242 <=? c) && (c <=? 246) then py "o"
  else if (249 <=? c) && (c <=? 252) then py "u"
  else [].

Definition ascii_cp (c : N) : Prop := c < 128.
Definition lowascii_cp (c : N) : Prop := c < 128 /\ is_upper c = false.

(** [spaced in_run s]: the whitespace of [s] consists of isolated single
    spaces ([in_run]: the character before [s] was one). *)
Fixpoint spaced (in_run : bool) (s : pystr) : Prop :=
  match s with
  | [] => True
  | c :: r =>
      if isspace c then c = 32 /\ in_run = false /\ spaced true r
      else spaced false r
  end.

(** The text produced on the main path of [normalize_text]. *)
Definition folded (tbl low : N -> pystr) (t : pystr) : pystr :=
  strip (re_sub_ws (lower low (unidecode tbl t))).

(** "Canción" and "cancion" as code points. *)
Definition Cancion_accented : pystr := [67; 97; 110; 99; 105; 243; 110].
Definition cancion_plain : pystr := py "cancion".

(** ** Matcher *)

(** What the loop of [find_best_match] has established after the
    candidates [pre], for the threshold [t]. *)
Definition best_so_far (tbl low : N -> pystr) (query : pystr) (t : Q)
    (pre : list pystr) (st : option pystr * Q) : Prop :=
  (st = (None, t)
   /\ forall c, In c pre -> (calculate_similarity tbl low query c <= t)%Q)
  \/ (exists i best,
         pre !! i = Some best
         /\ st = (Some best, calculate_similarity tbl low query best)
         /\ (t < calculate_similarity tbl low query best)%Q
         /\ (forall c, In c pre ->
                (calculate_similarity tbl low query c
                 <= calculate_similarity tbl low query best)%Q)
         /\ (forall j c, (j < i)%nat -> pre !! j = Some c ->
                (calculate_similarity tbl low query c
                 < calculate_similarity tbl low query best)%Q)).

Local Open Scope nat_scope.

(** ** SequenceMatcher *)

(** The block [m] lies in [a[alo:ahi]] and [b[blo:bhi]]. *)
Definition within (alo ahi blo bhi : nat) (m : Match) : Prop :=
  alo <= m_a m /\ m_a m + m_size m <= ahi
  /\ blo <= m_b m /\ m_b m + m_size m <= bhi.

(** [j2len] is the row computed before row [i]: its runs fit between the
    window's origin and the cell they end in. *)
Definition row_bounded (alo blo : nat) (i : nat) (j2len : gmap nat nat)
  : Prop :=
  forall j k, j2len !! j = Some k -> k + alo <= i /\ k + blo <= j + 1.

Definition sum_sizes (l : list Match) : nat := list_sum (map m_size l).

Definition window_ok (q : nat * nat * nat * nat) : Prop :=
  q.1.1.1 <= q.1.1.2 /\ q.1.2 <= q.2.

Definition span_a (q : nat * nat * nat * nat) : nat := q.1.1.2 - q.1.1.1.
Definition span_b (q : nat * nat * nat * nat) : nat := q.2 - q.1.2.

(** The measure that decreases at every turn of the work list. *)
Definition queue_weight (queue : list (nat * nat * nat * nat)) : nat :=
  list_sum (map (fun q => 2 * span_a q + 1) queue).

(** The positions of [x] in [b], ascending, counted from [o]. *)
Fixpoint positions_from (o : nat) (x : N) (b : pystr) : list nat :=
  match b with
  | [] => []
  | y :: b' => (if (x =? y)%N then [o] else []) ++ positions_from (S o) x b'
  end.

Section SelfMatchVocabulary.

Variable a : pystr.
Variable b2j : gmap N (list nat).

(** [a[i]] is a key of [b2j] (it is not popular). *)
Definition indexed (i : nat) : bool :=
  match a !! i with
  | Some x => match b2j !! x with Some _ => true | None => false end
  | None => false
  end.

(** Number of consecutive indexed elements ending at [i]: the length the
    scan records on the diagonal cell [(i, i)]. *)
Fixpoint run (i : nat) : nat :=
  match i with
  | O => if indexed 0 then 1 else 0
  | S i' => if indexed (S i') then S (run i') else 0
  end.

Definition prev_run (i : nat) : nat :=
  match i with O => 0 | S i' => run i' end.

(** The row computed before row [i]. *)
Definition row_diag (i : nat) (j2len : gmap nat nat) : Prop :=
  (forall j k, j2len !! j = Some k -> k <= run j /\ k <= prev_run i)
  /\ j2len_prev j2len i = prev_run i.

(** The best block so far lies on the diagonal and is at least as long as
    every diagonal run seen before row [i]. *)
Definition best_diag (i : nat) (best : Match) : Prop :=
  m_a best = m_b best /\ forall i', i' < i -> run i' <= m_size best.

End SelfMatchVocabulary.

(** ** Edit distance *)

Definition sub_cost (a b : N) : nat := if (a =? b)%N then 0 else 1.

(** Minimum number of insertions, deletions and substitutions: the
    textbook recurrence, peeling the strings from the front. *)
Fixpoint lev (s t : pystr) : nat :=
  match s with
  | [] => length t
  | a :: s' =>
      (fix lev_s (t : pystr) : nat :=
         match t with
         | [] => length s
         | b :: t' =>
             Nat.min (lev s' t + 1)
                     (Nat.min (lev_s t' + 1) (lev s' t' + sub_cost a b))
         end) t
  end.

Section LevTableVocabulary.

Variables s1 s2 : pystr.

(** The distance between the first [i] characters of [s1] and the first
    [j] of [s2].  (The recurrence peels from the front; a prefix is read
    from its end, hence the reversal.) *)
Definition prefix_lev (i j : nat) : Z :=
  Z.of_nat (lev (rev (take i s1)) (rev (take j s2))).

Definition table_shape (dist : list (list Z)) : Prop :=
  length dist = length s1 + 1
  /\ Forall (fun row => length row = length s2 + 1) dist.

(** The cells before [(i, j)] in row-major order, and the border, hold the
    prefix distances. *)
Definition filled (i j : nat) (dist : list (list Z)) : Prop :=
  forall i' j', i' <= length s1 -> j' <= length s2 ->
    i' = 0 \/ j' = 0 \/ i' < i \/ (i' = i /\ j' < j) ->
    dist_get dist i' j' = prefix_lev i' j'.

(** The table after the allocation and the two border loops. *)
Definition lev_border : list (list Z) :=
  fold_left (fun d j => dist_set d 0 j (Z.of_nat j))
    (seq 1 (length s2 + 1 - 1))
    (fold_left (fun d i => dist_set d i 0 (Z.of_nat i))
       (seq 1 (length s1 + 1 - 1))
       (replicate (length s1 + 1) (replicate (length s2 + 1) 0%Z))).

End LevTableVocabulary.

(** ** Listing extraction *)

(** An item is well formed when it has a title node and a link node. *)
Definition well_formed (e : element) : bool :=
  match sel_title e, sel_link e with
  | Some _, Some _ => true
  | _, _ => false
  end.

(** The reference of the item's link: its [href], empty if there is no
    link or no [href]. *)
Definition href_of (e : element) : pystr :=
  match sel_link e with
  | Some link =>
      match tag_attrs link !! py "href" with
      | Some v => v
      | None => []
      end
  | None => []
  end.

(** The item has a title and a link: a title node with some text and a
    link node with a non-empty [href]. *)
Definition has_title_and_link (e : element) : bool :=
  match sel_title e with
  | Some title =>
      negb (bool_decide (tag_text title = []))
      && negb (bool_decide (href_of e = []))
  | None => false
  end.

(** The link resolves: its reference is absolute already, or [urljoin]
    joins it to the site root without raising. *)
Definition resolves (urljoin : pystr -> pystr -> outcome pystr)
    (e : element) : bool :=
  startswith (href_of e) (py "http")
  || match urljoin CUEVANA_PRO_URL (href_of e) with
     | Returned _ => true
     | Raised _ => false
     end.

(** The item has both nodes and its link resolves. *)
Definition extractable (urljoin : pystr -> pystr -> outcome pystr)
    (e : element) : bool :=
  well_formed e && resolves urljoin e.

(** A stand-in for [urljoin] on the site root: right for an absolute
    path, for a plain relative one and for the empty reference, and for a
    reference that opens an IPv6 host it never closes (['//['], say), on
    which [urljoin] raises. *)
Definition join_root (base url : pystr) : outcome pystr :=
  if startswith url (py "//[") && negb (bool_decide (93%N ∈ url))
  then Raised (py "ValueError")
  else Returned (base ++ match url with
                         | 47%N :: path => path
                         | _ => url
                         end).

Definition matrix_item : element :=
  mkElement (Some (mkTag (py "The Matrix") ∅))
            (Some (mkTag [] {[ py "href" := py "/pelicula/matrix" ]}))
            None None.

(** An item without a title node. *)
Definition untitled_item : element :=
  mkElement None
            (Some (mkTag [] {[ py "href" := py "/pelicula/x" ]}))
            None None.

(** An item whose title node is empty and whose link has no [href], and an
    item whose link [urljoin] cannot resolve. *)
Definition hollow_item : element :=
  mkElement (Some (mkTag [] ∅)) (Some (mkTag [] ∅)) None None.

Definition unresolved_item : element :=
  mkElement (Some (mkTag (py "The Matrix") ∅))
            (Some (mkTag [] {[ py "href" := py "//[" ]}))
            None None.

(** ** Request handlers *)

(** The fields a handler reads from a request. *)
Definition id_of (request : gmap pystr pyscalar) : pyscalar :=
  dict_get request (py "id") PyNone.
Definition type_of (request : gmap pystr pyscalar) : pyscalar :=
  dict_get request (py "type") (PyStr (py "movie")).
Definition season_of (request : gmap pystr pyscalar) : pyscalar :=
  dict_get request (py "season") PyNone.
Definition episode_of (request : gmap pystr pyscalar) : pyscalar :=
  dict_get request (py "episode") PyNone.

Definition metadata_key_of (request : gmap pystr pyscalar) : pystr :=
  metadata_key (type_of request) (id_of request).
Definition stream_key_of (request : gmap pystr pyscalar) : pystr :=
  stream_key (type_of request) (id_of request)
             (season_of request) (episode_of request).
Definition stream_call_of (request : gmap pystr pyscalar)
  : pyscalar * pyscalar * pyscalar * pyscalar :=
  (id_of request, type_of request, season_of request, episode_of request).

Definition cacheMaxAge : pystr := py "cacheMaxAge".


(** [isinstance(e, Exception)] for the built-in exceptions, by class
    name. *)
Definition builtin_is_exception (exc : pystr) : bool :=
  negb (bool_decide (exc ∈ [py "BaseException"; py "KeyboardInterrupt";
                            py "SystemExit"; py "GeneratorExit"])).

(** The text of a duration of [m] minutes: [f"{mins}m"], [f"{hours}h"] or
    [f"{hours}h {mins}m"]. *)
Definition duration_text (m : Z) : pystr :=
  let hours := (m / 60)%Z in
  let mins := (m mod 60)%Z in
  if (hours =? 0)%Z then str_of (PyInt mins) ++ py "m"
  else if (mins =? 0)%Z then str_of (PyInt hours) ++ py "h"
  else str_of (PyInt hours) ++ py "h " ++ str_of (PyInt mins) ++ py "m".

(** The envelope of a request that the handler does not serve. *)
Definition no_meta : list (pystr * pyval) := [(py "meta", PyDict [])].

(** *** Sample requests and upstreams *)




Definition banana_request : gmap pystr pyscalar :=
  {[ py "id" := PyStr (py "cuevanap_matrix");
     py "type" := PyStr (py "banana") ]}.



Definition new_metadata_handler : metadata_handler := mkMetadataHandler ∅ [].

(** ** Matching, continued *)

(** The candidates that reach the threshold, with their scores, in the
    order of the input. *)
Definition scored_matches (tbl low : N -> pystr) (query : pystr)
    (candidates : list pystr) (t : Q) : list (pystr * Q) :=
  List.filter (fun x => Qle_bool t x.2)
    (map (fun c => (c, calculate_similarity tbl low query c)) candidates).

(** The first entry among those of highest score. *)
Fixpoint first_max (l : list (pystr * Q)) : option (pystr * Q) :=
  match l with
  | [] => None
  | x :: l' =>
      match first_max l' with
      | None => Some x
      | Some y => if Qgtb y.2 x.2 then Some y else Some x
      end
  end.

(** The candidate of an entry that scores above [t], if any. *)
Definition above (t : Q) (o : option (pystr * Q)) : option pystr :=
  match o with
  | Some x => if Qgtb x.2 t then Some x.1 else None
  | None => None
  end.

(** Sorted, highest score first. *)
Definition score_sorted (l : list (pystr * Q)) : Prop :=
  StronglySorted (fun x y => (y.2 <= x.2)%Q) l.

(** The entries of score [v], in their order. *)
Definition with_score (v : Q) (l : list (pystr * Q)) : list (pystr * Q) :=
  List.filter (fun x => Qeq_bool x.2 v) l.

(** ** Validation of a record *)

(** [data[field] = v] for every field of the list. *)
Definition fill_fields (fields : list pystr) (v : pyval)
    (data : gmap pystr pyval) : gmap pystr pyval :=
  foldr (fun f d => <[f := v]> d) data fields.

(** ** The other scraper methods *)

(** What one turn of a collecting loop keeps of an item. *)
Definition kept {A} (parse : A -> option pyval) (item : A) : option pyval :=
  match parse item with
  | Some m => if truthy_val m then Some m else None
  | None => None
  end.

(** [m[key]] when [m] is a dict. *)
Definition field (m : pyval) (key : pystr) : option pyval :=
  match m with
  | PyDict d => dict_lookup d key
  | _ => None
  end.

(** An entity of the given kind: a dict with the six fields of a listing
    item, whose id is the namespace prefix followed by its url. *)
Definition entity_of_kind (kind : pystr) (m : pyval) : Prop :=
  exists d url,
    m = PyDict d
    /\ map fst d = [py "type"; py "id"; py "name"; py "poster"; py "year";
                    py "url"]
    /\ field m (py "type") = Some (PyScalar (PyStr kind))
    /\ field m (py "url") = Some (PyScalar (PyStr url))
    /\ field m (py "id") = Some (PyScalar (PyStr (ID_PREFIX ++ url))).

(** The page [get_series] reads: the search page for a non-empty query,
    the series index otherwise. *)
Definition series_page (quote : pystr -> pystr) (query : option pystr)
  : pystr :=
  match query with
  | Some (c :: q) =>
      CUEVANA_PRO_URL ++ py "?s=" ++ quote (c :: q) ++ py "&type=tv"
  | _ => CUEVANA_PRO_URL ++ py "series/"
  end.

(** The address a stream element carries: [href], or [data-url] when there
    is no [href] attribute at all. *)
Definition stream_address (e : tag) : pyscalar :=
  tag_get e (py "href") (tag_get e (py "data-url") PyNone).

(** A stream dict with a non-empty url. *)
Definition stream_with_url (m : pyval) : Prop :=
  exists c u, field m (py "url") = Some (PyScalar (PyStr (c :: u))).

(** [elem.get_text(strip=True)] of the genre nodes that have any text. *)
Definition genre_texts (s : soup) : list pystr :=
  List.filter (fun t => negb (bool_decide (t = [])))
    (map tag_text (soup_genres s)).

(** The poster field of a listing item built from the image tag [img]. *)
Definition listing_poster (img : tag) : pyscalar :=
  tag_get img (py "src") (tag_get img (py "data-src") PyNone).

(** Stream links: one with an [href], one with only a [data-url], one whose
    [href] is empty beside a [data-url], one with no address at all. *)
Definition mirror_link : tag :=
  mkTag (py "Mirror") {[ py "href" := py "https://cdn.example/1" ]}.
Definition lazy_link : tag :=
  mkTag (py "Lazy") {[ py "data-url" := py "https://cdn.example/2" ]}.
Definition blank_link : tag :=
  mkTag (py "Blank")
    {[ py "href" := []; py "data-url" := py "https://cdn.example/3" ]}.
Definition bare_link : tag := mkTag (py "Bare") ∅.

(** An image loaded lazily, a listing item and a detail page showing it. *)
Definition lazy_image : tag :=
  mkTag [] {[ py "src" := []; py "data-src" := py "/lazy.jpg" ]}.
Definition lazy_item : element :=
  mkElement (Some (mkTag (py "Matrix") ∅))
    (Some (mkTag [] {[ py "href" := py "https://cuevana.pro/matrix" ]}))
    (Some lazy_image) None.
Definition lazy_page : soup :=
  mkSoup None None (Some lazy_image) None None None [].

(** ** Request handlers, continued *)

(** No colon in the string. *)
Definition colon_free (s : pystr) : Prop := ~ In 58%N s.



(** Two requests whose kind and identifier differ and whose cache keys are
    the same string ["a:b:c"]. *)
Definition split_early_request : gmap pystr pyscalar :=
  {[ py "id" := PyStr (py "b:c"); py "type" := PyStr (py "a") ]}.
Definition split_late_request : gmap pystr pyscalar :=
  {[ py "id" := PyStr (py "c"); py "type" := PyStr (py "a:b") ]}.


(** ** Text processing *)

Local Open Scope N_scope.

(** The ASCII instance of the string tables: [str.lower()] of an ASCII
    string, the ASCII characters [\w] matches, and the ASCII characters
    that [str.lower()] leaves alone. *)
Definition ascii_lower (s : pystr) : pystr :=
  map (fun c => if is_upper c then c + 32 else c) s.

Definition ascii_word (c : N) : bool :=
  ((48 <=? c) && (c <=? 57)) || ((65 <=? c) && (c <=? 90))
  || ((97 <=? c) && (c <=? 122)) || (c =? 95).

Definition ascii_lowered (c : N) : bool := negb (is_upper c).

Local Open Scope nat_scope.

(** A word: a non-empty string of word characters. *)
Definition is_a_word (is_word : N -> bool) (w : pystr) : Prop :=
  w <> [] /\ Forall (fun c => is_word c = true) w.

(** ** Formatting and validation of numbers *)

Local Open Scope N_scope.

(** The ASCII digits, and their values. *)
Definition ascii_isdigit (c : N) : bool := (48 <=? c) && (c <=? 57).

Definition ascii_decimal (c : N) : option Z :=
  if ascii_isdigit c then Some (Z.of_N c - 48)%Z else None.

(** A part of [int(s)]: it reads the decimal text of an integer of at
    most 4300 digits, as [str] prints it, between whitespace that [int]
    skips: all of [isspace] but U+001C to U+001F, which [int] rejects.  Any
    other string is left unread here ([None]), also where [int] reads it
    (a plus sign, leading zeros, underscores, other digits). *)
Definition plain_int_of_str (s : pystr) : option Z :=
  let t := strip s in
  if forallb (fun c => negb ((28 <=? c) && (c <=? 31))) s
  then
    match NilEmpty.int_of_string
            (string_of_list_ascii (map ascii_of_N t)) with
    | Some d =>
        let z := Z.of_int d in
        if bool_decide (str_of (PyInt z) = t) && printable (PyInt z)
        then Some z else None
    | None => None
    end
  else None.

(** [str.isdigit] also holds of the superscript two (U+00B2), which [int]
    does not read. *)
Definition isdigit_with_superscript (c : N) : bool :=
  ascii_isdigit c || (c =? 178).

Local Open Scope nat_scope.

(** The years from 1800 to 2100. *)
Definition year_range : list Z :=
  map (fun k => (1800 + Z.of_nat k)%Z) (seq 0 301).

(** ** Validation of titles and addresses, formatting of a title *)

(** The characters of a title that the class of [is_valid_title] does not
    match. *)
Definition foreign (title : pystr) : pystr :=
  List.filter (fun c => negb (is_title_char c)) title.

(** The lengths for which the float comparison of [is_valid_title] is
    checked against the exact one. *)
Definition fifth_is_exact (n : nat) : bool :=
  forallb
    (fun k =>
       Bool.eqb
         (PyFloat.gt (PyFloat.float_of_len k)
            (PyFloat.mul (PyFloat.float_of_len n) PyFloat.point_two))
         (n <? 5 * k))
    (seq 0 (S n)).

Section TitleVocabulary.

Variable upper_cp : N -> pystr.

(** The title with the first character of every piece between delimiters
    put in upper case, in one pass; [at_start] says that a piece starts
    here. *)
Fixpoint capitalize_starts (at_start : bool) (s : pystr) : pystr :=
  match s with
  | [] => []
  | c :: r =>
      if is_delimiter c then c :: capitalize_starts true r
      else if at_start then upper_cp c ++ capitalize_starts false r
      else c :: capitalize_starts false r
  end.

End TitleVocabulary.

(** Every delimiter is the last character or is followed by whitespace or
    by another delimiter. *)
Fixpoint delimiters_spaced (s : pystr) : bool :=
  match s with
  | [] => true
  | c :: r =>
      (if is_delimiter c
       then match r with
            | [] => true
            | d :: _ => isspace d || is_delimiter d
            end
       else true)
      && delimiters_spaced r
  end.

(** [str.upper()] of an ASCII character. *)
Definition ascii_upper (c : N) : pystr :=
  if ((97 <=? c) && (c <=? 122))%N then [(c - 32)%N] else [c].

(** * Part III: properties *)

Local Open Scope N_scope.

(** ** Normalizer: properties *)

Lemma spaced_sub_ws b s : spaced b (sub_ws b s).
Proof.
  revert b; induction s as [|c r IH]; intros b; simpl; [exact I|].
  destruct (isspace c) eqn:E.
  - destruct b; [apply IH|].
    simpl. split; [reflexivity|]. split; [reflexivity|apply IH].
  - simpl. rewrite E. apply IH.
Qed.

Lemma sub_ws_spaced b s : spaced b s -> sub_ws b s = s.
Proof.
  revert b; induction s as [|c r IH]; intros b H; simpl in *; [reflexivity|].
  destruct (isspace c) eqn:E.
  - destruct H as (-> & -> & H). f_equal. now apply IH.
  - f_equal. now apply IH.
Qed.

Lemma spaced_lstrip b s : spaced b s -> spaced false (lstrip s).
Proof.
  revert b; induction s as [|c r IH]; intros b H; simpl in *; [exact I|].
  destruct (isspace c) eqn:E.
  - destruct H as (_ & _ & H). now apply IH in H.
  - simpl. now rewrite E.
Qed.

Lemma spaced_rstrip b s : spaced b s -> spaced b (rstrip s).
Proof.
  revert b; induction s as [|c r IH]; intros b H; simpl in *; [exact I|].
  destruct (rstrip r) as [|d r'] eqn:R.
  - destruct (isspace c) eqn:E; simpl; [exact I|]. now rewrite E.
  - change (spaced b (c :: d :: r')). cbn [spaced].
    destruct (isspace c) eqn:E.
    + destruct H as (? & ? & H). repeat split; auto. now apply IH in H.
    + now apply IH in H.
Qed.

Lemma Forall_lstrip (P : N -> Prop) s : Forall P s -> Forall P (lstrip s).
Proof.
  induction 1 as [|c r Hc Hr IH]; simpl; [constructor|].
  destruct (isspace c); [exact IH|now constructor].
Qed.

Lemma Forall_rstrip (P : N -> Prop) s : Forall P s -> Forall P (rstrip s).
Proof.
  induction 1 as [|c r Hc Hr IH]; simpl; [constructor|].
  destruct (rstrip r) as [|d r'].
  - destruct (isspace c); constructor; auto.
  - now constructor.
Qed.

Lemma Forall_sub_ws (P : N -> Prop) b s :
  P 32 -> Forall P s -> Forall P (sub_ws b s).
Proof.
  intros P32 H. revert b.
  induction H as [|c r Hc Hr IH]; intros b; simpl; [constructor|].
  destruct (isspace c); [destruct b|]; auto.
Qed.

Lemma lstrip_head_fix c r : isspace c = false -> lstrip (c :: r) = c :: r.
Proof. intros E. simpl. now rewrite E. Qed.

Lemma lstrip_cases s :
  lstrip s = [] \/ exists c r, lstrip s = c :: r /\ isspace c = false.
Proof.
  induction s as [|c r IH]; simpl; [now left|].
  destruct (isspace c) eqn:E; [exact IH|]. right. eauto.
Qed.

Lemma rstrip_idem s : rstrip (rstrip s) = rstrip s.
Proof.
  induction s as [|c r IH]; simpl; [reflexivity|].
  destruct (rstrip r) as [|d r'] eqn:R.
  - destruct (isspace c) eqn:E; simpl; [reflexivity|]. now rewrite E.
  - change (rstrip (c :: d :: r')) with
      (match rstrip (d :: r') with
       | [] => if isspace c then [] else [c]
       | x => c :: x end).
    rewrite IH. reflexivity.
Qed.

Lemma rstrip_head c r :
  isspace c = false -> exists r', rstrip (c :: r) = c :: r'.
Proof.
  intros E. simpl. destruct (rstrip r); rewrite ?E; eauto.
Qed.

Lemma strip_idem s : strip (strip s) = strip s.
Proof.
  unfold strip.
  destruct (lstrip_cases s) as [->|(c & r & -> & E)]; [reflexivity|].
  destruct (rstrip_head c r E) as (r' & Hr).
  rewrite Hr, (lstrip_head_fix c r' E), <- Hr. apply rstrip_idem.
Qed.

Section NormalizerProps.

Variable tbl : N -> pystr.
Variable low : N -> pystr.
Hypothesis tbl_ascii : forall c, Forall ascii_cp (tbl c).

Lemma unidecode_ascii s : Forall ascii_cp (unidecode tbl s).
Proof.
  induction s as [|c r IH]; simpl; [constructor|].
  apply Forall_app; split; [|exact IH].
  unfold unidecode_cp. destruct (c <? 128) eqn:E; [|apply tbl_ascii].
  constructor; [|constructor]. now apply N.ltb_lt.
Qed.

Lemma unidecode_id s : Forall ascii_cp s -> unidecode tbl s = s.
Proof.
  induction 1 as [|c r Hc Hr IH]; simpl; [reflexivity|].
  unfold unidecode_cp. apply N.ltb_lt in Hc. rewrite Hc. simpl. now f_equal.
Qed.

Lemma lower_cp_lowascii c : ascii_cp c -> Forall lowascii_cp (lower_cp low c).
Proof.
  unfold ascii_cp, lower_cp, lowascii_cp. intros Hc.
  destruct (is_upper c) eqn:U.
  - constructor; [|constructor]. unfold is_upper in *.
    apply andb_true_iff in U as [U1 U2].
    apply N.leb_le in U1, U2. split; [lia|].
    apply andb_false_iff. right. apply N.leb_gt. lia.
  - apply N.ltb_lt in Hc as Hc'. rewrite Hc'.
    constructor; [|constructor]. now split.
Qed.

Lemma lower_lowascii s : Forall ascii_cp s -> Forall lowascii_cp (lower low s).
Proof.
  induction 1 as [|c r Hc Hr IH]; simpl; [constructor|].
  apply Forall_app; split; [now apply lower_cp_lowascii|exact IH].
Qed.

Lemma lower_id s : Forall lowascii_cp s -> lower low s = s.
Proof.
  induction 1 as [|c r [Hc U] Hr IH]; simpl; [reflexivity|].
  unfold lower_cp. rewrite U. apply N.ltb_lt in Hc. rewrite Hc.
  simpl. now f_equal.
Qed.

Lemma lowascii_ascii s : Forall lowascii_cp s -> Forall ascii_cp s.
Proof.
  intros H. eapply Forall_impl; [exact H|]. now intros c [Hc _].
Qed.

Lemma folded_lowascii t : Forall lowascii_cp (folded tbl low t).
Proof.
  unfold folded, strip, re_sub_ws.
  apply Forall_rstrip, Forall_lstrip, Forall_sub_ws.
  - split; [reflexivity|reflexivity].
  - apply lower_lowascii, unidecode_ascii.
Qed.

Lemma folded_spaced t : spaced false (folded tbl low t).
Proof.
  unfold folded, strip, re_sub_ws.
  apply spaced_rstrip. eapply spaced_lstrip. apply spaced_sub_ws.
Qed.

Lemma folded_fix t : folded tbl low (folded tbl low t) = folded tbl low t.
Proof.
  pose proof (folded_lowascii t) as HL.
  pose proof (folded_spaced t) as HS.
  unfold folded at 1.
  rewrite (unidecode_id _ (lowascii_ascii _ HL)), (lower_id _ HL).
  unfold re_sub_ws. rewrite (sub_ws_spaced _ _ HS).
  unfold folded. apply strip_idem.
Qed.

Lemma normalize_text_folded t :
  normalize_text tbl low (Some t) = folded tbl low t.
Proof. destruct t; reflexivity. Qed.

Lemma normalize_text_idem x :
  normalize_text tbl low (Some (normalize_text tbl low x))
  = normalize_text tbl low x.
Proof.
  destruct x as [t|]; [|reflexivity].
  rewrite !normalize_text_folded. apply folded_fix.
Qed.

Lemma normalize_text_unidecode s :
  normalize_text tbl low (Some (unidecode tbl s))
  = normalize_text tbl low (Some s).
Proof.
  rewrite !normalize_text_folded. unfold folded.
  now rewrite (unidecode_id _ (unidecode_ascii s)).
Qed.

Lemma normalize_text_lower s :
  Forall ascii_cp s ->
  normalize_text tbl low (Some (lower low s))
  = normalize_text tbl low (Some s).
Proof.
  intros Hs. rewrite !normalize_text_folded. unfold folded.
  pose proof (lower_lowascii s Hs) as HL.
  rewrite (unidecode_id _ (lowascii_ascii _ HL)), (unidecode_id _ Hs).
  now rewrite (lower_id _ HL).
Qed.

End NormalizerProps.

(** C8. [normalize_text] is idempotent, maps [None] and the empty string to
    the empty string, and folds case and accents: a text and its
    transliteration normalize alike, an ASCII text and its lower-case form
    normalize alike, and, unidecode mapping o-acute to "o",
    normalize_text("Canción") = normalize_text("cancion").  The only
    assumption is unidecode's contract that its table holds ASCII. *)
Theorem normalize_text_idempotent_and_folding :
  forall (tbl low : N -> pystr),
    (forall c, Forall ascii_cp (tbl c)) ->
    (forall x, normalize_text tbl low (Some (normalize_text tbl low x))
               = normalize_text tbl low x)
    /\ normalize_text tbl low None = []
    /\ normalize_text tbl low (Some []) = []
    /\ (forall s, normalize_text tbl low (Some (unidecode tbl s))
                  = normalize_text tbl low (Some s))
    /\ (forall s, Forall ascii_cp s ->
                  normalize_text tbl low (Some (lower low s))
                  = normalize_text tbl low (Some s))
    /\ (tbl 243 = py "o" ->
        normalize_text tbl low (Some Cancion_accented)
        = normalize_text tbl low (Some cancion_plain))
    /\ normalize_text tbl low (Some cancion_plain) = py "cancion".
Proof.
  intros tbl low Hascii. repeat split.
  - apply normalize_text_idem, Hascii.
  - intros s. apply normalize_text_unidecode, Hascii.
  - intros s Hs. now apply normalize_text_lower.
  - intros Ho.
    unfold normalize_text, Cancion_accented, cancion_plain, unidecode.
    cbn [flat_map]. unfold unidecode_cp at 6.
    change (243 <? 128) with false. cbv iota. rewrite Ho. reflexivity.
Qed.

Lemma latin1_table_ascii c : Forall ascii_cp (latin1_table c).
Proof.
  unfold latin1_table.
  repeat (match goal with |- context [if ?b then _ else _] => destruct b end;
          [repeat constructor|]).
  constructor.
Qed.

Lemma normalize_text_idempotent_and_folding_witness :
  normalize_text latin1_table (fun c => [c]) (Some Cancion_accented)
  = py "cancion"
  /\ normalize_text latin1_table (fun c => [c])
       (Some (normalize_text latin1_table (fun c => [c])
                (Some (py "  The   MATRIX "))))
     = py "the matrix".
Proof.
  destruct (normalize_text_idempotent_and_folding latin1_table (fun c => [c])
              latin1_table_ascii) as (Hi & _ & _ & _ & _ & H1 & H2).
  split.
  - rewrite (H1 eq_refl). exact H2.
  - rewrite Hi. reflexivity.
Defined.

(** ** The program on sample inputs *)

Example levenshtein_kitten_sitting :
  levenshtein_distance latin1_table (fun c => [c])
    (py "Kitten") (py "  sitting ") = 3%Z.
Proof. vm_compute. reflexivity. Qed.

Example ratio_tide_diet : ratio (py "tide") (py "diet") = (2 # 8)%Q.
Proof. vm_compute. reflexivity. Qed.

Example ratio_diet_tide : ratio (py "diet") (py "tide") = (4 # 8)%Q.
Proof. vm_compute. reflexivity. Qed.

Example find_best_match_first_of_ties :
  find_best_match latin1_table (fun c => [c]) (py "matrix")
    [py "matrix reloaded"; py "MATRIX"; py " matrix "; py "matri"] (8 # 10)
  = Some (py "MATRIX").
Proof. vm_compute. reflexivity. Qed.

(** ** Matcher: properties *)

Lemma Qgtb_true x y : Qgtb x y = true <-> (y < x)%Q.
Proof.
  unfold Qgtb. rewrite negb_true_iff. split; intros H.
  - apply Qnot_le_lt. intros Hle. apply Qle_bool_iff in Hle. congruence.
  - destruct (Qle_bool x y) eqn:E; [|reflexivity].
    apply Qle_bool_iff in E. exfalso. exact (Qlt_not_le _ _ H E).
Qed.

Lemma Qgtb_false x y : Qgtb x y = false <-> (x <= y)%Q.
Proof.
  unfold Qgtb. rewrite negb_false_iff. apply Qle_bool_iff.
Qed.

Section BestMatchLoop.

Variable tbl : N -> pystr.
Variable low : N -> pystr.
Variable query : pystr.
Variable t : Q.

Let sim := calculate_similarity tbl low query.

Lemma best_so_far_step pre st c :
  best_so_far tbl low query t pre st ->
  best_so_far tbl low query t (pre ++ [c]) (best_match_step tbl low query st c).
Proof.
  unfold best_match_step. fold sim. intros Hinv.
  destruct (Qgtb (sim c) st.2) eqn:G.
  - apply Qgtb_true in G. right. exists (length pre), c.
    assert (Hprev : forall d, In d pre -> (sim d < sim c)%Q).
    { destruct Hinv as [[-> Hall]|(i & best & _ & -> & _ & Hall & _)];
        simpl in G; intros d Hd.
      - eapply Qle_lt_trans; [apply Hall, Hd|exact G].
      - eapply Qle_lt_trans; [apply Hall, Hd|exact G]. }
    split; [apply list_lookup_middle; reflexivity|].
    split; [reflexivity|]. split.
    { destruct Hinv as [[-> _]|(i & best & _ & -> & Ht & _ & _)]; simpl in G.
      - exact G.
      - eapply Qlt_trans; eassumption. }
    split.
    + intros d Hd. apply in_app_or in Hd as [Hd|[<-|[]]].
      * apply Qlt_le_weak, Hprev, Hd.
      * apply Qle_refl.
    + intros j d Hj Hd. rewrite lookup_app_l in Hd by exact Hj.
      apply Hprev. apply list_elem_of_In. eapply list_elem_of_lookup_2, Hd.
  - apply Qgtb_false in G.
    destruct Hinv as [[-> Hall]|(i & best & Hi & -> & Ht & Hall & Hfirst)];
      simpl in G.
    + left. split; [reflexivity|].
      intros d Hd. apply in_app_or in Hd as [Hd|[<-|[]]]; auto.
    + right. exists i, best.
      pose proof (lookup_lt_Some _ _ _ Hi) as Hlt.
      split; [rewrite lookup_app_l; assumption|].
      split; [reflexivity|]. split; [exact Ht|]. split.
      * intros d Hd. apply in_app_or in Hd as [Hd|[<-|[]]]; auto.
      * intros j d Hj Hd. rewrite lookup_app_l in Hd by lia. eauto.
Qed.

Lemma best_so_far_loop l : forall pre st,
  best_so_far tbl low query t pre st ->
  best_so_far tbl low query t (pre ++ l)
    (fold_left (best_match_step tbl low query) l st).
Proof.
  induction l as [|c l IH]; intros pre st Hinv; simpl.
  - now rewrite app_nil_r.
  - replace (pre ++ c :: l) with ((pre ++ [c]) ++ l)
      by (now rewrite <- app_assoc).
    apply IH, best_so_far_step, Hinv.
Qed.

Lemma find_best_match_loop candidates :
  best_so_far tbl low query t candidates
    (fold_left (best_match_step tbl low query) candidates (None, t)).
Proof.
  apply (best_so_far_loop candidates [] (None, t)).
  left. split; [reflexivity|]. intros c [].
Qed.

Lemma find_best_match_fold candidates :
  find_best_match tbl low query candidates t
  = (fold_left (best_match_step tbl low query) candidates (None, t)).1.
Proof. destruct candidates; reflexivity. Qed.

End BestMatchLoop.

(** C2. [find_best_match] returns [None] when no candidate scores above
    the threshold; otherwise it returns the candidate at the first position
    whose score is the maximum, and that score is above the threshold.  So
    a score equal to the threshold never wins and a later tie never
    replaces the incumbent. *)
Theorem find_best_match_first_strict_maximum :
  forall (tbl low : N -> pystr) (query : pystr) (candidates : list pystr)
         (t : Q),
    let sim := calculate_similarity tbl low query in
    ((forall c, In c candidates -> (sim c <= t)%Q) ->
     find_best_match tbl low query candidates t = None)
    /\ ((exists c, In c candidates /\ (t < sim c)%Q) ->
        exists i best,
          candidates !! i = Some best
          /\ find_best_match tbl low query candidates t = Some best
          /\ (t < sim best)%Q
          /\ (forall c, In c candidates -> (sim c <= sim best)%Q)
          /\ (forall j c, (j < i)%nat -> candidates !! j = Some c ->
                          (sim c < sim best)%Q))
    /\ (forall c, find_best_match tbl low query candidates t = Some c ->
                  ~ (sim c == t)%Q).
Proof.
  intros tbl low query candidates t sim.
  pose proof (find_best_match_loop tbl low query t candidates) as Hinv.
  rewrite (find_best_match_fold tbl low query t candidates).
  fold sim in Hinv.
  destruct Hinv as [[-> Hall]|(i & best & Hi & -> & Ht & Hall & Hfirst)];
    simpl; repeat split.
  - intros (c & Hc & Hlt). exfalso.
    exact (Qlt_not_le _ _ Hlt (Hall c Hc)).
  - intros c Hc. discriminate.
  - intros Hle. exfalso. apply (Qlt_not_le _ _ Ht), Hle.
    apply list_elem_of_In. eapply list_elem_of_lookup_2, Hi.
  - intros _. exists i, best. repeat split; assumption.
  - intros c [= <-] Heq. apply (Qlt_not_eq _ _ Ht). symmetry. exact Heq.
Qed.

Lemma find_best_match_first_strict_maximum_witness :
  exists i best,
    [py "matrix reloaded"; py "MATRIX"; py " matrix "; py "matri"] !! i
    = Some best
    /\ find_best_match latin1_table (fun c => [c]) (py "matrix")
         [py "matrix reloaded"; py "MATRIX"; py " matrix "; py "matri"]
         (8 # 10)
       = Some best
    /\ (8 # 10 < calculate_similarity latin1_table (fun c => [c])
                   (py "matrix") best)%Q.
Proof.
  destruct (find_best_match_first_strict_maximum latin1_table (fun c => [c])
              (py "matrix")
              [py "matrix reloaded"; py "MATRIX"; py " matrix "; py "matri"]
              (8 # 10)) as (_ & H & _).
  destruct H as (i & best & Hi & Hb & Ht & _).
  - exists (py "MATRIX"). split; [right; left; reflexivity|].
    vm_compute. reflexivity.
  - exists i, best. auto.
Defined.

(** ** SequenceMatcher: every block lies inside its window *)

Local Open Scope nat_scope.

Section FlmBounds.

Variables a b : pystr.
Variable b2j : gmap N (list nat).
Variables alo ahi blo bhi : nat.
Hypothesis Halo : alo <= ahi.
Hypothesis Hblo : blo <= bhi.

Lemma j2len_prev_bounded i j2len j :
  row_bounded alo blo i j2len -> blo <= j ->
  j2len_prev j2len j + alo <= i \/ j2len_prev j2len j = 0.
Proof.
  intros Hrow Hj. destruct j as [|j']; simpl; [now right|].
  destruct (j2len !! j') as [k|] eqn:E; simpl; [|now right].
  left. apply (Hrow _ _ E).
Qed.

Lemma j2len_prev_bounded_b i j2len j :
  row_bounded alo blo i j2len ->
  j2len_prev j2len j + blo <= j \/ j2len_prev j2len j = 0.
Proof.
  intros Hrow. destruct j as [|j']; simpl; [now right|].
  destruct (j2len !! j') as [k|] eqn:E; simpl; [|now right].
  left. destruct (Hrow _ _ E). lia.
Qed.

Lemma flm_inner_bounds i j2len js : forall newj2len best,
  alo <= i -> i < ahi ->
  row_bounded alo blo i j2len ->
  row_bounded alo blo (S i) newj2len ->
  within alo ahi blo bhi best ->
  row_bounded alo blo (S i) (flm_inner blo bhi i j2len js newj2len best).1
  /\ within alo ahi blo bhi (flm_inner blo bhi i j2len js newj2len best).2.
Proof.
  induction js as [|j js IH]; intros newj2len best Hi1 Hi2 Hrow Hnew Hbest;
    simpl; [now split|].
  destruct (j <? blo) eqn:E1; [now apply IH|].
  destruct (bhi <=? j) eqn:E2; [now split|].
  apply Nat.ltb_ge in E1. apply Nat.leb_gt in E2.
  pose proof (j2len_prev_bounded i j2len j Hrow E1) as Ha.
  pose proof (j2len_prev_bounded_b i j2len j Hrow) as Hb.
  apply IH; try assumption.
  - intros j0 k0. rewrite lookup_insert.
    destruct (decide (j = j0)) as [<-|Hne]; [|apply Hnew].
    intros [= <-]. lia.
  - destruct (m_size best <? j2len_prev j2len j + 1); [|exact Hbest].
    unfold within; simpl. lia.
Qed.

Lemma flm_row_bounds i st :
  alo <= i -> i < ahi ->
  row_bounded alo blo i st.1 -> within alo ahi blo bhi st.2 ->
  row_bounded alo blo (S i) (flm_row a b2j blo bhi st i).1
  /\ within alo ahi blo bhi (flm_row a b2j blo bhi st i).2.
Proof.
  intros Hi1 Hi2 Hrow Hbest. unfold flm_row.
  destruct (a !! i) as [x|]; simpl.
  - apply flm_inner_bounds; try assumption. intros j k.
    rewrite lookup_empty. discriminate.
  - split; [|exact Hbest]. intros j k. rewrite lookup_empty. discriminate.
Qed.

Lemma flm_rows_bounds n : forall i st,
  alo <= i -> i + n <= ahi ->
  row_bounded alo blo i st.1 -> within alo ahi blo bhi st.2 ->
  within alo ahi blo bhi (fold_left (flm_row a b2j blo bhi) (seq i n) st).2.
Proof.
  induction n as [|n IH]; intros i st Hi1 Hi2 Hrow Hbest; simpl;
    [exact Hbest|].
  destruct (flm_row_bounds i st) as [Hr Hb]; try assumption; try lia.
  apply IH; try assumption; lia.
Qed.

Lemma flm_scan_within :
  within alo ahi blo bhi (flm_scan a b2j alo ahi blo bhi).2.
Proof.
  unfold flm_scan. apply flm_rows_bounds; simpl; try lia.
  - intros j k. rewrite lookup_empty. discriminate.
  - unfold within; simpl. lia.
Qed.

Lemma extend_back_within besti : forall bestj bestsize,
  within alo ahi blo bhi (mkMatch besti bestj bestsize) ->
  within alo ahi blo bhi (extend_back a b alo blo besti bestj bestsize).
Proof.
  induction besti as [|i' IH]; intros bestj bestsize H; simpl; [exact H|].
  destruct bestj as [|j']; [exact H|].
  destruct ((alo <? S i') && (blo <? S j') && elt_eq a b i' j') eqn:E;
    [|exact H].
  apply andb_true_iff in E as [E _]. apply andb_true_iff in E as [E1 E2].
  apply Nat.ltb_lt in E1, E2. apply IH.
  unfold within in *; simpl in *. lia.
Qed.

Lemma extend_fwd_within gap : forall besti bestj bestsize,
  within alo ahi blo bhi (mkMatch besti bestj bestsize) ->
  within alo ahi blo bhi (extend_fwd a b ahi bhi gap besti bestj bestsize).
Proof.
  induction gap as [|gap IH]; intros besti bestj bestsize H; simpl;
    [exact H|].
  destruct ((besti + bestsize <? ahi) && (bestj + bestsize <? bhi)
            && elt_eq a b (besti + bestsize) (bestj + bestsize)) eqn:E;
    [|exact H].
  apply andb_true_iff in E as [E _]. apply andb_true_iff in E as [E1 E2].
  apply Nat.ltb_lt in E1, E2. apply IH.
  unfold within in *; simpl in *. lia.
Qed.

Lemma find_longest_match_within :
  within alo ahi blo bhi (find_longest_match a b b2j alo ahi blo bhi).
Proof.
  unfold find_longest_match.
  apply extend_fwd_within.
  pose proof flm_scan_within as H.
  destruct (flm_scan a b2j alo ahi blo bhi).2 as [i j k]; simpl in *.
  pose proof (extend_back_within i j k H) as H'.
  destruct (extend_back a b alo blo i j k); exact H'.
Qed.

End FlmBounds.

(** ** SequenceMatcher: the work list terminates and blocks do not overlap *)

Lemma sum_sizes_app l1 l2 : sum_sizes (l1 ++ l2) = sum_sizes l1 + sum_sizes l2.
Proof. unfold sum_sizes. now rewrite map_app, list_sum_app. Qed.

Lemma queue_weight_cons q queue :
  queue_weight (q :: queue) = 2 * span_a q + 1 + queue_weight queue.
Proof. reflexivity. Qed.

Lemma list_sum_map_cons {A} (f : A -> nat) x l :
  list_sum (map f (x :: l)) = f x + list_sum (map f l).
Proof. reflexivity. Qed.

Lemma span_a_eq alo ahi blo bhi : span_a (alo, ahi, blo, bhi) = ahi - alo.
Proof. reflexivity. Qed.

Lemma span_b_eq alo ahi blo bhi : span_b (alo, ahi, blo, bhi) = bhi - blo.
Proof. reflexivity. Qed.

Lemma sum_sizes_snoc l x : sum_sizes (l ++ [x]) = sum_sizes l + m_size x.
Proof. rewrite sum_sizes_app. unfold sum_sizes. simpl. lia. Qed.

Ltac queue_arith :=
  rewrite ?queue_weight_cons, ?list_sum_map_cons, ?sum_sizes_snoc,
    ?span_a_eq, ?span_b_eq in *;
  lia.

Lemma gmb_loop_total a b b2j fuel : forall queue blocks,
  Forall window_ok queue ->
  queue_weight queue <= fuel ->
  exists res,
    gmb_loop a b b2j fuel queue blocks = Some res
    /\ sum_sizes res <= sum_sizes blocks + list_sum (map span_a queue)
    /\ sum_sizes res <= sum_sizes blocks + list_sum (map span_b queue).
Proof.
  induction fuel as [|fuel IH]; intros queue blocks Hq Hw.
  - destruct queue as [|q queue]; [|rewrite queue_weight_cons in Hw; lia].
    exists blocks. simpl. repeat split; lia.
  - destruct queue as [|[[[alo ahi] blo] bhi] queue].
    { exists blocks. simpl. repeat split; lia. }
    apply Forall_cons in Hq as [[Ha Hb] Hq]. simpl in Ha, Hb.
    pose proof (find_longest_match_within a b b2j alo ahi blo bhi Ha Hb)
      as (W1 & W2 & W3 & W4).
    cbn [gmb_loop].
    set (x := find_longest_match a b b2j alo ahi blo bhi) in *.
    destruct (m_size x =? 0) eqn:Ek.
    { destruct (IH queue blocks Hq) as (res & Hres & Hsa & Hsb);
        [queue_arith|].
      exists res. split; [exact Hres|]. split; queue_arith. }
    apply Nat.eqb_neq in Ek.
    destruct ((alo <? m_a x) && (blo <? m_b x)) eqn:E1;
      destruct ((m_a x + m_size x <? ahi) && (m_b x + m_size x <? bhi)) eqn:E2;
      try (apply andb_true_iff in E1 as [E1a E1b];
           apply Nat.ltb_lt in E1a, E1b);
      try (apply andb_true_iff in E2 as [E2a E2b];
           apply Nat.ltb_lt in E2a, E2b).
    + destruct (IH ((m_a x + m_size x, ahi, m_b x + m_size x, bhi)
                      :: (alo, m_a x, blo, m_b x) :: queue)
                   (blocks ++ [x])) as (res & Hres & Hsa & Hsb).
      * repeat apply Forall_cons_2; try exact Hq;
          unfold window_ok; simpl; lia.
      * queue_arith.
      * exists res. split; [exact Hres|]. split; queue_arith.
    + destruct (IH ((alo, m_a x, blo, m_b x) :: queue) (blocks ++ [x]))
        as (res & Hres & Hsa & Hsb).
      * repeat apply Forall_cons_2; try exact Hq;
          unfold window_ok; simpl; lia.
      * queue_arith.
      * exists res. split; [exact Hres|]. split; queue_arith.
    + destruct (IH ((m_a x + m_size x, ahi, m_b x + m_size x, bhi) :: queue)
                   (blocks ++ [x])) as (res & Hres & Hsa & Hsb).
      * repeat apply Forall_cons_2; try exact Hq;
          unfold window_ok; simpl; lia.
      * queue_arith.
      * exists res. split; [exact Hres|]. split; queue_arith.
    + destruct (IH queue (blocks ++ [x])) as (res & Hres & Hsa & Hsb);
        [exact Hq|queue_arith|].
      exists res. split; [exact Hres|]. split; queue_arith.
Qed.

Lemma sum_sizes_sort_insert x l :
  sum_sizes (sort_insert x l) = m_size x + sum_sizes l.
Proof.
  induction l as [|y l IH]; simpl; [reflexivity|].
  destruct (match_leb x y); [reflexivity|].
  unfold sum_sizes in *; simpl in *. lia.
Qed.

Lemma sum_sizes_sort_blocks l : sum_sizes (sort_blocks l) = sum_sizes l.
Proof.
  induction l as [|x l IH]; simpl; [reflexivity|].
  rewrite sum_sizes_sort_insert, IH. reflexivity.
Qed.

Lemma sum_sizes_non_adjacent l : forall i1 j1 k1,
  sum_sizes (non_adjacent i1 j1 k1 l) = k1 + sum_sizes l.
Proof.
  induction l as [|x l IH]; intros i1 j1 k1; simpl.
  - destruct (k1 =? 0) eqn:E; [apply Nat.eqb_eq in E; subst; reflexivity|].
    unfold sum_sizes; simpl; lia.
  - destruct ((i1 + k1 =? m_a x) && (j1 + k1 =? m_b x)).
    + rewrite IH. unfold sum_sizes; simpl; lia.
    + rewrite sum_sizes_app, IH.
      destruct (k1 =? 0) eqn:E; [apply Nat.eqb_eq in E; subst|];
        unfold sum_sizes; simpl; lia.
Qed.

(** The loop of [get_matching_blocks] always runs to the empty work list
    within [gmb_fuel], and the blocks it finds fit side by side in both
    strings. *)
Lemma get_matching_blocks_sum a b :
  exists blocks,
    gmb_loop a b (chain_b b) (gmb_fuel a) [(0, length a, 0, length b)] []
    = Some blocks
    /\ sum_sizes (get_matching_blocks a b) = sum_sizes blocks
    /\ sum_sizes blocks <= length a
    /\ sum_sizes blocks <= length b.
Proof.
  destruct (gmb_loop_total a b (chain_b b) (gmb_fuel a)
              [(0, length a, 0, length b)] [])
    as (res & Hres & Hsa & Hsb).
  - constructor; [|constructor]. unfold window_ok; simpl; lia.
  - unfold queue_weight, gmb_fuel, span_a; simpl. lia.
  - exists res. split; [exact Hres|].
    unfold get_matching_blocks. rewrite Hres.
    rewrite sum_sizes_app, sum_sizes_non_adjacent, sum_sizes_sort_blocks.
    unfold sum_sizes, span_a, span_b in *; simpl in *. repeat split; lia.
Qed.

Lemma ratio_range a b : (0 <= ratio a b <= 1)%Q.
Proof.
  unfold ratio. fold (sum_sizes (get_matching_blocks a b)).
  destruct (get_matching_blocks_sum a b) as (blocks & _ & -> & Ha & Hb).
  unfold _calculate_ratio.
  destruct (length a + length b =? 0) eqn:E; [split; discriminate|].
  apply Nat.eqb_neq in E.
  unfold Qle; simpl. rewrite !Z.mul_1_r. split; [lia|].
  rewrite <- (positive_nat_Z (Pos.of_nat _)).
  rewrite Nat2Pos.id by exact E. lia.
Qed.

(** ** SequenceMatcher: what [b2j] holds *)

Lemma chain_b_fold_lookup b : forall o m x,
  fold_left chain_b_add (zip (seq o (length b)) b) m !! x
  = match positions_from o x b with
    | [] => m !! x
    | js => Some (default [] (m !! x) ++ js)
    end.
Proof.
  induction b as [|y b IH]; intros o m x; [reflexivity|].
  cbn [length seq zip zip_with fold_left positions_from].
  rewrite IH. unfold chain_b_add; cbn [fst snd].
  destruct (N.eqb_spec x y) as [->|Hne].
  - rewrite lookup_insert_eq. cbn [app default].
    destruct (positions_from (S o) y b) as [|j js].
    + reflexivity.
    + unfold id. now rewrite <- app_assoc.
  - rewrite lookup_insert_ne by congruence. reflexivity.
Qed.

Lemma chain_b_index_lookup b x :
  chain_b_index b !! x
  = match positions_from 0 x b with [] => None | js => Some js end.
Proof.
  unfold chain_b_index. rewrite chain_b_fold_lookup, lookup_empty.
  reflexivity.
Qed.

Lemma chain_b_lookup b x js :
  chain_b b !! x = Some js -> js = positions_from 0 x b.
Proof.
  unfold chain_b. intros H.
  assert (Hidx : chain_b_index b !! x = Some js).
  { destruct (200 <=? length b); [|exact H].
    apply map_lookup_filter_Some in H. apply H. }
  rewrite chain_b_index_lookup in Hidx.
  destruct (positions_from 0 x b); congruence.
Qed.

Lemma positions_from_In b : forall o x j,
  In j (positions_from o x b) <-> o <= j /\ b !! (j - o) = Some x.
Proof.
  induction b as [|y b IH]; intros o x j; simpl.
  - split; [intros []|intros [_ H]; discriminate].
  - rewrite in_app_iff, IH. split.
    + intros [H|[H1 H2]].
      * destruct (N.eqb_spec x y) as [->|]; [|destruct H].
        destruct H as [<-|[]]. rewrite Nat.sub_diag. now split.
      * split; [lia|]. replace (j - o) with (S (j - S o)) by lia. exact H2.
    + intros [H1 H2]. destruct (decide (j = o)) as [->|Hne].
      * left. rewrite Nat.sub_diag in H2. injection H2 as ->.
        rewrite N.eqb_refl. now left.
      * right. split; [lia|].
        replace (j - o) with (S (j - S o)) in H2 by lia. exact H2.
Qed.

Lemma positions_from_sorted b : forall o x,
  StronglySorted lt (positions_from o x b).
Proof.
  induction b as [|y b IH]; intros o x; simpl; [constructor|].
  destruct (x =? y)%N; simpl; [|apply IH].
  constructor; [apply IH|].
  apply List.Forall_forall. intros j Hj.
  apply positions_from_In in Hj. lia.
Qed.

(** ** SequenceMatcher: a sequence matched against itself *)

Section SelfMatch.

Variable a : pystr.
Variable b2j : gmap N (list nat).
Hypothesis Hb2j :
  forall x js, b2j !! x = Some js -> js = positions_from 0 x a.

Lemma run_eq i :
  run a b2j i = if indexed a b2j i then S (prev_run a b2j i) else 0.
Proof. destruct i; reflexivity. Qed.

Lemma j2len_prev_le i j2len j :
  row_diag a b2j i j2len ->
  j2len_prev j2len j <= prev_run a b2j j
  /\ j2len_prev j2len j <= prev_run a b2j i.
Proof.
  intros [Hrow _]. destruct j as [|j']; simpl; [lia|].
  destruct (j2len !! j') as [k|] eqn:E; simpl; [|lia].
  apply (Hrow _ _ E).
Qed.

Lemma flm_inner_self i x j2len :
  a !! i = Some x -> is_Some (b2j !! x) -> row_diag a b2j i j2len ->
  forall todo newj2len best,
    StronglySorted lt todo ->
    (forall j, In j todo -> a !! j = Some x) ->
    best_diag a b2j i best ->
    (forall j k, newj2len !! j = Some k ->
                 k <= run a b2j j /\ k <= run a b2j i) ->
    (In i todo
     \/ ((newj2len !! i = Some (run a b2j i) /\ run a b2j i <= m_size best)
         /\ forall j, In j todo -> i < j)) ->
    best_diag a b2j (S i) (flm_inner 0 (length a) i j2len todo newj2len best).2
    /\ row_diag a b2j (S i)
         (flm_inner 0 (length a) i j2len todo newj2len best).1.
Proof.
  intros Hi [js0 Hx] Hrow.
  assert (Hrun : forall j, a !! j = Some x ->
                 run a b2j j = S (prev_run a b2j j)).
  { intros j Hj. rewrite run_eq. unfold indexed. now rewrite Hj, Hx. }
  induction todo as [|j todo IH];
    intros newj2len best Hs Hall Hbest Hnew Hprog.
  - simpl. destruct Hprog as [[]|[[Hni Hri] _]].
    destruct Hbest as [Hd Hb]. split; [split; [exact Hd|]|split].
    + intros i' Hi'. destruct (decide (i' = i)) as [->|]; [exact Hri|].
      apply Hb. lia.
    + exact Hnew.
    + simpl. now rewrite Hni.
  - assert (Hj : a !! j = Some x) by (apply Hall; now left).
    pose proof (lookup_lt_Some _ _ _ Hj) as Hjlt.
    cbn [flm_inner]. change (j <? 0) with false. cbv iota.
    replace (length a <=? j) with false
      by (symmetry; apply Nat.leb_gt; exact Hjlt).
    pose proof (j2len_prev_le i j2len j Hrow) as [Kj Ki].
    pose proof (Hrun j Hj) as Rj. pose proof (Hrun i Hi) as Ri.
    inversion Hs as [|? ? Hs' Hlt]; subst.
    pose proof (proj1 (List.Forall_forall _ _) Hlt) as Hlt'.
    assert (Hall' : forall j', In j' todo -> a !! j' = Some x)
      by (intros j' Hj'; apply Hall; now right).
    destruct Hbest as [Hd Hb].
    assert (Hcase : j = i \/ (In i todo /\ j < i)
                    \/ ((newj2len !! i = Some (run a b2j i)
                         /\ run a b2j i <= m_size best) /\ i < j)).
    { destruct Hprog as [[->|Hin]|[Hp Hgt]].
      - now left.
      - right; left. split; [exact Hin|]. apply Hlt', Hin.
      - right; right. split; [exact Hp|]. apply Hgt. now left. }
    destruct Hcase as [->|[[Hin Hji]|[[Hni Hri] Hij]]].
    + (* the diagonal cell *)
      assert (Hk : j2len_prev j2len i + 1 = run a b2j i).
      { destruct Hrow as [_ Hprev]. rewrite Hprev, Ri. lia. }
      rewrite Hk. apply IH; try assumption.
      * destruct (m_size best <? run a b2j i) eqn:E.
        -- split; [reflexivity|]. simpl. intros i' Hi'.
           apply Nat.ltb_lt in E. specialize (Hb i' Hi'). lia.
        -- split; assumption.
      * intros j0 k0. rewrite lookup_insert.
        destruct (decide (i = j0)) as [<-|]; [|apply Hnew].
        intros [= <-]. lia.
      * right. split; [split|].
        -- apply lookup_insert_eq.
        -- destruct (m_size best <? run a b2j i) eqn:E; simpl; [lia|].
           now apply Nat.ltb_ge in E.
        -- exact Hlt'.
    + (* left of the diagonal: the run was seen on row [j] already *)
      replace (m_size best <? j2len_prev j2len j + 1) with false
        by (symmetry; apply Nat.ltb_ge; specialize (Hb j Hji); lia).
      apply IH; try assumption.
      * now split.
      * intros j0 k0. rewrite lookup_insert.
        destruct (decide (j = j0)) as [<-|]; [|apply Hnew].
        intros [= <-]. lia.
      * now left.
    + (* right of the diagonal: the diagonal cell came first *)
      replace (m_size best <? j2len_prev j2len j + 1) with false
        by (symmetry; apply Nat.ltb_ge; lia).
      apply IH; try assumption.
      * now split.
      * intros j0 k0. rewrite lookup_insert.
        destruct (decide (j = j0)) as [<-|]; [|apply Hnew].
        intros [= <-]. lia.
      * right. split; [split; [|exact Hri]|].
        -- rewrite lookup_insert_ne by lia. exact Hni.
        -- intros j' Hj'. specialize (Hlt' j' Hj'). lia.
Qed.

Lemma flm_row_self i st :
  i < length a ->
  row_diag a b2j i st.1 -> best_diag a b2j i st.2 ->
  row_diag a b2j (S i) (flm_row a b2j 0 (length a) st i).1
  /\ best_diag a b2j (S i) (flm_row a b2j 0 (length a) st i).2.
Proof.
  intros Hi Hrow Hbest. unfold flm_row.
  destruct (lookup_lt_is_Some_2 a i Hi) as [x Hx]. rewrite Hx.
  destruct (b2j !! x) as [js|] eqn:Hjs; simpl.
  - pose proof (Hb2j x js Hjs) as ->.
    destruct (flm_inner_self i x st.1 Hx (ltac:(rewrite Hjs; eauto)) Hrow
                (positions_from 0 x a) ∅ st.2) as [H1 H2].
    + apply positions_from_sorted.
    + intros j Hj. apply positions_from_In in Hj as [_ Hj].
      now rewrite Nat.sub_0_r in Hj.
    + exact Hbest.
    + intros j k. rewrite lookup_empty. discriminate.
    + left. apply positions_from_In. split; [lia|].
      now rewrite Nat.sub_0_r.
    + now split.
  - assert (R : run a b2j i = 0).
    { rewrite run_eq. unfold indexed. now rewrite Hx, Hjs. }
    split; [split|].
    + intros j k. rewrite lookup_empty. discriminate.
    + simpl. rewrite lookup_empty. simpl. now rewrite R.
    + destruct Hbest as [Hd Hb]. split; [exact Hd|].
      intros i' Hi'. destruct (decide (i' = i)) as [->|]; [lia|].
      apply Hb. lia.
Qed.

Lemma flm_rows_self n : forall i st,
  i + n <= length a ->
  row_diag a b2j i st.1 -> best_diag a b2j i st.2 ->
  best_diag a b2j (i + n)
    (fold_left (flm_row a b2j 0 (length a)) (seq i n) st).2.
Proof.
  induction n as [|n IH]; intros i st Hn Hrow Hbest; simpl.
  - now rewrite Nat.add_0_r.
  - destruct (flm_row_self i st) as [Hr Hb]; try assumption; [lia|].
    replace (i + S n) with (S i + n) by lia. apply IH; [lia|assumption..].
Qed.

Lemma flm_scan_self :
  m_a (flm_scan a b2j 0 (length a) 0 (length a)).2
  = m_b (flm_scan a b2j 0 (length a) 0 (length a)).2.
Proof.
  unfold flm_scan. rewrite Nat.sub_0_r.
  apply (flm_rows_self (length a) 0 (∅, mkMatch 0 0 0)); simpl.
  - lia.
  - split; [|reflexivity]. intros j k. rewrite lookup_empty. discriminate.
  - split; [reflexivity|]. intros i' Hi'. lia.
Qed.

End SelfMatch.

Lemma elt_eq_refl a i : i < length a -> elt_eq a a i i = true.
Proof.
  intros Hi. unfold elt_eq.
  destruct (lookup_lt_is_Some_2 a i Hi) as [x ->]. apply N.eqb_refl.
Qed.

Lemma extend_back_self a d : forall s,
  d <= length a ->
  extend_back a a 0 0 d d s = mkMatch 0 0 (d + s).
Proof.
  induction d as [|d IH]; intros s Hd; simpl; [reflexivity|].
  rewrite elt_eq_refl by lia. simpl. rewrite IH by lia. f_equal. lia.
Qed.

Lemma extend_fwd_self a gap : forall s,
  s + gap = length a ->
  extend_fwd a a (length a) (length a) gap 0 0 s = mkMatch 0 0 (length a).
Proof.
  induction gap as [|gap IH]; intros s Hs; simpl.
  - f_equal. lia.
  - replace (s <? length a) with true by (symmetry; apply Nat.ltb_lt; lia).
    rewrite elt_eq_refl by lia. simpl. apply IH. lia.
Qed.

Lemma find_longest_match_self a :
  find_longest_match a a (chain_b a) 0 (length a) 0 (length a)
  = mkMatch 0 0 (length a).
Proof.
  unfold find_longest_match.
  pose proof (flm_scan_self a (chain_b a) (chain_b_lookup a)) as Hd.
  pose proof (flm_scan_within a (chain_b a) 0 (length a) 0 (length a)
                (Nat.le_0_l _) (Nat.le_0_l _)) as (_ & Hw & _ & _).
  destruct (flm_scan a (chain_b a) 0 (length a) 0 (length a)).2
    as [d d' s]; simpl in *. subst d'.
  rewrite extend_back_self by lia. simpl.
  apply extend_fwd_self. lia.
Qed.

Lemma ratio_self a : (ratio a a == 1)%Q.
Proof.
  unfold ratio. fold (sum_sizes (get_matching_blocks a a)).
  destruct (get_matching_blocks_sum a a) as (blocks & Hloop & -> & _ & _).
  unfold gmb_fuel in Hloop.
  replace (2 * length a + 1) with (S (2 * length a)) in Hloop by lia.
  cbn [gmb_loop] in Hloop. rewrite find_longest_match_self in Hloop.
  cbn [m_a m_b m_size] in Hloop.
  unfold _calculate_ratio.
  destruct (length a) as [|n] eqn:En.
  - reflexivity.
  - change (S n =? 0) with false in Hloop. cbv iota in Hloop.
    rewrite Nat.ltb_irrefl in Hloop. cbn [andb] in Hloop.
    replace (0 + S n <? S n) with false in Hloop
      by (symmetry; apply Nat.ltb_ge; lia).
    cbn [andb] in Hloop.
    assert (Hb : blocks = [mkMatch 0 0 (S n)]).
    { destruct (2 * S n) in Hloop; simpl in Hloop; congruence. }
    subst blocks. unfold sum_sizes. cbn [map list_sum m_size fold_right].
    change (S n + S n =? 0) with false. cbv iota.
    unfold Qeq. cbn [Qnum Qden]. rewrite Z.mul_1_r, Z.mul_1_l.
    rewrite <- (positive_nat_Z (Pos.of_nat _)), Nat2Pos.id by lia. lia.
Qed.

(** ** Similarity: properties *)

(** C3, as stated, fails: the Gestalt ratio depends on the order of its
    arguments.  "tide" against "diet" scores 0.25, "diet" against "tide"
    scores 0.5. *)
Lemma calculate_similarity_not_symmetric :
  ~ (calculate_similarity latin1_table (fun c => [c]) (py "tide") (py "diet")
     == calculate_similarity latin1_table (fun c => [c])
          (py "diet") (py "tide"))%Q.
Proof. vm_compute. discriminate. Qed.

(** C3 (amended). For every non-empty string [a],
    [calculate_similarity(a, a) == 1.0]; for every string [x],
    [calculate_similarity("", x) == 0.0] and
    [calculate_similarity(x, "") == 0.0]; every returned value lies in
    [0, 1].  (Symmetry is not claimed.) *)
Theorem calculate_similarity_reflexive_and_bounded :
  forall (tbl low : N -> pystr),
    (forall a, a <> [] -> (calculate_similarity tbl low a a == 1)%Q)
    /\ (forall x, calculate_similarity tbl low [] x = 0%Q)
    /\ (forall x, calculate_similarity tbl low x [] = 0%Q)
    /\ (forall a b, (0 <= calculate_similarity tbl low a b <= 1)%Q).
Proof.
  intros tbl low. repeat split.
  - intros [|c a] Ha; [congruence|]. cbn [calculate_similarity].
    apply ratio_self.
  - intros [|c x]; reflexivity.
  - destruct a as [|c a]; [discriminate|].
    destruct b as [|d b]; [discriminate|]. apply ratio_range.
  - destruct a as [|c a]; [discriminate|].
    destruct b as [|d b]; [discriminate|]. apply ratio_range.
Qed.

Lemma calculate_similarity_reflexive_and_bounded_witness :
  (calculate_similarity latin1_table (fun c => [c])
     (py "The Matrix") (py "The Matrix") == 1)%Q.
Proof.
  apply (calculate_similarity_reflexive_and_bounded latin1_table
           (fun c => [c])).
  discriminate.
Defined.

(** ** Edit distance: the recurrence the table implements *)

Lemma lev_nil_r s : lev s [] = length s.
Proof. destruct s; reflexivity. Qed.

Lemma lev_cons_cons a s b t :
  lev (a :: s) (b :: t)
  = Nat.min (lev s (b :: t) + 1)
            (Nat.min (lev (a :: s) t + 1) (lev s t + sub_cost a b)).
Proof. reflexivity. Qed.

Lemma lev_del a s t : lev (a :: s) t <= S (lev s t).
Proof.
  destruct t as [|b t]; [rewrite !lev_nil_r; simpl; lia|].
  rewrite lev_cons_cons. lia.
Qed.

Lemma lev_ins b s t : lev s (b :: t) <= S (lev s t).
Proof.
  destruct s as [|a s]; [simpl; lia|].
  rewrite lev_cons_cons. lia.
Qed.

Lemma lev_sub a b s t : lev (a :: s) (b :: t) <= lev s t + sub_cost a b.
Proof. rewrite lev_cons_cons. lia. Qed.

Lemma lev_lower s : forall t,
  length s <= lev s t + length t /\ length t <= lev s t + length s.
Proof.
  induction s as [|a s IHs]; intros t; [simpl; lia|].
  induction t as [|b t IHt]; [rewrite lev_nil_r; simpl; lia|].
  rewrite lev_cons_cons.
  pose proof (IHs (b :: t)). pose proof (IHs t).
  simpl length in *. lia.
Qed.

Lemma lev_upper s t : lev s t <= length s + length t.
Proof.
  induction s as [|a s IH]; [simpl; lia|].
  pose proof (lev_del a s t). simpl length. lia.
Qed.

Lemma sub_cost_triangle a b c : sub_cost a c <= sub_cost a b + sub_cost b c.
Proof.
  unfold sub_cost.
  destruct (N.eqb_spec a c), (N.eqb_spec a b), (N.eqb_spec b c);
    try lia; congruence.
Qed.

Lemma lev_triangle_sized n : forall s t u,
  length s + length t + length u <= n ->
  lev s u <= lev s t + lev t u.
Proof.
  induction n as [|n IH]; intros s t u Hn.
  - destruct s, t, u; simpl in Hn; try lia.
  - destruct s as [|a s].
    { pose proof (lev_lower t u). simpl. lia. }
    destruct u as [|c u].
    { pose proof (lev_lower (a :: s) t). rewrite !lev_nil_r. lia. }
    destruct t as [|b t].
    { pose proof (lev_upper (a :: s) (c :: u)).
      rewrite lev_nil_r. simpl lev at 2. simpl length in *. lia. }
    simpl in Hn.
    pose proof (IH s (b :: t) (c :: u)) as I1.
    pose proof (IH (a :: s) t (c :: u)) as I2.
    pose proof (IH (a :: s) (b :: t) u) as I3.
    pose proof (IH (a :: s) t u) as I4.
    pose proof (IH s t (c :: u)) as I5.
    pose proof (IH s t u) as I6.
    simpl length in *.
    specialize (I1 ltac:(lia)). specialize (I2 ltac:(lia)).
    specialize (I3 ltac:(lia)). specialize (I4 ltac:(lia)).
    specialize (I5 ltac:(lia)). specialize (I6 ltac:(lia)).
    pose proof (lev_del a s (c :: u)).
    pose proof (lev_ins c (a :: s) u).
    pose proof (lev_sub a c s u).
    pose proof (sub_cost_triangle a b c).
    pose proof (lev_cons_cons a s b t).
    pose proof (lev_cons_cons b t c u).
    lia.
Qed.

Lemma lev_triangle s t u : lev s u <= lev s t + lev t u.
Proof. now apply (lev_triangle_sized (length s + length t + length u)). Qed.

Lemma lev_refl s : lev s s = 0.
Proof.
  induction s as [|a s IH]; [reflexivity|].
  rewrite lev_cons_cons, IH. unfold sub_cost. rewrite N.eqb_refl. lia.
Qed.

Lemma lev_zero s : forall t, lev s t = 0 -> s = t.
Proof.
  induction s as [|a s IH]; intros t H.
  - destruct t; [reflexivity|discriminate].
  - destruct t as [|b t]; [discriminate|].
    rewrite lev_cons_cons in H.
    assert (Hs : lev s t = 0 /\ sub_cost a b = 0) by lia.
    destruct Hs as [Hs Hc]. rewrite (IH t Hs).
    unfold sub_cost in Hc. destruct (N.eqb_spec a b); [congruence|lia].
Qed.

(** ** Edit distance: the table holds the distances of the prefixes *)

Lemma fold_seq_inv {A} (f : A -> nat -> A) (P : nat -> A -> Prop) n :
  forall a x,
    P a x ->
    (forall k y, a <= k < a + n -> P k y -> P (S k) (f y k)) ->
    P (a + n) (fold_left f (seq a n) x).
Proof.
  induction n as [|n IH]; intros a x Hx Hstep; simpl.
  - now rewrite Nat.add_0_r.
  - replace (a + S n) with (S a + n) by lia. apply IH.
    + apply Hstep; [lia|exact Hx].
    + intros k y Hk. apply Hstep. lia.
Qed.

Section LevTable.

Variables s1 s2 : pystr.

Lemma dist_set_shape dist i j v :
  table_shape s1 s2 dist -> table_shape s1 s2 (dist_set dist i j v).
Proof.
  intros [Hl Hr]. unfold dist_set.
  destruct (dist !! i) as [row|] eqn:E; [|now split].
  split; [now rewrite length_insert|].
  apply Forall_insert; [exact Hr|]. rewrite length_insert.
  eapply (proj1 (Forall_lookup _ _) Hr), E.
Qed.

Lemma dist_get_set dist i j v i' j' :
  table_shape s1 s2 dist -> i <= length s1 -> j <= length s2 ->
  dist_get (dist_set dist i j v) i' j'
  = if decide (i = i' /\ j = j') then v else dist_get dist i' j'.
Proof.
  intros [Hl Hr] Hi Hj. unfold dist_set, dist_get.
  destruct (lookup_lt_is_Some_2 dist i ltac:(lia)) as [row Hrow].
  rewrite Hrow.
  assert (Hlen : length row = length s2 + 1)
    by (eapply (proj1 (Forall_lookup _ _) Hr), Hrow).
  destruct (decide (i = i')) as [<-|Hne].
  - rewrite list_lookup_insert_eq by lia.
    destruct (decide (j = j')) as [<-|Hne'].
    + rewrite list_lookup_insert_eq by lia.
      now rewrite decide_True by auto.
    + rewrite list_lookup_insert_ne by exact Hne'.
      rewrite decide_False by (intros [_ ?]; contradiction).
      now rewrite Hrow.
  - rewrite list_lookup_insert_ne by exact Hne.
    now rewrite decide_False by (intros [? _]; contradiction).
Qed.

Lemma prefix_lev_0_l j : j <= length s2 -> prefix_lev s1 s2 0 j = Z.of_nat j.
Proof.
  intros Hj. unfold prefix_lev. simpl.
  rewrite length_rev, length_take. f_equal. lia.
Qed.

Lemma prefix_lev_0_r i : i <= length s1 -> prefix_lev s1 s2 i 0 = Z.of_nat i.
Proof.
  intros Hi. unfold prefix_lev. simpl. rewrite lev_nil_r.
  rewrite length_rev, length_take. f_equal. lia.
Qed.

Lemma prefix_lev_step i j :
  1 <= i <= length s1 -> 1 <= j <= length s2 ->
  prefix_lev s1 s2 i j
  = min3 (prefix_lev s1 s2 (i - 1) j + 1)
         (prefix_lev s1 s2 i (j - 1) + 1)
         (prefix_lev s1 s2 (i - 1) (j - 1)
          + (if (nth (i - 1) s1 0 =? nth (j - 1) s2 0)%N then 0 else 1))%Z.
Proof.
  intros Hi Hj. destruct i as [|i]; [lia|]. destruct j as [|j]; [lia|].
  replace (S i - 1) with i by lia. replace (S j - 1) with j by lia.
  destruct (lookup_lt_is_Some_2 s1 i ltac:(lia)) as [x Hx].
  destruct (lookup_lt_is_Some_2 s2 j ltac:(lia)) as [y Hy].
  unfold prefix_lev, min3.
  rewrite (take_S_r s1 i x Hx), (take_S_r s2 j y Hy), !rev_unit.
  rewrite lev_cons_cons, !Nat2Z.inj_min, !Nat2Z.inj_add.
  rewrite !nth_lookup, Hx, Hy. simpl.
  unfold sub_cost. destruct (x =? y)%N; reflexivity.
Qed.

Lemma lev_border_filled :
  table_shape s1 s2 (lev_border s1 s2) /\ filled s1 s2 0 0 (lev_border s1 s2).
Proof.
  set (d0 := replicate (length s1 + 1) (replicate (length s2 + 1) 0%Z)).
  assert (H0 : table_shape s1 s2 d0
               /\ forall i j, i <= length s1 -> j <= length s2 ->
                              dist_get d0 i j = 0%Z).
  { split; [split|].
    - apply length_replicate.
    - apply Forall_forall. intros row Hrow.
      apply elem_of_replicate in Hrow as [-> _].
      apply length_replicate.
    - intros i j Hi Hj. unfold dist_get, d0.
      rewrite lookup_replicate_2 by lia.
      simpl. now rewrite lookup_replicate_2 by lia. }
  set (d1 := fold_left (fun d i => dist_set d i 0 (Z.of_nat i))
               (seq 1 (length s1 + 1 - 1)) d0).
  assert (H1 : table_shape s1 s2 d1
               /\ forall i j, i <= length s1 -> j <= length s2 ->
                    dist_get d1 i j = if decide (j = 0) then Z.of_nat i
                                      else 0%Z).
  { pose proof (fold_seq_inv (fun d i => dist_set d i 0 (Z.of_nat i))
      (fun k d => table_shape s1 s2 d
         /\ forall i j, i <= length s1 -> j <= length s2 ->
              dist_get d i j
              = if decide (j = 0 /\ i < k) then Z.of_nat i else 0%Z)
      (length s1 + 1 - 1) 1 d0) as H.
    destruct H as [Hs Hg].
    - destruct H0 as [Hs Hg]. split; [exact Hs|]. intros i j Hi Hj.
      rewrite Hg by assumption.
      destruct (decide (j = 0 /\ i < 1)) as [[-> ?]|]; [|reflexivity].
      f_equal. lia.
    - intros k d Hk [Hs Hg]. split; [now apply dist_set_shape|].
      intros i j Hi Hj. rewrite dist_get_set by (assumption || lia).
      rewrite Hg by assumption.
      destruct (decide (k = i /\ 0 = j)) as [[-> <-]|Hne].
      + now rewrite decide_True by (split; [reflexivity|lia]).
      + destruct (decide (j = 0 /\ i < k)) as [[-> ?]|].
        * now rewrite decide_True by (split; [reflexivity|lia]).
        * rewrite decide_False; [reflexivity|]. intros [-> ?].
          destruct (decide (i = k)); [subst; now apply Hne|].
          apply n. split; [reflexivity|lia].
    - split; [exact Hs|]. intros i j Hi Hj. rewrite Hg by assumption.
      destruct (decide (j = 0)) as [->|].
      + now rewrite decide_True by (split; [reflexivity|lia]).
      + now rewrite decide_False by (intros [? _]; contradiction). }
  pose proof (fold_seq_inv (fun d j => dist_set d 0 j (Z.of_nat j))
      (fun k d => table_shape s1 s2 d
         /\ forall i j, i <= length s1 -> j <= length s2 ->
              dist_get d i j
              = if decide (j = 0) then Z.of_nat i
                else if decide (i = 0 /\ j < k) then Z.of_nat j else 0%Z)
      (length s2 + 1 - 1) 1 d1) as H.
  destruct H as [Hs Hg].
  - destruct H1 as [Hs Hg]. split; [exact Hs|]. intros i j Hi Hj.
    rewrite Hg by assumption. destruct (decide (j = 0)); [reflexivity|].
    now rewrite decide_False by lia.
  - intros k d Hk [Hs Hg]. split; [now apply dist_set_shape|].
    intros i j Hi Hj. rewrite dist_get_set by (assumption || lia).
    rewrite Hg by assumption.
    destruct (decide (0 = i /\ k = j)) as [[<- <-]|Hne].
    + rewrite decide_False by lia.
      now rewrite decide_True by (split; [reflexivity|lia]).
    + destruct (decide (j = 0)); [reflexivity|].
      destruct (decide (i = 0 /\ j < k)) as [[-> ?]|].
      * now rewrite decide_True by (split; [reflexivity|lia]).
      * rewrite decide_False; [reflexivity|]. intros [-> ?].
        destruct (decide (j = k)); [subst; now apply Hne|].
        apply n0. split; [reflexivity|lia].
  - split; [exact Hs|]. intros i j Hi Hj Hb.
    change (dist_get (lev_border s1 s2) i j) with
      (dist_get (fold_left (fun d j => dist_set d 0 j (Z.of_nat j))
                   (seq 1 (length s2 + 1 - 1)) d1) i j).
    rewrite Hg by assumption.
    destruct (decide (j = 0)) as [->|Hj0].
    + now rewrite prefix_lev_0_r.
    + assert (i = 0) as -> by lia.
      rewrite decide_True by (split; [reflexivity|lia]).
      now rewrite prefix_lev_0_l.
Qed.

Lemma lev_cell_filled i j dist :
  1 <= i <= length s1 -> 1 <= j <= length s2 ->
  table_shape s1 s2 dist -> filled s1 s2 i j dist ->
  table_shape s1 s2 (lev_cell s1 s2 i dist j)
  /\ filled s1 s2 i (S j) (lev_cell s1 s2 i dist j).
Proof.
  intros Hi Hj Hs Hf. unfold lev_cell.
  split; [now apply dist_set_shape|].
  intros i' j' Hi' Hj' Hcell.
  rewrite dist_get_set by (assumption || lia).
  destruct (decide (i = i' /\ j = j')) as [[<- <-]|Hne].
  - rewrite (prefix_lev_step i j Hi Hj).
    rewrite !Hf by lia. reflexivity.
  - apply Hf; [assumption..|]. lia.
Qed.

Lemma lev_row_filled i dist :
  1 <= i <= length s1 ->
  table_shape s1 s2 dist -> filled s1 s2 i 0 dist ->
  table_shape s1 s2 (lev_row s1 s2 (length s2 + 1) dist i)
  /\ filled s1 s2 (S i) 0 (lev_row s1 s2 (length s2 + 1) dist i).
Proof.
  intros Hi Hs Hf. unfold lev_row.
  pose proof (fold_seq_inv (lev_cell s1 s2 i)
                (fun j d => table_shape s1 s2 d /\ filled s1 s2 i j d)
                (length s2 + 1 - 1) 1 dist) as H.
  destruct H as [Hs' Hf'].
  - split; [exact Hs|]. intros i' j' Hi' Hj' Hc. apply Hf; [assumption..|].
    lia.
  - intros j d Hj [Hds Hdf]. apply lev_cell_filled; [assumption|lia|..];
      assumption.
  - split; [exact Hs'|]. intros i' j' Hi' Hj' Hc.
    apply Hf'; [assumption..|]. lia.
Qed.

Lemma lev_table_filled :
  table_shape s1 s2 (lev_table s1 s2)
  /\ filled s1 s2 (length s1 + 1) 0 (lev_table s1 s2).
Proof.
  unfold lev_table. cbv zeta. fold (lev_border s1 s2).
  pose proof (fold_seq_inv (lev_row s1 s2 (length s2 + 1))
                (fun i d => table_shape s1 s2 d /\ filled s1 s2 i 0 d)
                (length s1 + 1 - 1) 1 (lev_border s1 s2)) as H.
  replace (1 + (length s1 + 1 - 1)) with (length s1 + 1) in H by lia.
  apply H.
  - destruct lev_border_filled as [Hs Hf]. split; [exact Hs|].
    intros i' j' Hi' Hj' Hc. apply Hf; [assumption..|]. lia.
  - intros i d Hi [Hs Hf]. apply lev_row_filled; [lia|assumption..].
Qed.

Lemma dist_last_lev_table :
  dist_last (lev_table s1 s2) = Z.of_nat (lev (rev s1) (rev s2)).
Proof.
  destruct lev_table_filled as [[Hl Hr] Hf].
  assert (Hget : dist_last (lev_table s1 s2)
                 = dist_get (lev_table s1 s2) (length s1) (length s2)).
  { unfold dist_last, dist_get. rewrite last_lookup, Hl.
    replace (Nat.pred (length s1 + 1)) with (length s1) by lia.
    destruct (lookup_lt_is_Some_2 (lev_table s1 s2) (length s1) ltac:(lia))
      as [row Hrow].
    rewrite Hrow. simpl. rewrite last_lookup.
    rewrite (proj1 (Forall_lookup _ _) Hr _ _ Hrow).
    now replace (Nat.pred (length s2 + 1)) with (length s2) by lia. }
  rewrite Hget, Hf by lia. unfold prefix_lev.
  now rewrite !take_ge by lia.
Qed.

End LevTable.

(** On two non-empty arguments the function is the edit distance of the
    normalized strings. *)
Lemma levenshtein_distance_nonempty tbl low a b :
  a <> [] -> b <> [] ->
  levenshtein_distance tbl low a b
  = Z.of_nat (lev (rev (normalize_text tbl low (Some a)))
                  (rev (normalize_text tbl low (Some b)))).
Proof.
  intros Ha Hb. destruct a as [|x a]; [congruence|].
  destruct b as [|y b]; [congruence|].
  cbn [levenshtein_distance]. apply dist_last_lev_table.
Qed.

(** What does hold of [levenshtein_distance]: it is never negative, and on
    non-empty arguments it is zero exactly when the normalized forms agree
    and it obeys the triangle inequality. *)
Theorem levenshtein_distance_metric_on_nonempty :
  forall (tbl low : N -> pystr),
    (forall a b, (0 <= levenshtein_distance tbl low a b)%Z)
    /\ (forall a b, a <> [] -> b <> [] ->
          (levenshtein_distance tbl low a b = 0%Z
           <-> normalize_text tbl low (Some a)
               = normalize_text tbl low (Some b)))
    /\ (forall a b c, a <> [] -> b <> [] -> c <> [] ->
          (levenshtein_distance tbl low a c
           <= levenshtein_distance tbl low a b
              + levenshtein_distance tbl low b c)%Z).
Proof.
  intros tbl low. split; [|split].
  - intros a b. destruct a as [|x a]; [simpl; lia|].
    destruct b as [|y b]; [simpl; lia|].
    rewrite levenshtein_distance_nonempty by discriminate. lia.
  - intros a b Ha Hb. rewrite levenshtein_distance_nonempty by assumption.
    split.
    + intros H. apply rev_inj, lev_zero. lia.
    + intros ->. now rewrite lev_refl.
  - intros a b c Ha Hb Hc.
    rewrite !levenshtein_distance_nonempty by assumption.
    pose proof (lev_triangle (rev (normalize_text tbl low (Some a)))
                  (rev (normalize_text tbl low (Some b)))
                  (rev (normalize_text tbl low (Some c)))).
    lia.
Qed.

(** ** Edit distance: the empty-argument guard *)

(** C1 fails at an empty argument.  The two guards return the length of
    the other argument as given, before any normalization: the distance
    from "" to " " is 1 although both normalize to "", and the distance
    from "" to "  x  " is 5 although "" is at distance 1 from "x" and "x" at
    distance 0 from "  x  ". *)
Theorem levenshtein_distance_guard_skips_normalization :
  forall (tbl low : N -> pystr),
    levenshtein_distance tbl low [] (py " ") = 1%Z
    /\ normalize_text tbl low (Some []) = normalize_text tbl low (Some (py " "))
    /\ levenshtein_distance tbl low (py " ") (py "  ") = 0%Z
    /\ levenshtein_distance tbl low [] (py "  x  ") = 5%Z
    /\ levenshtein_distance tbl low [] (py "x") = 1%Z
    /\ levenshtein_distance tbl low (py "x") (py "  x  ") = 0%Z.
Proof. intros tbl low. repeat split; vm_compute; reflexivity. Qed.

(** ** Listing extraction: properties *)

Section ScraperProps.

Variable urljoin : pystr -> pystr -> outcome pystr.
Variable quote : pystr -> pystr.
Variable select_page : pystr -> outcome (list element).

Lemma parse_movie_item_None e :
  well_formed e = false -> _parse_movie_item urljoin e = None.
Proof.
  unfold well_formed, _parse_movie_item.
  destruct (sel_title e), (sel_link e); congruence.
Qed.

Lemma parse_movie_item_unresolved e :
  resolves urljoin e = false -> _parse_movie_item urljoin e = None.
Proof.
  unfold resolves, href_of, _parse_movie_item, base_url.
  destruct (sel_title e), (sel_link e) as [link|]; try reflexivity.
  destruct (startswith _ _); [discriminate|]. simpl.
  destruct (urljoin _ _); [discriminate|reflexivity].
Qed.

Lemma parse_movie_item_Some e :
  extractable urljoin e = true ->
  exists d, _parse_movie_item urljoin e = Some (PyDict d) /\ d <> [].
Proof.
  unfold extractable, well_formed, resolves, href_of, _parse_movie_item,
    base_url.
  destruct (sel_title e), (sel_link e) as [link|]; try discriminate.
  simpl. destruct (startswith _ _); simpl.
  - intros _. eexists. split; [reflexivity|discriminate].
  - destruct (urljoin _ _); [|discriminate].
    intros _. eexists. split; [reflexivity|discriminate].
Qed.

Lemma parse_movie_item_not_extractable e :
  extractable urljoin e = false -> _parse_movie_item urljoin e = None.
Proof.
  unfold extractable. intros H. apply andb_false_iff in H as [H|H].
  - now apply parse_movie_item_None.
  - now apply parse_movie_item_unresolved.
Qed.

Lemma collect_movie_loop l : forall movies,
  exists found,
    fold_left (collect_movie urljoin) l movies = movies ++ found
    /\ Forall2 (fun e m => _parse_movie_item urljoin e = Some m)
         (List.filter (extractable urljoin) l) found.
Proof.
  induction l as [|e l IH]; intros movies; simpl.
  - exists []. split; [now rewrite app_nil_r|constructor].
  - unfold collect_movie at 2. destruct (extractable urljoin e) eqn:W.
    + destruct (parse_movie_item_Some e W) as (d & Hd & Hne).
      rewrite Hd. destruct d as [|kv d]; [congruence|]. simpl.
      destruct (IH (movies ++ [PyDict (kv :: d)])) as (found & Hf & H2).
      exists (PyDict (kv :: d) :: found). split.
      * rewrite Hf. now rewrite <- app_assoc.
      * now constructor.
    + rewrite (parse_movie_item_not_extractable e W). apply IH.
Qed.

Lemma search_movies_found query limit items :
  select_page (CUEVANA_PRO_URL ++ py "?s=" ++ quote query) = Returned items ->
  Forall2 (fun e m => _parse_movie_item urljoin e = Some m)
    (List.filter (extractable urljoin) (slice_to limit items))
    (search_movies urljoin quote select_page query limit).
Proof.
  intros Hpage. unfold search_movies, base_url. rewrite Hpage.
  destruct (collect_movie_loop (slice_to limit items) []) as (found & -> & H).
  exact H.
Qed.

Lemma slice_to_all {A} (limit : Z) (l : list A) :
  (Z.of_nat (length l) <= limit)%Z -> slice_to limit l = l.
Proof.
  intros H. unfold slice_to.
  replace (0 <=? limit)%Z with true by (symmetry; apply Z.leb_le; lia).
  apply take_ge. lia.
Qed.

Lemma has_title_and_link_well_formed e :
  has_title_and_link e = true -> well_formed e = true.
Proof.
  unfold has_title_and_link, well_formed, href_of.
  destruct (sel_title e); [|discriminate].
  destruct (sel_link e); [reflexivity|]. simpl.
  now rewrite andb_false_r.
Qed.

(** On a page where every item either lacks a node or has a title and a
    link, the items with both nodes are those with a title and a link. *)
Lemma filter_extractable_whole l :
  Forall (fun e => well_formed e = false \/ has_title_and_link e = true) l ->
  List.filter (extractable urljoin) l
  = List.filter (fun e => has_title_and_link e && resolves urljoin e) l.
Proof.
  induction 1 as [|e l He Hl IH]; simpl; [reflexivity|].
  rewrite IH. unfold extractable at 1. destruct He as [He|He].
  - rewrite He. simpl.
    destruct (has_title_and_link e) eqn:T; [|reflexivity].
    apply has_title_and_link_well_formed in T. congruence.
  - now rewrite He, (has_title_and_link_well_formed e He).
Qed.

Lemma filter_all_true_drop {A} (keep : A -> bool) l1 bad l2 :
  Forall (fun e => keep e = true) l1 ->
  Forall (fun e => keep e = true) l2 ->
  keep bad = false ->
  List.filter keep (l1 ++ bad :: l2) = l1 ++ l2.
Proof.
  intros H1 H2 Hb. rewrite List.filter_app. simpl. rewrite Hb.
  assert (Hall : forall l, Forall (fun e => keep e = true) l ->
                           List.filter keep l = l).
  { induction 1 as [|e l He Hl IH]; simpl; [reflexivity|].
    rewrite He. now f_equal. }
  now rewrite !Hall.
Qed.

End ScraperProps.

Example parse_matrix_item :
  _parse_movie_item join_root matrix_item
  = Some (PyDict
      [ (py "type", PyScalar (PyStr (py "movie")));
        (py "id",
          PyScalar (PyStr (py "cuevanap_https://cuevana.pro/pelicula/matrix")));
        (py "name", PyScalar (PyStr (py "The Matrix")));
        (py "poster", PyScalar (PyStr []));
        (py "year", PyScalar (PyStr []));
        (py "url", PyScalar (PyStr (py "https://cuevana.pro/pelicula/matrix")))
      ]).
Proof. vm_compute. reflexivity. Qed.

(** The guard of the item parser tests the two nodes, not what they hold:
    an item whose title is empty and whose link has no [href] is not
    dropped, it comes back with the empty name and the site root as its
    url.  (The stream parser does test the value: [if not stream_url].) *)
Example parse_movie_item_keeps_hollow_item :
  _parse_movie_item join_root hollow_item
  = Some (PyDict
      [ (py "type", PyScalar (PyStr (py "movie")));
        (py "id", PyScalar (PyStr (py "cuevanap_https://cuevana.pro/")));
        (py "name", PyScalar (PyStr []));
        (py "poster", PyScalar (PyStr []));
        (py "year", PyScalar (PyStr []));
        (py "url", PyScalar (PyStr (py "https://cuevana.pro/"))) ])
  /\ has_title_and_link hollow_item = false
  /\ well_formed hollow_item = true.
Proof. repeat split; vm_compute; reflexivity. Qed.

(** An item with a title and a link is dropped when [urljoin] raises on
    the link. *)
Example parse_movie_item_drops_unresolved_link :
  _parse_movie_item join_root unresolved_item = None
  /\ has_title_and_link unresolved_item = true.
Proof. split; vm_compute; reflexivity. Qed.

(** C7, as stated, fails on a long page: only the first [limit] nodes
    (20 by default) are looked at.  Of 21 well-formed items, 20 come back.
    It also fails on an item that has a title and a link when [urljoin]
    raises on the link: the item is dropped. *)
Lemma search_movies_stops_at_limit :
  length (search_movies join_root (fun q => q)
            (fun _ => Returned (repeat matrix_item 21)) (py "matrix") 20)
  = 20
  /\ length (List.filter well_formed (repeat matrix_item 21)) = 21
  /\ search_movies join_root (fun q => q)
       (fun _ => Returned [unresolved_item]) (py "matrix") 20
     = []
  /\ List.filter well_formed [unresolved_item] = [unresolved_item]
  /\ has_title_and_link unresolved_item = true.
Proof. repeat split; vm_compute; reflexivity. Qed.

(** C7 (amended). Take a page that is fetched, and let each of its first
    [limit] matching nodes either have a title and a link or lack the title
    node or the link node.  Then [search_movies] returns, in page order,
    exactly the parsed items among those nodes that have a title and a link
    that resolves; an item that lacks the title or the link is dropped and
    the others are still returned.  So a page of at most [limit] nodes with
    one malformed item yields all the others: 4 entities for 5 items of
    which 1 lacks a title. *)
Theorem search_movies_keeps_well_formed_within_limit :
  forall (urljoin : pystr -> pystr -> outcome pystr)
         (quote : pystr -> pystr)
         (select_page : pystr -> outcome (list element))
         (query : pystr) (limit : Z) (items : list element),
    select_page (CUEVANA_PRO_URL ++ py "?s=" ++ quote query)
    = Returned items ->
    Forall (fun e => well_formed e = false \/ has_title_and_link e = true)
      (slice_to limit items) ->
    Forall2 (fun e m => _parse_movie_item urljoin e = Some m)
      (List.filter (fun e => has_title_and_link e && resolves urljoin e)
         (slice_to limit items))
      (search_movies urljoin quote select_page query limit)
    /\ (forall l1 bad l2,
          items = l1 ++ bad :: l2 ->
          (Z.of_nat (length items) <= limit)%Z ->
          Forall (fun e => has_title_and_link e && resolves urljoin e = true)
            l1 ->
          Forall (fun e => has_title_and_link e && resolves urljoin e = true)
            l2 ->
          well_formed bad = false ->
          Forall2 (fun e m => _parse_movie_item urljoin e = Some m)
            (l1 ++ l2)
            (search_movies urljoin quote select_page query limit)
          /\ (length items = 5 ->
              length (search_movies urljoin quote select_page query limit)
              = 4)).
Proof.
  intros urljoin quote select_page query limit items Hpage Hshape.
  pose proof (search_movies_found urljoin quote select_page query limit
                items Hpage) as Hfound.
  rewrite (filter_extractable_whole urljoin _ Hshape) in Hfound.
  split; [exact Hfound|].
  intros l1 bad l2 Hitems Hlen H1 H2 Hbad.
  rewrite (slice_to_all limit items Hlen), Hitems in Hfound.
  rewrite (filter_all_true_drop _ l1 bad l2 H1 H2) in Hfound.
  - split; [exact Hfound|].
    intros H5. apply Forall2_length in Hfound. rewrite <- Hfound.
    rewrite Hitems in H5. rewrite length_app in *. simpl in H5. lia.
  - destruct (has_title_and_link bad) eqn:T; [|reflexivity].
    apply has_title_and_link_well_formed in T. congruence.
Qed.

Lemma search_movies_keeps_well_formed_within_limit_witness :
  length (search_movies join_root (fun q => q)
            (fun _ => Returned [matrix_item; matrix_item; untitled_item;
                                matrix_item; matrix_item])
            (py "matrix") 20)
  = 4.
Proof.
  destruct (search_movies_keeps_well_formed_within_limit join_root
              (fun q => q)
              (fun _ => Returned [matrix_item; matrix_item; untitled_item;
                                  matrix_item; matrix_item])
              (py "matrix") 20 _ eq_refl) as [_ H].
  - repeat constructor; (now left) || (now right).
  - apply (H [matrix_item; matrix_item] untitled_item
             [matrix_item; matrix_item]).
    + reflexivity.
    + simpl. lia.
    + repeat constructor.
    + repeat constructor.
    + reflexivity.
    + reflexivity.
Defined.

(** ** Request handlers: properties *)

Section HandlerProps.

Variable fm :
  list (pyscalar * pyscalar) -> pyscalar -> pyscalar -> outcome pyval.
Variable fs :
  list (pyscalar * pyscalar * pyscalar * pyscalar) ->
  pyscalar -> pyscalar -> pyscalar -> pyscalar -> outcome (list pyval).

Lemma get_metadata_no_id self request :
  truthy (id_of request) = false ->
  get_metadata fm self request = (Returned [(py "meta", PyDict [])], self).
Proof.
  intros H. unfold get_metadata. fold (id_of request). now rewrite H.
Qed.

Lemma get_metadata_hit self request cached :
  truthy (id_of request) = true ->
  meta_cache self !! metadata_key_of request = Some cached ->
  get_metadata fm self request = (Returned [(py "meta", cached)], self).
Proof.
  intros Hid Hc. unfold get_metadata.
  fold (id_of request) (type_of request) (metadata_key_of request).
  now rewrite Hid, Hc.
Qed.

Lemma get_metadata_miss self request :
  truthy (id_of request) = true ->
  meta_cache self !! metadata_key_of request = None ->
  get_metadata fm self request
  = match fm (meta_fetched self) (id_of request) (type_of request) with
    | Raised exc =>
        (Raised exc,
         mkMetadataHandler (meta_cache self)
           (meta_fetched self ++ [(id_of request, type_of request)]))
    | Returned meta =>
        (Returned [ (py "meta", meta);
                    (cacheMaxAge, PyScalar (PyInt 604800)) ],
         mkMetadataHandler
           (if truthy_val meta
            then <[metadata_key_of request := meta]> (meta_cache self)
            else meta_cache self)
           (meta_fetched self ++ [(id_of request, type_of request)]))
    end.
Proof.
  intros Hid Hc. unfold get_metadata.
  fold (id_of request) (type_of request) (metadata_key_of request).
  now rewrite Hid, Hc.
Qed.

Lemma get_streams_no_id self request :
  truthy (id_of request) = false ->
  get_streams fs self request = (Returned [(py "streams", PyList [])], self).
Proof.
  intros H. unfold get_streams. fold (id_of request). now rewrite H.
Qed.

Lemma get_streams_hit self request cached :
  truthy (id_of request) = true ->
  stream_cache self !! stream_key_of request = Some cached ->
  get_streams fs self request
  = (Returned [(py "streams", PyList cached)], self).
Proof.
  intros Hid Hc. unfold get_streams.
  fold (id_of request) (type_of request) (season_of request)
       (episode_of request) (stream_key_of request).
  now rewrite Hid, Hc.
Qed.

Lemma get_streams_miss self request :
  truthy (id_of request) = true ->
  stream_cache self !! stream_key_of request = None ->
  get_streams fs self request
  = match fs (stream_fetched self) (id_of request) (type_of request)
             (season_of request) (episode_of request) with
    | Raised exc =>
        (Raised exc,
         mkStreamHandler (stream_cache self)
           (stream_fetched self ++ [stream_call_of request]))
    | Returned streams =>
        (Returned [ (py "streams", PyList streams);
                    (cacheMaxAge, PyScalar (PyInt 3600)) ],
         mkStreamHandler
           match streams with
           | [] => stream_cache self
           | _ => <[stream_key_of request := streams]> (stream_cache self)
           end
           (stream_fetched self ++ [stream_call_of request]))
    end.
Proof.
  intros Hid Hc. unfold get_streams.
  fold (id_of request) (type_of request) (season_of request)
       (episode_of request) (stream_key_of request).
  now rewrite Hid, Hc.
Qed.

(** The three paths of each handler. *)
Lemma get_metadata_paths self request :
  (truthy (id_of request) = false)
  \/ (truthy (id_of request) = true
      /\ exists cached,
           meta_cache self !! metadata_key_of request = Some cached)
  \/ (truthy (id_of request) = true
      /\ meta_cache self !! metadata_key_of request = None).
Proof.
  destruct (truthy (id_of request)); [|now left].
  destruct (meta_cache self !! metadata_key_of request) eqn:E; eauto.
Qed.

Lemma get_streams_paths self request :
  (truthy (id_of request) = false)
  \/ (truthy (id_of request) = true
      /\ exists cached,
           stream_cache self !! stream_key_of request = Some cached)
  \/ (truthy (id_of request) = true
      /\ stream_cache self !! stream_key_of request = None).
Proof.
  destruct (truthy (id_of request)); [|now left].
  destruct (stream_cache self !! stream_key_of request) eqn:E; eauto.
Qed.





End HandlerProps.









Section EntryPoints.

Variable is_exception : pystr -> bool.
Variable fm :
  list (pyscalar * pyscalar) -> pyscalar -> pyscalar -> outcome pyval.
Variable fs :
  list (pyscalar * pyscalar * pyscalar * pyscalar) ->
  pyscalar -> pyscalar -> pyscalar -> pyscalar -> outcome (list pyval).













End EntryPoints.







(** ** Matching, continued: properties *)

Lemma insert_by_score_perm x l : Permutation (insert_by_score x l) (x :: l).
Proof.
  induction l as [|y l IH]; simpl; [reflexivity|].
  destruct (Qgtb y.2 x.2); [|reflexivity].
  rewrite IH. apply perm_swap.
Qed.

Lemma sort_by_score_perm l : Permutation (sort_by_score l) l.
Proof.
  induction l as [|x l IH]; simpl; [reflexivity|].
  rewrite insert_by_score_perm. now constructor.
Qed.

Lemma insert_by_score_sorted x l :
  score_sorted l -> score_sorted (insert_by_score x l).
Proof.
  unfold score_sorted. induction l as [|y l IH]; intros Hs; simpl.
  - repeat constructor.
  - inversion Hs as [|? ? Hs' Hall]; subst.
    destruct (Qgtb y.2 x.2) eqn:G.
    + apply Qgtb_true in G. constructor; [now apply IH|].
      rewrite (insert_by_score_perm x l). constructor; [|exact Hall].
      now apply Qlt_le_weak.
    + apply Qgtb_false in G. constructor; [exact Hs|].
      constructor; [exact G|].
      eapply Forall_impl; [exact Hall|]. intros z Hz. simpl in Hz.
      eapply Qle_trans; eassumption.
Qed.

Lemma sort_by_score_sorted l : score_sorted (sort_by_score l).
Proof.
  induction l as [|x l IH]; simpl; [constructor|].
  now apply insert_by_score_sorted.
Qed.

Lemma insert_by_score_with_score v x l :
  with_score v (insert_by_score x l) = with_score v (x :: l).
Proof.
  unfold with_score. induction l as [|y l IH]; [reflexivity|].
  cbn [insert_by_score]. destruct (Qgtb y.2 x.2) eqn:G; [|reflexivity].
  apply Qgtb_true in G. cbn [List.filter] in *. rewrite IH.
  destruct (Qeq_bool x.2 v) eqn:Ex; [|reflexivity].
  destruct (Qeq_bool y.2 v) eqn:Ey; [|reflexivity].
  apply Qeq_bool_iff in Ex, Ey. exfalso.
  rewrite Ex, Ey in G. exact (Qlt_irrefl _ G).
Qed.

Lemma sort_by_score_with_score v l :
  with_score v (sort_by_score l) = with_score v l.
Proof.
  induction l as [|x l IH]; [reflexivity|].
  cbn [sort_by_score fold_right]. rewrite insert_by_score_with_score.
  unfold with_score in *. cbn [List.filter]. fold (sort_by_score l).
  now rewrite IH.
Qed.

Lemma all_matches_loop tbl low query t l : forall matches,
  fold_left (all_matches_step tbl low query t) l matches
  = matches ++ scored_matches tbl low query l t.
Proof.
  unfold scored_matches.
  induction l as [|c l IH]; intros matches; simpl;
    [now rewrite app_nil_r|].
  rewrite IH. unfold all_matches_step.
  destruct (Qle_bool t (calculate_similarity tbl low query c));
    [now rewrite <- app_assoc|reflexivity].
Qed.

Lemma find_all_matches_sort tbl low query candidates t :
  find_all_matches tbl low query candidates t
  = sort_by_score (scored_matches tbl low query candidates t).
Proof. unfold find_all_matches. now rewrite all_matches_loop. Qed.

Lemma scored_matches_In tbl low query candidates t c s :
  In (c, s) (scored_matches tbl low query candidates t)
  <-> In c candidates /\ s = calculate_similarity tbl low query c
      /\ (t <= s)%Q.
Proof.
  unfold scored_matches. rewrite filter_In, in_map_iff. simpl.
  rewrite Qle_bool_iff. split.
  - intros [(c' & [= <- <-] & Hc) Ht]. auto.
  - intros (Hc & -> & Ht). split; [|exact Ht]. now exists c.
Qed.

Lemma find_all_matches_In tbl low query candidates t c s :
  In (c, s) (find_all_matches tbl low query candidates t)
  <-> In c candidates /\ s = calculate_similarity tbl low query c
      /\ (t <= s)%Q.
Proof.
  rewrite find_all_matches_sort, <- scored_matches_In.
  split; apply Permutation_in; [|symmetry]; apply sort_by_score_perm.
Qed.

(** X1. [find_all_matches] returns, highest score first, exactly the
    candidates whose score reaches the threshold, each once per occurrence
    and with its score; candidates of equal score keep the order of the
    input. *)
Theorem find_all_matches_sorted_stable :
  forall (tbl low : N -> pystr) (query : pystr) (candidates : list pystr)
         (t : Q),
    let result := find_all_matches tbl low query candidates t in
    score_sorted result
    /\ Permutation result (scored_matches tbl low query candidates t)
    /\ (forall c s, In (c, s) result
                    <-> In c candidates
                        /\ s = calculate_similarity tbl low query c
                        /\ (t <= s)%Q)
    /\ (forall v, with_score v result
                  = with_score v (scored_matches tbl low query candidates t)).
Proof.
  intros tbl low query candidates t result. unfold result.
  rewrite find_all_matches_sort. split; [apply sort_by_score_sorted|].
  split; [apply sort_by_score_perm|]. split.
  - intros c s. rewrite <- scored_matches_In.
    split; apply Permutation_in; [|symmetry]; apply sort_by_score_perm.
  - intros v. apply sort_by_score_with_score.
Qed.

Example find_all_matches_ties_keep_order :
  map fst
    (find_all_matches latin1_table (fun c => [c]) (py "matrix")
       [py "matrix reloaded"; py "MATRIX"; py " matrix "; py "matri";
        py "zzz"] (5 # 10))
  = [py "MATRIX"; py " matrix "; py "matri"; py "matrix reloaded"].
Proof. vm_compute. reflexivity. Qed.

Lemma head_insert_by_score x l :
  head (insert_by_score x l)
  = match head l with
    | Some y => if Qgtb y.2 x.2 then Some y else Some x
    | None => Some x
    end.
Proof. destruct l as [|y l]; simpl; [reflexivity|]. now destruct (Qgtb _ _). Qed.

Lemma head_sort_by_score l : head (sort_by_score l) = first_max l.
Proof.
  induction l as [|x l IH]; [reflexivity|].
  cbn [sort_by_score fold_right first_max]. fold (sort_by_score l).
  now rewrite head_insert_by_score, IH.
Qed.

Lemma first_max_None l : first_max l = None -> l = [].
Proof.
  destruct l as [|x l]; [reflexivity|]. simpl.
  destruct (first_max l) as [y|]; [destruct (Qgtb _ _)|]; discriminate.
Qed.

Lemma first_max_In l y : first_max l = Some y -> In y l.
Proof.
  revert y. induction l as [|x l IH]; intros y; simpl; [discriminate|].
  destruct (first_max l) as [z|].
  - destruct (Qgtb z.2 x.2); intros [= <-]; auto.
  - intros [= <-]. now left.
Qed.

Lemma first_max_max l y :
  first_max l = Some y -> forall z, In z l -> (z.2 <= y.2)%Q.
Proof.
  revert y. induction l as [|x l IH]; intros y; simpl; [discriminate|].
  destruct (first_max l) as [w|] eqn:E.
  - destruct (Qgtb w.2 x.2) eqn:G; intros [= <-] z [<-|Hz].
    + apply Qlt_le_weak. now apply Qgtb_true.
    + now apply IH.
    + apply Qle_refl.
    + apply Qgtb_false in G. eapply Qle_trans; [|exact G]. now apply IH.
  - apply first_max_None in E. subst l. intros [= <-] z [<-|[]].
    apply Qle_refl.
Qed.

Lemma filter_nil_below t (l : list (pystr * Q)) (y : pystr * Q) :
  (forall z, In z l -> (z.2 <= y.2)%Q) -> Qle_bool t y.2 = false ->
  List.filter (fun x => Qle_bool t x.2) l = [].
Proof.
  intros Hmax Hy. induction l as [|x l IH]; [reflexivity|]. simpl.
  destruct (Qle_bool t x.2) eqn:E.
  - exfalso. apply Qle_bool_iff in E.
    assert (Ht : (t <= y.2)%Q)
      by (eapply Qle_trans; [exact E|apply Hmax; now left]).
    apply Qle_bool_iff in Ht. congruence.
  - apply IH. intros z Hz. apply Hmax. now right.
Qed.

Lemma first_max_filter t (l : list (pystr * Q)) (y : pystr * Q) :
  first_max l = Some y ->
  (Qle_bool t y.2 = true ->
   first_max (List.filter (fun x => Qle_bool t x.2) l) = Some y)
  /\ (Qle_bool t y.2 = false ->
      List.filter (fun x => Qle_bool t x.2) l = []).
Proof.
  intros Hy. split.
  - revert y Hy. induction l as [|x l IH]; intros y; simpl; [discriminate|].
    destruct (first_max l) as [w|] eqn:E.
    + destruct (Qgtb w.2 x.2) eqn:G; intros [= <-] Ht.
      * specialize (IH w eq_refl Ht).
        destruct (Qle_bool t x.2); simpl; [|exact IH].
        now rewrite IH, G.
      * rewrite Ht. simpl.
        destruct (first_max (List.filter _ l)) as [z|] eqn:Ez;
          [|reflexivity].
        apply first_max_In, filter_In in Ez as [Hz _].
        pose proof (first_max_max l w E z Hz) as Hzw.
        apply Qgtb_false in G.
        replace (Qgtb z.2 x.2) with false; [reflexivity|].
        symmetry. apply Qgtb_false. eapply Qle_trans; eassumption.
    + apply first_max_None in E. subst l. intros [= <-] Ht. simpl.
      now rewrite Ht.
  - intros Ht. eapply filter_nil_below; [|exact Ht].
    now apply first_max_max.
Qed.

Lemma best_match_loop_first_max tbl low query l : forall b s,
  (fold_left (best_match_step tbl low query) l (b, s)).1
  = match first_max
            (map (fun c => (c, calculate_similarity tbl low query c)) l) with
    | Some y => if Qgtb y.2 s then Some y.1 else b
    | None => b
    end.
Proof.
  induction l as [|x l IH]; intros b s; [reflexivity|].
  cbn [fold_left map first_max]. unfold best_match_step at 2. cbn [snd].
  set (sx := calculate_similarity tbl low query x).
  destruct (first_max _) as [y|] eqn:E.
  - destruct (Qgtb sx s) eqn:G1; rewrite IH; cbn [fst snd];
      destruct (Qgtb y.2 sx) eqn:G2; cbn [fst snd].
    + replace (Qgtb y.2 s) with true; [reflexivity|]. symmetry.
      apply Qgtb_true. apply Qgtb_true in G1, G2.
      eapply Qlt_trans; eassumption.
    + now rewrite G1.
    + reflexivity.
    + rewrite G1. replace (Qgtb y.2 s) with false; [reflexivity|].
      symmetry. apply Qgtb_false. apply Qgtb_false in G1, G2.
      eapply Qle_trans; eassumption.
  - apply first_max_None, map_eq_nil in E. subst l. simpl.
    now destruct (Qgtb sx s).
Qed.

(** X2. The best match is the head of the list of all matches, provided
    that head scores strictly above the threshold; otherwise there is no
    best match. *)
Theorem find_best_match_is_head_of_all_matches :
  forall (tbl low : N -> pystr) (query : pystr) (candidates : list pystr)
         (t : Q),
    find_best_match tbl low query candidates t
    = above t (head (find_all_matches tbl low query candidates t)).
Proof.
  intros tbl low query candidates t.
  rewrite find_best_match_fold, best_match_loop_first_max.
  rewrite find_all_matches_sort, head_sort_by_score. unfold scored_matches.
  destruct (first_max (map _ candidates)) as [y|] eqn:E.
  - destruct (first_max_filter t _ y E) as [H1 H2].
    destruct (Qle_bool t y.2) eqn:Ht.
    + now rewrite (H1 eq_refl).
    + rewrite (H2 eq_refl). simpl.
      replace (Qgtb y.2 t) with false; [reflexivity|].
      symmetry. apply Qgtb_false. apply Qlt_le_weak, Qnot_le_lt.
      intros Hle. apply Qle_bool_iff in Hle. congruence.
  - apply first_max_None in E. now rewrite E.
Qed.

Lemma calculate_similarity_self tbl low a :
  a <> [] -> (calculate_similarity tbl low a a == 1)%Q.
Proof.
  intros Ha. destruct a as [|c a]; [congruence|].
  cbn [calculate_similarity]. apply ratio_self.
Qed.

Lemma calculate_similarity_nil_l tbl low x :
  calculate_similarity tbl low [] x = 0%Q.
Proof. reflexivity. Qed.

Lemma calculate_similarity_nil_r tbl low x :
  calculate_similarity tbl low x [] = 0%Q.
Proof. destruct x; reflexivity. Qed.

Lemma find_best_match_above tbl low query candidates t c :
  find_best_match tbl low query candidates t = Some c ->
  (t < calculate_similarity tbl low query c)%Q.
Proof.
  rewrite find_best_match_fold.
  destruct (find_best_match_loop tbl low query t candidates)
    as [[-> _]|(i & best & _ & -> & Ht & _)]; simpl; [discriminate|].
  now intros [= <-].
Qed.

(** X3. [fuzzy_match] accepts more as the threshold drops; a non-empty
    string matches itself exactly for thresholds up to 1; against an empty
    string it accepts only for thresholds up to 0; and the result of
    [find_best_match], like every entry of [find_all_matches], is a fuzzy
    match at the same threshold. *)
Theorem fuzzy_match_thresholds :
  forall (tbl low : N -> pystr),
    (forall q x t1 t2, (t2 <= t1)%Q ->
        fuzzy_match tbl low q x t1 = true ->
        fuzzy_match tbl low q x t2 = true)
    /\ (forall a t, a <> [] ->
          (fuzzy_match tbl low a a t = true <-> (t <= 1)%Q))
    /\ (forall x t, fuzzy_match tbl low [] x t = Qle_bool t 0
                    /\ fuzzy_match tbl low x [] t = Qle_bool t 0)
    /\ (forall q cs t c,
          find_best_match tbl low q cs t = Some c ->
          fuzzy_match tbl low q c t = true)
    /\ (forall q cs t c,
          In c cs ->
          (fuzzy_match tbl low q c t = true
           <-> In (c, calculate_similarity tbl low q c)
                  (find_all_matches tbl low q cs t))).
Proof.
  intros tbl low. unfold fuzzy_match. split; [|split; [|split; [|split]]].
  - intros q x t1 t2 H12. rewrite !Qle_bool_iff. intros H1.
    eapply Qle_trans; eassumption.
  - intros a t Ha. rewrite Qle_bool_iff.
    now rewrite (calculate_similarity_self tbl low a Ha).
  - intros x t. now rewrite calculate_similarity_nil_r.
  - intros q cs t c Hb. apply Qle_bool_iff, Qlt_le_weak.
    eapply find_best_match_above, Hb.
  - intros q cs t c Hc. rewrite Qle_bool_iff, find_all_matches_In.
    split; [auto|]. now intros (_ & _ & Ht).
Qed.

Lemma str_contains_nil hay : str_contains hay [] = true.
Proof. destruct hay; reflexivity. Qed.

(** X4. [match_titles] always accepts a title against itself and any two
    titles with the same normalized form; allowing partial matches never
    turns an accepted pair into a rejected one; a title that normalizes to
    the empty string partially matches every title; and a rejected pair
    scores below 0.85. *)
Theorem match_titles_cases :
  forall (tbl low : N -> pystr),
    (forall a p, match_titles tbl low a a p = true)
    /\ (forall a b p,
          normalize_text tbl low (Some a) = normalize_text tbl low (Some b) ->
          match_titles tbl low a b p = true)
    /\ (forall a b,
          match_titles tbl low a b false = true ->
          match_titles tbl low a b true = true)
    /\ (forall a b,
          normalize_text tbl low (Some a) = [] ->
          match_titles tbl low a b true = true
          /\ match_titles tbl low b a true = true)
    /\ (forall a b p,
          match_titles tbl low a b p = false ->
          normalize_text tbl low (Some a) <> normalize_text tbl low (Some b)
          /\ (calculate_similarity tbl low a b < 85 # 100)%Q).
Proof.
  intros tbl low. unfold match_titles. split; [|split; [|split; [|split]]].
  - intros a p. now rewrite bool_decide_eq_true_2.
  - intros a b p H. now rewrite bool_decide_eq_true_2.
  - intros a b. destruct (bool_decide _); [reflexivity|]. simpl.
    intros ->. now destruct (_ || _).
  - intros a b Ha. rewrite Ha.
    split; destruct (bool_decide _); try reflexivity;
      rewrite str_contains_nil; simpl; [reflexivity|].
    now rewrite orb_true_r.
  - intros a b p. destruct (bool_decide _) eqn:E; [discriminate|].
    apply bool_decide_eq_false in E.
    destruct (p && _); [discriminate|]. unfold fuzzy_match. intros H.
    split; [exact E|]. apply Qnot_le_lt. intros Hle.
    apply Qle_bool_iff in Hle. congruence.
Qed.

(** ** Validation of a record: properties *)

Lemma field_missing_false data field :
  field_missing data field = false
  <-> exists v, data !! field = Some v /\ is_none v = false.
Proof.
  unfold field_missing. destruct (data !! field) as [v|]; split.
  - intros H. now exists v.
  - now intros (v' & [= <-] & H).
  - discriminate.
  - now intros (v' & [=] & _).
Qed.

Lemma length_zero_nil {A} (l : list A) : (length l =? 0) = true <-> l = [].
Proof. destruct l; simpl; split; congruence. Qed.

(** X5. For a dict, [validate_data_dict] is valid exactly when every
    required field is present with a value other than [None]; the second
    component lists, in the order given, the required fields that are not;
    validity means that list is empty.  An argument that is not a dict is
    invalid and blamed for every required field, also when none is
    required. *)
Theorem validate_data_dict_missing_fields :
  forall (data : gmap pystr pyval) (required_fields : list pystr),
    let result := validate_data_dict (Some data) required_fields in
    (result.1 = true
     <-> forall f, In f required_fields ->
           exists v, data !! f = Some v /\ is_none v = false)
    /\ (result.1 = true <-> result.2 = [])
    /\ (forall f, In f result.2
                  <-> In f required_fields /\ field_missing data f = true)
    /\ sublist result.2 required_fields
    /\ validate_data_dict None required_fields = (false, required_fields)
    /\ validate_data_dict None [] = (false, []).
Proof.
  intros data req result. unfold result. clear result.
  cbn [validate_data_dict fst snd].
  assert (Hnil : List.filter (field_missing data) req = []
                 <-> forall f, In f req ->
                       exists v, data !! f = Some v /\ is_none v = false).
  { induction req as [|f req IH]; simpl.
    - split; [intros _ f []|reflexivity].
    - destruct (field_missing data f) eqn:E.
      + split; [discriminate|]. intros H.
        rewrite (proj2 (field_missing_false data f) (H f (or_introl eq_refl)))
          in E.
        discriminate.
      + rewrite IH. split.
        * intros H g [<-|Hg]; [now apply field_missing_false|auto].
        * intros H g Hg. apply H. now right. }
  split; [now rewrite length_zero_nil|].
  split; [apply length_zero_nil|].
  split; [intros f; apply filter_In|].
  split; [|split; reflexivity].
  clear Hnil. induction req as [|f req IH]; simpl; [constructor|].
  destruct (field_missing data f);
    [apply sublist_skip|apply sublist_cons]; exact IH.
Qed.

Lemma fill_fields_lookup fields v data f :
  fill_fields fields v data !! f
  = if bool_decide (f ∈ fields) then Some v else data !! f.
Proof.
  induction fields as [|g fields IH]; simpl; [reflexivity|].
  destruct (decide (g = f)) as [->|Hne].
  - rewrite lookup_insert_eq.
    now rewrite bool_decide_eq_true_2 by apply elem_of_cons, or_introl, eq_refl.
  - rewrite lookup_insert_ne by exact Hne. rewrite IH.
    destruct (bool_decide (f ∈ fields)) eqn:E.
    + apply bool_decide_eq_true in E.
      now rewrite bool_decide_eq_true_2 by now apply elem_of_cons; right.
    + apply bool_decide_eq_false in E.
      rewrite bool_decide_eq_false_2; [reflexivity|].
      intros [?|?]%elem_of_cons; [congruence|tauto].
Qed.

(** X6. Validating again against the fields reported missing reports the
    same fields; and once each of them is given a value other than [None]
    the record is valid for the original requirements. *)
Theorem validate_data_dict_repair :
  forall (data : gmap pystr pyval) (required_fields : list pystr)
         (v : pyval),
    let missing := (validate_data_dict (Some data) required_fields).2 in
    (validate_data_dict (Some data) missing).2 = missing
    /\ (is_none v = false ->
        validate_data_dict (Some (fill_fields missing v data))
          required_fields = (true, [])).
Proof.
  intros data req v missing. unfold missing.
  cbn [validate_data_dict fst snd]. split.
  - induction req as [|f req IH]; simpl; [reflexivity|].
    destruct (field_missing data f) eqn:E; [|exact IH].
    simpl. rewrite E. now f_equal.
  - intros Hv.
    assert (H : List.filter
                  (field_missing
                     (fill_fields (List.filter (field_missing data) req)
                        v data)) req = []).
    { assert (Hall : forall f, In f req ->
                field_missing
                  (fill_fields (List.filter (field_missing data) req) v data)
                  f = false).
      { intros f Hf. unfold field_missing at 1. rewrite fill_fields_lookup.
        destruct (bool_decide _) eqn:E; [exact Hv|].
        apply bool_decide_eq_false in E.
        destruct (field_missing data f) eqn:Em.
        - exfalso. apply E, list_elem_of_In, filter_In. now split.
        - exact Em. }
      revert Hall. generalize (fill_fields
        (List.filter (field_missing data) req) v data) as data'.
      clear. intros data' Hall.
      induction req as [|f req IH]; [reflexivity|]. simpl.
      rewrite (Hall f) by now left.
      apply IH. intros g Hg. apply Hall. now right. }
    now rewrite H.
Qed.

(** ** The other scraper methods: properties *)

Lemma omap_cons_eq {A B} (f : A -> option B) x l :
  omap f (x :: l)
  = match f x with Some y => y :: omap f l | None => omap f l end.
Proof. reflexivity. Qed.

Lemma collect_loop {A} (parse : A -> option pyval)
    (step : list pyval -> A -> list pyval) :
  (forall acc e,
     step acc e = match parse e with
                  | Some m => if truthy_val m then acc ++ [m] else acc
                  | None => acc
                  end) ->
  forall l acc, fold_left step l acc = acc ++ omap (kept parse) l.
Proof.
  intros Hstep. induction l as [|e l IH]; intros acc.
  - simpl. now rewrite app_nil_r.
  - rewrite omap_cons_eq. simpl. rewrite IH, Hstep. unfold kept at 2.
    destruct (parse e) as [m|]; [|reflexivity].
    destruct (truthy_val m); [|reflexivity].
    now rewrite <- app_assoc.
Qed.


Lemma Forall_omap_kept {A} (parse : A -> option pyval) (P : pyval -> Prop) l :
  (forall e m, parse e = Some m -> P m) -> Forall P (omap (kept parse) l).
Proof.
  intros H. induction l as [|e l IH]; [constructor|].
  rewrite omap_cons_eq.
  unfold kept at 1. destruct (parse e) as [m|] eqn:E; [|exact IH].
  destruct (truthy_val m); [|exact IH].
  constructor; [now apply (H e)|exact IH].
Qed.

Lemma omap_kept_filter {A} (parse : A -> option pyval) (wf : A -> bool) l :
  (forall e, wf e = true ->
     exists m, parse e = Some m /\ truthy_val m = true) ->
  (forall e, wf e = false -> kept parse e = None) ->
  Forall2 (fun e m => parse e = Some m) (List.filter wf l)
    (omap (kept parse) l).
Proof.
  intros Hyes Hno. induction l as [|e l IH]; [constructor|].
  rewrite omap_cons_eq. simpl. destruct (wf e) eqn:W.
  - destruct (Hyes e W) as (m & Hm & Ht). unfold kept at 1.
    rewrite Hm, Ht. constructor; [exact Hm|exact IH].
  - rewrite (Hno e W). exact IH.
Qed.


Lemma collect_movie_omap urljoin l acc :
  fold_left (collect_movie urljoin) l acc
  = acc ++ omap (kept (_parse_movie_item urljoin)) l.
Proof. now apply collect_loop. Qed.

Lemma collect_series_omap urljoin l acc :
  fold_left (collect_series urljoin) l acc
  = acc ++ omap (kept (_parse_series_item urljoin)) l.
Proof. now apply collect_loop. Qed.

Lemma collect_stream_omap l acc :
  fold_left collect_stream l acc = acc ++ omap (kept _parse_stream) l.
Proof. now apply collect_loop. Qed.

Lemma parse_series_item_wf urljoin e :
  (extractable urljoin e = true ->
   exists m, _parse_series_item urljoin e = Some m /\ truthy_val m = true)
  /\ (extractable urljoin e = false ->
      kept (_parse_series_item urljoin) e = None).
Proof.
  unfold extractable, well_formed, resolves, href_of, kept,
    _parse_series_item, base_url.
  destruct (sel_title e), (sel_link e) as [link|]; simpl;
    try (split; [discriminate|reflexivity]).
  destruct (startswith _ _); simpl.
  - split; [|discriminate]. intros _. eexists. split; reflexivity.
  - destruct (urljoin _ _); split; try discriminate; try reflexivity.
    intros _. eexists. split; reflexivity.
Qed.

Lemma parse_movie_item_wf urljoin e :
  (extractable urljoin e = true ->
   exists m, _parse_movie_item urljoin e = Some m /\ truthy_val m = true)
  /\ (extractable urljoin e = false ->
      kept (_parse_movie_item urljoin) e = None).
Proof.
  unfold extractable, well_formed, resolves, href_of, kept,
    _parse_movie_item, base_url.
  destruct (sel_title e), (sel_link e) as [link|]; simpl;
    try (split; [discriminate|reflexivity]).
  destruct (startswith _ _); simpl.
  - split; [|discriminate]. intros _. eexists. split; reflexivity.
  - destruct (urljoin _ _); split; try discriminate; try reflexivity.
    intros _. eexists. split; reflexivity.
Qed.

(** X7. When the index page ["peliculas/"] is fetched, [get_top_movies]
    returns, in page order, exactly the parsed items that have a title node
    and a link node, and whose link is absolute or is one that [urljoin]
    resolves without raising, among the first [limit] nodes matching
    ['.movie-item, .film-item'].  An item whose link makes [urljoin] raise
    is left out like one that lacks a node. *)
Theorem get_top_movies_keeps_well_formed_within_limit :
  forall (urljoin : pystr -> pystr -> outcome pystr)
         (select_nodes : pystr -> pystr -> outcome (list element))
         (limit : Z) (items : list element),
    select_nodes (CUEVANA_PRO_URL ++ py "peliculas/")
      (py ".movie-item, .film-item") = Returned items ->
    Forall2 (fun e m => _parse_movie_item urljoin e = Some m)
      (List.filter (extractable urljoin) (slice_to limit items))
      (get_top_movies urljoin select_nodes limit)
    /\ Forall (fun e => extractable urljoin e = false ->
                        _parse_movie_item urljoin e = None) items.
Proof.
  intros urljoin select_nodes limit items Hpage. split.
  - unfold get_top_movies, base_url. rewrite Hpage, collect_movie_omap.
    apply omap_kept_filter; intros e; apply parse_movie_item_wf.
  - apply Forall_forall. intros e _.
    apply parse_movie_item_not_extractable.
Qed.

Lemma get_top_movies_keeps_well_formed_within_limit_witness :
  List.filter (extractable join_root)
    (slice_to 4 [matrix_item; untitled_item; unresolved_item; matrix_item;
                 matrix_item])
  = [matrix_item; matrix_item]
  /\ Forall2 (fun e m => _parse_movie_item join_root e = Some m)
       [matrix_item; matrix_item]
       (get_top_movies join_root
          (fun _ _ => Returned [matrix_item; untitled_item; unresolved_item;
                                matrix_item; matrix_item]) 4).
Proof.
  split; [reflexivity|].
  apply (get_top_movies_keeps_well_formed_within_limit join_root
           (fun _ _ => Returned [matrix_item; untitled_item; unresolved_item;
                                 matrix_item; matrix_item])
           4 [matrix_item; untitled_item; unresolved_item; matrix_item;
              matrix_item]).
  reflexivity.
Defined.

(** X8. [get_series] reads the search page ["?s=<quoted query>&type=tv"]
    for a non-empty query and the index ["series/"] for no query or an
    empty one; when that page is fetched it returns, in page order, exactly
    the parsed items that have a title node and a link node, and whose
    link is absolute or is one that [urljoin] resolves without raising,
    among the first [limit] nodes matching ['.series-item, .tv-item']. *)
Theorem get_series_keeps_well_formed_within_limit :
  forall (urljoin : pystr -> pystr -> outcome pystr) (quote : pystr -> pystr)
         (select_nodes : pystr -> pystr -> outcome (list element))
         (query : option pystr) (limit : Z) (items : list element),
    select_nodes (series_page quote query) (py ".series-item, .tv-item")
    = Returned items ->
    Forall2 (fun e m => _parse_series_item urljoin e = Some m)
      (List.filter (extractable urljoin) (slice_to limit items))
      (get_series urljoin quote select_nodes query limit)
    /\ get_series urljoin quote select_nodes (Some []) limit
       = get_series urljoin quote select_nodes None limit.
Proof.
  intros urljoin quote select_nodes query limit items Hpage.
  split; [|reflexivity].
  unfold get_series, base_url. unfold series_page in Hpage.
  rewrite Hpage, collect_series_omap.
  apply omap_kept_filter; intros e; apply parse_series_item_wf.
Qed.

Lemma get_series_keeps_well_formed_within_limit_witness :
  length (get_series join_root (fun q => q)
            (fun _ _ => Returned [matrix_item; untitled_item;
                                  unresolved_item; matrix_item])
            (Some (py "matrix")) 20)
  = 2.
Proof.
  destruct (get_series_keeps_well_formed_within_limit join_root (fun q => q)
              (fun _ _ => Returned [matrix_item; untitled_item;
                                    unresolved_item; matrix_item])
              (Some (py "matrix")) 20
              [matrix_item; untitled_item; unresolved_item; matrix_item]
              eq_refl) as [H _].
  apply Forall2_length in H. rewrite <- H. reflexivity.
Defined.



Lemma parse_movie_item_entity urljoin e m :
  _parse_movie_item urljoin e = Some m -> entity_of_kind (py "movie") m.
Proof.
  unfold _parse_movie_item.
  destruct (sel_title e), (sel_link e); try discriminate.
  destruct (if negb _ then _ else _); [|discriminate].
  intros [= <-]. eexists _, _. repeat split; reflexivity.
Qed.

Lemma parse_series_item_entity urljoin e m :
  _parse_series_item urljoin e = Some m -> entity_of_kind (py "series") m.
Proof.
  unfold _parse_series_item.
  destruct (sel_title e), (sel_link e); try discriminate.
  destruct (if negb _ then _ else _); [|discriminate].
  intros [= <-]. eexists _, _. repeat split; reflexivity.
Qed.

Lemma entity_id_determines_url k1 k2 m1 m2 :
  entity_of_kind k1 m1 -> entity_of_kind k2 m2 ->
  field m1 (py "id") = field m2 (py "id") ->
  field m1 (py "url") = field m2 (py "url").
Proof.
  intros (d1 & u1 & _ & _ & _ & Hu1 & Hi1) (d2 & u2 & _ & _ & _ & Hu2 & Hi2).
  rewrite Hu1, Hu2, Hi1, Hi2. intros [= H]. now subst.
Qed.

(** X10. Every entity a listing returns is a dict with the fields type,
    id, name, poster, year and url, in that order; its type is "movie" for
    [search_movies] and [get_top_movies] and "series" for [get_series]; its
    id is [ID_PREFIX] followed by its url.  The type is no part of the id:
    two listed entities with the same id have the same url, be they movies
    or series. *)
Theorem listed_entities_are_namespaced :
  forall (urljoin : pystr -> pystr -> outcome pystr) (quote : pystr -> pystr)
         (select_page : pystr -> outcome (list element))
         (select_nodes : pystr -> pystr -> outcome (list element))
         (query : pystr) (series_query : option pystr) (limit : Z),
    let movies := search_movies urljoin quote select_page query limit in
    let top := get_top_movies urljoin select_nodes limit in
    let series := get_series urljoin quote select_nodes series_query limit in
    Forall (entity_of_kind (py "movie")) movies
    /\ Forall (entity_of_kind (py "movie")) top
    /\ Forall (entity_of_kind (py "series")) series
    /\ Forall (fun m1 =>
         Forall (fun m2 =>
           field m1 (py "id") = field m2 (py "id") ->
           field m1 (py "url") = field m2 (py "url"))
           (movies ++ top ++ series))
         (movies ++ top ++ series).
Proof.
  intros urljoin quote select_page select_nodes query sq limit
    movies top series.
  assert (Hm : Forall (entity_of_kind (py "movie")) movies).
  { unfold movies, search_movies.
    destruct (select_page _); [|constructor].
    rewrite collect_movie_omap. apply Forall_omap_kept.
    apply parse_movie_item_entity. }
  assert (Ht : Forall (entity_of_kind (py "movie")) top).
  { unfold top, get_top_movies.
    destruct (select_nodes _ _); [|constructor].
    rewrite collect_movie_omap. apply Forall_omap_kept.
    apply parse_movie_item_entity. }
  assert (Hs : Forall (entity_of_kind (py "series")) series).
  { unfold series, get_series.
    destruct (select_nodes _ _); [|constructor].
    rewrite collect_series_omap. apply Forall_omap_kept.
    apply parse_series_item_entity. }
  split; [exact Hm|]. split; [exact Ht|]. split; [exact Hs|].
  assert (Hall : Forall (fun m => exists k, entity_of_kind k m)
                   (movies ++ top ++ series)).
  { rewrite !Forall_app. repeat split;
      (eapply Forall_impl; [eassumption|]); intros m H; eexists; exact H. }
  rewrite Forall_forall. intros m1 H1. rewrite Forall_forall. intros m2 H2.
  rewrite Forall_forall in Hall.
  destruct (Hall m1 H1) as [k1 E1]. destruct (Hall m2 H2) as [k2 E2].
  exact (entity_id_determines_url k1 k2 m1 m2 E1 E2).
Qed.

Lemma parse_stream_addressed e :
  (truthy (stream_address e) = true ->
   exists m, _parse_stream e = Some m /\ truthy_val m = true)
  /\ (truthy (stream_address e) = false -> kept _parse_stream e = None).
Proof.
  unfold kept, _parse_stream, stream_address.
  destruct (truthy _); split; try discriminate; try reflexivity.
  intros _. eexists. split; reflexivity.
Qed.

Lemma parse_stream_with_url e m :
  _parse_stream e = Some m -> stream_with_url m.
Proof.
  unfold _parse_stream.
  destruct (tag_get e (py "href") (tag_get e (py "data-url") PyNone))
    as [|z|[|c u]] eqn:E; simpl; try discriminate.
  - unfold tag_get in E.
    destruct (tag_attrs e !! py "href"); [discriminate|].
    destruct (tag_attrs e !! py "data-url"); discriminate.
  - intros [= <-]. now exists c, u.
Qed.

(** X11. When the page is fetched, the scraper's [get_streams] returns, in
    page order and without any limit, exactly the parsed elements that
    carry a non-empty address, the address being [href], or [data-url] when
    the element has no [href] attribute; every stream returned has a
    non-empty url.  An element whose [href] is present but empty is dropped
    even if it has a [data-url]. *)
Theorem scraper_get_streams_keeps_addressed :
  forall (select_tags : pystr -> pystr -> outcome (list tag))
         (movie_url : pystr) (elems : list tag),
    select_tags movie_url (py ".server-item, .stream-link, .player-link")
    = Returned elems ->
    let streams := scraper_get_streams select_tags movie_url in
    Forall2 (fun e m => _parse_stream e = Some m)
      (List.filter (fun e => truthy (stream_address e)) elems) streams
    /\ Forall stream_with_url streams
    /\ (forall e, In e elems -> tag_attrs e !! py "href" = Some [] ->
                  _parse_stream e = None).
Proof.
  intros select_tags movie_url elems Hpage streams.
  unfold streams, scraper_get_streams. rewrite Hpage, collect_stream_omap.
  simpl app. split; [|split].
  - apply omap_kept_filter; intros e; apply parse_stream_addressed.
  - apply Forall_omap_kept. intros e m. apply parse_stream_with_url.
  - intros e _ Hhref. unfold _parse_stream, tag_get. now rewrite Hhref.
Qed.

Lemma scraper_get_streams_keeps_addressed_witness :
  length (scraper_get_streams
            (fun _ _ => Returned [mirror_link; lazy_link; blank_link;
                                  bare_link])
            (py "https://cuevana.pro/matrix"))
  = 2.
Proof.
  destruct (scraper_get_streams_keeps_addressed
              (fun _ _ => Returned [mirror_link; lazy_link; blank_link;
                                    bare_link])
              (py "https://cuevana.pro/matrix")
              [mirror_link; lazy_link; blank_link; bare_link] eq_refl)
    as [H _].
  apply Forall2_length in H. rewrite <- H. reflexivity.
Defined.

Lemma extract_genres_loop l : forall acc,
  fold_left
    (fun genres genre =>
       match tag_text genre with
       | [] => genres
       | genre_text => genres ++ [genre_text]
       end) l acc
  = acc ++ List.filter (fun t => negb (bool_decide (t = [])))
             (map tag_text l).
Proof.
  induction l as [|g l IH]; intros acc; simpl.
  - now rewrite app_nil_r.
  - rewrite IH. destruct (tag_text g) as [|c t]; simpl; [reflexivity|].
    now rewrite <- app_assoc.
Qed.

Lemma extract_genres_texts s : _extract_genres s = genre_texts s.
Proof. unfold _extract_genres. now rewrite extract_genres_loop. Qed.

(** X12. [get_movie_details] returns [None] exactly when the request
    fails.  Otherwise it returns a dict with the fields url, title,
    description, poster, year, rating, runtime and genres, in that order.
    url is the argument.  Each of title, description, year, rating and
    runtime is the stripped text of its node, and the empty string when the
    page has no such node.  poster is the [src] of the image node if that
    is not empty, else its [data-src] if that is not empty, else the empty
    string, which it is also when the page has no image node.  None of the
    six is [None].  genres is the list of the non-empty texts of the genre
    nodes, in page order. *)
Theorem get_movie_details_fields :
  forall (fetch_soup : pystr -> outcome soup) (movie_url : pystr),
    (get_movie_details fetch_soup movie_url = None
     <-> exists exc, fetch_soup movie_url = Raised exc)
    /\ (forall s, fetch_soup movie_url = Returned s ->
          exists m,
            get_movie_details fetch_soup movie_url = Some m
            /\ (exists d, m = PyDict d
                  /\ map fst d = [py "url"; py "title"; py "description";
                                  py "poster"; py "year"; py "rating";
                                  py "runtime"; py "genres"])
            /\ field m (py "url") = Some (PyScalar (PyStr movie_url))
            /\ Forall (fun key =>
                 exists text, field m key = Some (PyScalar (PyStr text)))
                 [py "title"; py "description"; py "poster"; py "year";
                  py "rating"; py "runtime"]
            /\ field m (py "genres")
               = Some (PyList (map (fun g => PyScalar (PyStr g))
                                 (genre_texts s)))
            /\ Forall (fun g => g <> []) (genre_texts s)
            /\ Forall (fun '(key, node) =>
                 match node with
                 | Some t =>
                     field m key = Some (PyScalar (PyStr (tag_text t)))
                 | None => field m key = Some (PyScalar (PyStr []))
                 end)
                 [ (py "title", soup_title s);
                   (py "description", soup_description s);
                   (py "year", soup_year s);
                   (py "rating", soup_rating s);
                   (py "runtime", soup_runtime s) ]
            /\ (soup_poster s = None ->
                field m (py "poster") = Some (PyScalar (PyStr [])))
            /\ (forall img, soup_poster s = Some img ->
                  let src := tag_attrs img !! py "src" in
                  let lazy := tag_attrs img !! py "data-src" in
                  exists p,
                    field m (py "poster") = Some (PyScalar (PyStr p))
                    /\ (forall c v, src = Some (c :: v) -> p = c :: v)
                    /\ (src = None \/ src = Some [] ->
                        forall c v, lazy = Some (c :: v) -> p = c :: v)
                    /\ (src = None \/ src = Some [] ->
                        lazy = None \/ lazy = Some [] -> p = []))).
Proof.
  intros fetch_soup movie_url. unfold get_movie_details. split.
  - destruct (fetch_soup movie_url) as [s|exc]; split.
    + discriminate.
    + now intros [exc [=]].
    + intros _. now exists exc.
    + reflexivity.
  - intros s ->. eexists. split; [reflexivity|].
    split; [eexists; split; reflexivity|]. split; [reflexivity|].
    split; [repeat constructor; eexists; reflexivity|].
    split; [simpl; now rewrite extract_genres_texts|].
    split.
    + unfold genre_texts. apply Forall_forall. intros g Hg.
      apply list_elem_of_In, filter_In in Hg as [_ Hg].
      apply negb_true_iff, bool_decide_eq_false in Hg. exact Hg.
    + split; [|split].
      * unfold field, dict_lookup, _extract_title, _extract_description,
          _extract_year, _extract_rating, _extract_runtime, text_or_empty.
        repeat constructor;
          match goal with |- match ?n with _ => _ end => destruct n end;
          reflexivity.
      * intros Hp. simpl. unfold _extract_poster. now rewrite Hp.
      * cbv zeta. intros img Himg. eexists. split; [reflexivity|].
        unfold _extract_poster. rewrite Himg.
        destruct (tag_attrs img !! py "src") as [[|c v]|],
          (tag_attrs img !! py "data-src") as [[|c' v']|];
          repeat split; intros; try congruence;
          repeat match goal with H : _ \/ _ |- _ => destruct H end;
          congruence.
Qed.

(** X13. The poster of one image tag as a listing item and as a detail
    page resolve it.  Whenever the listing gives a non-empty poster, the
    detail page gives the same one.  They part when [src] is present but
    empty: the listing stops there with the empty string, the detail page
    goes on to [data-src]; and when the tag has neither attribute the
    listing's poster is [None], the detail page's the empty string. *)
Theorem poster_of_listing_and_detail :
  forall (urljoin : pystr -> pystr -> outcome pystr) (e : element) (m : pyval)
         (img : tag) (s : soup),
    _parse_movie_item urljoin e = Some m ->
    sel_poster e = Some img ->
    soup_poster s = Some img ->
    exists p,
      field m (py "poster") = Some (PyScalar p)
      /\ (truthy p = true -> p = PyStr (_extract_poster s))
      /\ (tag_attrs img !! py "src" = Some [] ->
          p = PyStr []
          /\ _extract_poster s
             = match tag_attrs img !! py "data-src" with
               | Some lazy => lazy
               | None => []
               end)
      /\ (p = PyNone
          <-> tag_attrs img !! py "src" = None
              /\ tag_attrs img !! py "data-src" = None)
      /\ (p = PyNone -> _extract_poster s = []).
Proof.
  intros urljoin e m img s Hm Himg Hs. unfold _parse_movie_item in Hm.
  destruct (sel_title e), (sel_link e); try discriminate.
  destruct (if negb _ then _ else _); [|discriminate].
  injection Hm as <-. rewrite Himg. eexists. split; [reflexivity|].
  unfold _extract_poster, tag_get. rewrite Hs.
  destruct (tag_attrs img !! py "src") as [[|c v]|] eqn:Esrc;
    destruct (tag_attrs img !! py "data-src") as [[|c' v']|] eqn:Elazy;
    simpl; repeat split; try discriminate; try reflexivity;
    try (intros [? ?]; discriminate); try (intros; congruence).
Qed.

Lemma poster_of_listing_and_detail_witness :
  exists p,
    field (PyDict
             [ (py "type", PyScalar (PyStr (py "movie")));
               (py "id", PyScalar (PyStr (ID_PREFIX ++ py "https://cuevana.pro/matrix")));
               (py "name", PyScalar (PyStr (py "Matrix")));
               (py "poster", PyScalar (PyStr []));
               (py "year", PyScalar (PyStr []));
               (py "url", PyScalar (PyStr (py "https://cuevana.pro/matrix"))) ])
      (py "poster") = Some (PyScalar p)
    /\ p = PyStr []
    /\ _extract_poster lazy_page = py "/lazy.jpg".
Proof.
  destruct (poster_of_listing_and_detail join_root lazy_item _ lazy_image
              lazy_page eq_refl eq_refl eq_refl)
    as (p & Hp & _ & H & _).
  exists p. split; [exact Hp|]. exact (H eq_refl).
Defined.

(** ** Request handlers: further properties *)

Lemma colon_split (t1 t2 i1 i2 : pystr) :
  colon_free t1 -> colon_free t2 ->
  t1 ++ py ":" ++ i1 = t2 ++ py ":" ++ i2 -> t1 = t2 /\ i1 = i2.
Proof.
  unfold colon_free. revert t2.
  induction t1 as [|c t1 IH]; intros [|c' t2] H1 H2; simpl; intros E.
  - injection E as E. now split.
  - injection E as E _. exfalso. apply H2. left. now rewrite <- E.
  - injection E as E _. exfalso. apply H1. left. exact E.
  - injection E as -> E.
    destruct (IH t2) as [-> ->]; [| |exact E|now split].
    + intros H. apply H1. now right.
    + intros H. apply H2. now right.
Qed.


(** X14. The cache key tells requests apart as long as the kind holds no
    colon: two metadata keys (or two stream keys without a season) are
    equal exactly when the kinds print alike and the identifiers print
    alike.  The key is built from the printed values, so the integer 5 and
    the string "5" are the same identifier to the cache. *)
Theorem cache_keys_separate_colon_free_kinds :
  forall (t1 i1 t2 i2 e1 e2 : pyscalar),
    colon_free (str_of t1) -> colon_free (str_of t2) ->
    (metadata_key t1 i1 = metadata_key t2 i2
     <-> str_of t1 = str_of t2 /\ str_of i1 = str_of i2)
    /\ (stream_key t1 i1 PyNone e1 = stream_key t2 i2 PyNone e2
        <-> str_of t1 = str_of t2 /\ str_of i1 = str_of i2).
Proof.
  intros t1 i1 t2 i2 e1 e2 H1 H2. unfold metadata_key, stream_key.
  split; (split; [now apply colon_split|now intros [-> ->]]).
Qed.

Lemma cache_keys_separate_colon_free_kinds_witness :
  metadata_key (PyStr (py "movie")) (PyInt 5)
  = metadata_key (PyStr (py "movie")) (PyStr (py "5"))
  /\ metadata_key (PyStr (py "movie")) (PyStr (py "cuevanap_https://a"))
     <> metadata_key (PyStr (py "series")) (PyStr (py "cuevanap_https://a")).
Proof.
  assert (Hm : colon_free (str_of (PyStr (py "movie")))).
  { intros H; vm_compute in H; intuition discriminate. }
  assert (Hs : colon_free (str_of (PyStr (py "series")))).
  { intros H; vm_compute in H; intuition discriminate. }
  split.
  - apply (cache_keys_separate_colon_free_kinds (PyStr (py "movie"))
             (PyInt 5) (PyStr (py "movie")) (PyStr (py "5")) PyNone PyNone
             Hm Hm).
    split; reflexivity.
  - intros E.
    apply (cache_keys_separate_colon_free_kinds (PyStr (py "movie"))
             (PyStr (py "cuevanap_https://a")) (PyStr (py "series"))
             (PyStr (py "cuevanap_https://a")) PyNone PyNone Hm Hs) in E.
    destruct E as [E _]. discriminate E.
Defined.

(** With a colon in the kind, or an identifier ending like an episode
    suffix, different requests share a key. *)
Example cache_keys_collide :
  metadata_key_of split_early_request = metadata_key_of split_late_request
  /\ stream_key (PyStr (py "series")) (PyStr (py "x")) (PyInt 1) (PyInt 2)
     = stream_key (PyStr (py "series")) (PyStr (py "x:s1e2")) PyNone PyNone.
Proof. split; reflexivity. Qed.

Section HandlerMoreProps.

Variable fm :
  list (pyscalar * pyscalar) -> pyscalar -> pyscalar -> outcome pyval.
Variable fs :
  list (pyscalar * pyscalar * pyscalar * pyscalar) ->
  pyscalar -> pyscalar -> pyscalar -> pyscalar -> outcome (list pyval).

Lemma get_metadata_frame self request key :
  key <> metadata_key_of request ->
  meta_cache (get_metadata fm self request).2 !! key = meta_cache self !! key.
Proof.
  intros Hne.
  destruct (get_metadata_paths self request) as [H|[[H [c Hc]]|[H Hc]]].
  - now rewrite get_metadata_no_id.
  - now rewrite (get_metadata_hit fm _ _ c).
  - rewrite get_metadata_miss by assumption.
    destruct (fm _ _ _) as [meta|]; simpl; [|reflexivity].
    destruct (truthy_val meta); [|reflexivity].
    now rewrite lookup_insert_ne.
Qed.

Lemma get_streams_frame self request key :
  key <> stream_key_of request ->
  stream_cache (get_streams fs self request).2 !! key
  = stream_cache self !! key.
Proof.
  intros Hne.
  destruct (get_streams_paths self request) as [H|[[H [c Hc]]|[H Hc]]].
  - now rewrite get_streams_no_id.
  - now rewrite (get_streams_hit fs _ _ c).
  - rewrite get_streams_miss by assumption.
    destruct (fs _ _ _ _ _) as [[|s streams]|]; simpl; try reflexivity.
    now rewrite lookup_insert_ne.
Qed.

Lemma get_metadata_log self request :
  meta_fetched (get_metadata fm self request).2 = meta_fetched self
  \/ meta_fetched (get_metadata fm self request).2
     = meta_fetched self ++ [(id_of request, type_of request)].
Proof.
  destruct (get_metadata_paths self request) as [H|[[H [c Hc]]|[H Hc]]].
  - left. now rewrite get_metadata_no_id.
  - left. now rewrite (get_metadata_hit fm _ _ c).
  - right. rewrite get_metadata_miss by assumption.
    now destruct (fm _ _ _).
Qed.

Lemma get_streams_log self request :
  stream_fetched (get_streams fs self request).2 = stream_fetched self
  \/ stream_fetched (get_streams fs self request).2
     = stream_fetched self ++ [stream_call_of request].
Proof.
  destruct (get_streams_paths self request) as [H|[[H [c Hc]]|[H Hc]]].
  - left. now rewrite get_streams_no_id.
  - left. now rewrite (get_streams_hit fs _ _ c).
  - right. rewrite get_streams_miss by assumption.
    now destruct (fs _ _ _ _ _).
Qed.

Lemma serve_metadata_log calls : forall self,
  exists more,
    meta_fetched (serve_metadata fm self calls) = meta_fetched self ++ more
    /\ length more <= length calls.
Proof.
  induction calls as [|call calls IH]; intros self; simpl.
  - exists []. split; [now rewrite app_nil_r|simpl; lia].
  - destruct (IH (get_metadata fm self call.2).2) as (more & -> & Hlen).
    destruct (get_metadata_log self call.2) as [->| ->].
    + exists more. split; [reflexivity|lia].
    + exists ((id_of call.2, type_of call.2) :: more).
      split; [now rewrite <- app_assoc|simpl; lia].
Qed.

Lemma serve_streams_log calls : forall self,
  exists more,
    stream_fetched (serve_streams fs self calls) = stream_fetched self ++ more
    /\ length more <= length calls.
Proof.
  induction calls as [|call calls IH]; intros self; simpl.
  - exists []. split; [now rewrite app_nil_r|simpl; lia].
  - destruct (IH (get_streams fs self call.2).2) as (more & -> & Hlen).
    destruct (get_streams_log self call.2) as [->| ->].
    + exists more. split; [reflexivity|lia].
    + exists (stream_call_of call.2 :: more).
      split; [now rewrite <- app_assoc|simpl; lia].
Qed.


End HandlerMoreProps.

(** X15. One request changes at most its own cache entry and makes at most
    one fetch: every other key keeps what it had, also a key that had
    nothing, and the list of fetches is the old one, or the old one
    followed by the request's own call.  A session of [n] requests makes at
    most [n] fetches and forgets none made before. *)
Theorem request_touches_only_its_key :
  forall fm fs,
    (forall (self : metadata_handler) request key,
        key <> metadata_key_of request ->
        meta_cache (get_metadata fm self request).2 !! key
        = meta_cache self !! key)
    /\ (forall (self : stream_handler) request key,
           key <> stream_key_of request ->
           stream_cache (get_streams fs self request).2 !! key
           = stream_cache self !! key)
    /\ (forall (self : metadata_handler) calls,
           exists more,
             meta_fetched (serve_metadata fm self calls)
             = meta_fetched self ++ more
             /\ length more <= length calls)
    /\ (forall (self : stream_handler) calls,
           exists more,
             stream_fetched (serve_streams fs self calls)
             = stream_fetched self ++ more
             /\ length more <= length calls).
Proof.
  intros fm fs. split; [|split; [|split]].
  - intros self request key. apply get_metadata_frame.
  - intros self request key. apply get_streams_frame.
  - intros self calls. apply serve_metadata_log.
  - intros self calls. apply serve_streams_log.
Qed.









(** With a colon in a kind the cache does answer with another title's
    record: after a request of kind "a:b" for "c", the request of kind "a"
    for "b:c" is given the record of "c". *)
Example metadata_cache_confuses_colon_kinds :
  let later := (get_metadata source_fetch_metadata new_metadata_handler
                  split_late_request).2 in
  (get_metadata source_fetch_metadata later split_early_request).1
  = Returned [(py "meta",
               _fetch_metadata (PyStr (py "c")) (PyStr (py "a:b")))].
Proof. reflexivity. Qed.





(** An interrupt during the fetch goes through the entry point. *)
Example handle_metadata_lets_interrupt_through :
  (handle_metadata (fun _ _ _ => Raised (py "KeyboardInterrupt"))
     builtin_is_exception new_metadata_handler banana_request).1
  = Raised (py "KeyboardInterrupt")
  /\ (handle_metadata (fun _ _ _ => Raised (py "ConnectionError"))
        builtin_is_exception new_metadata_handler banana_request).1
     = Returned no_meta.
Proof. split; vm_compute; reflexivity. Qed.

(** ** Text processing: properties *)

Lemma isspace_cases c :
  isspace c = true ->
  In c [9; 10; 11; 12; 13; 28; 29; 30; 31; 32; 133; 160; 5760; 8192; 8193;
        8194; 8195; 8196; 8197; 8198; 8199; 8200; 8201; 8202; 8232; 8233;
        8239; 8287; 12288]%N.
Proof.
  unfold isspace.
  rewrite !orb_true_iff, !andb_true_iff, !N.leb_le, !N.eqb_eq.
  simpl. lia.
Qed.

Lemma alnum_not_space c : isspace c = true -> is_alnum_i c = false.
Proof.
  intros H. apply isspace_cases in H. simpl in H.
  repeat (destruct H as [<-|H]; [reflexivity|]). destruct H.
Qed.

Lemma filter_lstrip (P : N -> bool) s :
  (forall c, isspace c = true -> P c = false) ->
  List.filter P (lstrip s) = List.filter P s.
Proof.
  intros HP. induction s as [|c r IH]; simpl; [reflexivity|].
  destruct (isspace c) eqn:E; [|reflexivity].
  now rewrite (HP c E).
Qed.

Lemma filter_rstrip (P : N -> bool) s :
  (forall c, isspace c = true -> P c = false) ->
  List.filter P (rstrip s) = List.filter P s.
Proof.
  intros HP. induction s as [|c r IH]; [reflexivity|].
  cbn [rstrip]. destruct (rstrip r) as [|d r'] eqn:R.
  - cbn [List.filter] in *. rewrite <- IH.
    destruct (isspace c) eqn:E; [now rewrite (HP c E)|reflexivity].
  - cbn [List.filter] in *. now rewrite <- IH.
Qed.

Lemma filter_strip (P : N -> bool) s :
  (forall c, isspace c = true -> P c = false) ->
  List.filter P (strip s) = List.filter P s.
Proof.
  intros HP. unfold strip. now rewrite filter_rstrip, filter_lstrip.
Qed.

Lemma rstrip_no_space s :
  Forall (fun c => isspace c = false) s -> rstrip s = s.
Proof.
  induction 1 as [|c r Hc Hr IH]; [reflexivity|].
  cbn [rstrip]. rewrite IH. destruct r; [now rewrite Hc|reflexivity].
Qed.

Lemma strip_no_space s :
  Forall (fun c => isspace c = false) s -> strip s = s.
Proof.
  intros H. unfold strip.
  replace (lstrip s) with s; [now apply rstrip_no_space|].
  destruct H as [|c r Hc Hr]; [reflexivity|]. simpl. now rewrite Hc.
Qed.

Lemma filter_all_true {A} (P : A -> bool) l :
  Forall (fun x => P x = true) l -> List.filter P l = l.
Proof.
  induction 1 as [|x l Hx Hl IH]; simpl; [reflexivity|].
  now rewrite Hx, IH.
Qed.

Lemma Forall_filter_true {A} (P : A -> bool) l :
  Forall (fun x => P x = true) (List.filter P l).
Proof.
  induction l as [|x l IH]; simpl; [constructor|].
  destruct (P x) eqn:E; [now constructor|exact IH].
Qed.

Lemma Forall_strip (P : N -> Prop) s : Forall P s -> Forall P (strip s).
Proof. intros H. now apply Forall_rstrip, Forall_lstrip. Qed.

Lemma remove_special_characters_eq text keep_spaces :
  remove_special_characters text keep_spaces
  = strip (List.filter
             (if keep_spaces then (fun c => is_alnum_i c || isspace c)
              else is_alnum_i) text).
Proof. destruct text, keep_spaces; reflexivity. Qed.

Lemma filter_alnum_kept text :
  List.filter is_alnum_i
    (List.filter (fun c => is_alnum_i c || isspace c) text)
  = List.filter is_alnum_i text.
Proof.
  induction text as [|c r IH]; simpl; [reflexivity|].
  destruct (is_alnum_i c) eqn:E; simpl; [now rewrite E, IH|].
  destruct (isspace c) eqn:S; simpl; [|exact IH].
  now rewrite E.
Qed.

(** X21. [remove_special_characters] is idempotent in either mode, and
    cleaning without spaces what was cleaned with spaces is the same as
    cleaning without spaces at once.  Without spaces the result is exactly
    the characters of the text that [[a-z0-9]] matches when case is
    ignored, in order, and holds no whitespace; with spaces the result
    holds only such characters and whitespace, and neither starts nor ends
    with whitespace. *)
Theorem remove_special_characters_idempotent :
  forall (text : pystr),
    let kept := remove_special_characters text true in
    let bare := remove_special_characters text false in
    remove_special_characters kept true = kept
    /\ remove_special_characters bare false = bare
    /\ remove_special_characters kept false = bare
    /\ bare = List.filter is_alnum_i text
    /\ Forall (fun c => isspace c = false) bare
    /\ Forall (fun c => is_alnum_i c || isspace c = true) kept
    /\ strip kept = kept.
Proof.
  intros text kept bare. unfold kept, bare.
  rewrite !remove_special_characters_eq.
  assert (Hbare : strip (List.filter is_alnum_i text)
                  = List.filter is_alnum_i text).
  { apply strip_no_space.
    eapply Forall_impl; [apply Forall_filter_true|].
    intros c Hc. simpl in Hc. destruct (isspace c) eqn:E; [|reflexivity].
    rewrite (alnum_not_space c E) in Hc. discriminate. }
  split; [|split; [|split; [|split; [|split; [|split]]]]].
  - rewrite filter_all_true; [apply strip_idem|].
    apply Forall_strip, Forall_filter_true.
  - rewrite filter_all_true; [apply strip_idem|].
    apply Forall_strip, Forall_filter_true.
  - rewrite filter_strip by apply alnum_not_space. f_equal.
    apply filter_alnum_kept.
  - exact Hbare.
  - rewrite Hbare. eapply Forall_impl; [apply Forall_filter_true|].
    intros c Hc. simpl in Hc. destruct (isspace c) eqn:E; [|reflexivity].
    rewrite (alnum_not_space c E) in Hc. discriminate.
  - apply Forall_strip, Forall_filter_true.
  - apply strip_idem.
Qed.

(** Accented letters are dropped, not transliterated, while the long s
    (U+017F) and the Kelvin sign (U+212A) pass for the letters s and k. *)
Example remove_special_characters_non_ascii :
  remove_special_characters (py "Canci" ++ [243%N; 110%N; 33%N]) true
  = py "Cancin"
  /\ remove_special_characters [383%N; 8490%N; 233%N] false
     = [383%N; 8490%N].
Proof. split; reflexivity. Qed.

Section WordsProps.

Variable str_lower : pystr -> pystr.
Variable is_word : N -> bool.

(** What is assumed of [str.lower()]: its result consists of characters it
    leaves alone, a string of such characters is left alone, and the space
    is one of them; and of [\w]: it does not match the space. *)
Variable lowered : N -> bool.
Hypothesis lower_lowered :
  forall s, Forall (fun c => lowered c = true) (str_lower s).
Hypothesis lower_fixed :
  forall s, Forall (fun c => lowered c = true) s -> str_lower s = s.
Hypothesis space_lowered : lowered 32%N = true.
Hypothesis space_not_word : is_word 32%N = false.

Lemma findall_words_run cur w s :
  Forall (fun c => is_word c = true) w ->
  findall_words is_word cur (w ++ s) = findall_words is_word (cur ++ w) s.
Proof.
  intros Hw. revert cur.
  induction Hw as [|c w Hc Hw IH]; intros cur; simpl.
  - now rewrite app_nil_r.
  - rewrite Hc, IH. now rewrite <- app_assoc.
Qed.

Lemma findall_words_words s : forall cur,
  Forall (fun c => is_word c = true) cur ->
  Forall (is_a_word is_word) (findall_words is_word cur s).
Proof.
  induction s as [|c r IH]; intros cur Hcur; simpl.
  - destruct cur; constructor; [|constructor]. now split.
  - destruct (is_word c) eqn:E.
    + apply IH. apply Forall_app. split; [exact Hcur|]. now constructor.
    + destruct cur as [|d cur]; [apply IH; constructor|].
      constructor; [now split|]. apply IH. constructor.
Qed.

Lemma findall_words_concat s : forall cur,
  concat (findall_words is_word cur s) = cur ++ List.filter is_word s.
Proof.
  induction s as [|c r IH]; intros cur; simpl.
  - destruct cur; simpl; now rewrite ?app_nil_r.
  - destruct (is_word c) eqn:E.
    + rewrite IH. now rewrite <- app_assoc.
    + destruct cur as [|d cur]; simpl; rewrite IH; reflexivity.
Qed.

Lemma findall_words_Forall (P : N -> Prop) s : forall cur,
  Forall P cur -> Forall P s ->
  Forall (Forall P) (findall_words is_word cur s).
Proof.
  induction s as [|c r IH]; intros cur Hcur Hs; simpl.
  - destruct cur; constructor; [exact Hcur|constructor].
  - inversion Hs as [|? ? Hc Hr]; subst. destruct (is_word c).
    + apply IH; [|exact Hr]. apply Forall_app. split; [exact Hcur|].
      now constructor.
    + destruct cur as [|d cur]; [apply IH; [constructor|exact Hr]|].
      constructor; [exact Hcur|]. apply IH; [constructor|exact Hr].
Qed.

Lemma findall_words_join ws :
  Forall (is_a_word is_word) ws ->
  findall_words is_word [] (join_space ws) = ws.
Proof.
  induction 1 as [|w ws [Hne Hw] Hws IH]; [reflexivity|].
  destruct ws as [|w' ws].
  - simpl. rewrite <- (app_nil_r w) at 1.
    rewrite findall_words_run by exact Hw. simpl.
    destruct w; [contradiction|reflexivity].
  - change (join_space (w :: w' :: ws))
      with (w ++ 32%N :: join_space (w' :: ws)).
    rewrite findall_words_run by exact Hw.
    rewrite app_nil_l. cbn [findall_words].
    rewrite space_not_word, IH. destruct w; [contradiction|reflexivity].
Qed.

Lemma Forall_join_space (P : N -> Prop) ws :
  P 32%N -> Forall (Forall P) ws -> Forall P (join_space ws).
Proof.
  intros Hsp. induction 1 as [|w ws Hw Hws IH]; [constructor|].
  destruct ws as [|w' ws]; [exact Hw|].
  change (join_space (w :: w' :: ws))
    with (w ++ 32%N :: join_space (w' :: ws)).
  apply Forall_app. split; [exact Hw|]. now constructor.
Qed.

Lemma str_lower_nil : str_lower [] = [].
Proof. apply lower_fixed. constructor. Qed.

Lemma extract_words_eq text :
  extract_words str_lower is_word text
  = findall_words is_word [] (str_lower text).
Proof. destruct text; [now rewrite str_lower_nil|reflexivity]. Qed.

Lemma Forall_sublist_filter {A} (P : A -> Prop) (f : A -> bool) l :
  Forall P l -> Forall P (List.filter f l).
Proof.
  induction 1 as [|x l Hx Hl IH]; simpl; [constructor|].
  destruct (f x); [now constructor|exact IH].
Qed.

Lemma extract_words_of_kept text (keep : pystr -> bool) :
  extract_words str_lower is_word
    (join_space (List.filter keep (extract_words str_lower is_word text)))
  = List.filter keep (extract_words str_lower is_word text).
Proof.
  rewrite (extract_words_eq (join_space _)).
  rewrite lower_fixed.
  - apply findall_words_join, Forall_sublist_filter.
    rewrite extract_words_eq. apply findall_words_words. constructor.
  - apply Forall_join_space; [exact space_lowered|].
    apply Forall_sublist_filter. rewrite extract_words_eq.
    apply findall_words_Forall; [constructor|apply lower_lowered].
Qed.

Lemma filter_true_id {A} (l : list A) : List.filter (fun _ => true) l = l.
Proof. induction l as [|x l IH]; simpl; now rewrite ?IH. Qed.

(** X22. [extract_words] splits the lowered text into its maximal runs of
    word characters: every word is non-empty and made of word characters,
    the words put end to end are the word characters of the lowered text,
    and joining the words with spaces and extracting again gives the same
    words. *)
Theorem extract_words_round_trip :
  forall (text : pystr),
    let words := extract_words str_lower is_word text in
    Forall (is_a_word is_word) words
    /\ concat words = List.filter is_word (str_lower text)
    /\ extract_words str_lower is_word (join_space words) = words.
Proof.
  intros text words. unfold words. split; [|split].
  - rewrite extract_words_eq. apply findall_words_words. constructor.
  - rewrite extract_words_eq. apply findall_words_concat.
  - pose proof (extract_words_of_kept text (fun _ => true)) as H.
    now rewrite filter_true_id in H.
Qed.

Lemma filter_filter_same {A} (f : A -> bool) l :
  List.filter f (List.filter f l) = List.filter f l.
Proof. apply filter_all_true, Forall_filter_true. Qed.

Lemma remove_stop_words_eq text stop_words :
  remove_stop_words str_lower is_word text stop_words
  = join_space
      (List.filter
         (not_in match stop_words with
                 | None => default_stop_words
                 | Some given => map str_lower given
                 end)
         (extract_words str_lower is_word text)).
Proof. destruct text; reflexivity. Qed.

(** X23. [remove_stop_words] is idempotent, and no stop word is left in its
    result: the words of the result are the words of the text that are not
    stop words, in order.  An empty list of stop words is not the default:
    it removes nothing. *)
Theorem remove_stop_words_idempotent :
  forall (text : pystr) (stop_words : option (list pystr)),
    let stops :=
      match stop_words with
      | None => default_stop_words
      | Some given => map str_lower given
      end in
    let result := remove_stop_words str_lower is_word text stop_words in
    remove_stop_words str_lower is_word result stop_words = result
    /\ extract_words str_lower is_word result
       = List.filter (not_in stops) (extract_words str_lower is_word text)
    /\ Forall (fun w => ~ In w stops)
         (extract_words str_lower is_word result)
    /\ remove_stop_words str_lower is_word text (Some [])
       = join_space (extract_words str_lower is_word text).
Proof.
  intros text stop_words stops result.
  assert (Hwords : extract_words str_lower is_word result
                   = List.filter (not_in stops)
                       (extract_words str_lower is_word text)).
  { unfold result. rewrite remove_stop_words_eq.
    apply extract_words_of_kept. }
  split; [|split; [exact Hwords|split]].
  - rewrite remove_stop_words_eq. fold stops. rewrite Hwords.
    rewrite filter_filter_same. unfold result.
    now rewrite remove_stop_words_eq.
  - rewrite Hwords. eapply Forall_impl; [apply Forall_filter_true|].
    intros w Hw. simpl in Hw. unfold not_in in Hw.
    apply negb_true_iff, bool_decide_eq_false in Hw.
    intros Hin. apply Hw, list_elem_of_In, Hin.
  - rewrite remove_stop_words_eq. simpl. f_equal.
    apply filter_all_true, Forall_forall. intros w _. reflexivity.
Qed.

End WordsProps.

Lemma ascii_lower_lowered s :
  Forall (fun c => ascii_lowered c = true) (ascii_lower s).
Proof.
  induction s as [|c s IH]; simpl; constructor; [|exact IH].
  unfold ascii_lowered, is_upper.
  destruct ((65 <=? c)%N && (c <=? 90)%N) eqn:E; [|now rewrite E].
  apply andb_true_iff in E as [E1 E2].
  apply N.leb_le in E1. apply N.leb_le in E2.
  apply negb_true_iff, andb_false_iff. right. apply N.leb_gt. lia.
Qed.

Lemma ascii_lower_fixed s :
  Forall (fun c => ascii_lowered c = true) s -> ascii_lower s = s.
Proof.
  induction 1 as [|c s Hc Hs IH]; simpl; [reflexivity|].
  unfold ascii_lowered in Hc. apply negb_true_iff in Hc.
  now rewrite Hc, IH.
Qed.

Lemma extract_words_round_trip_witness :
  extract_words ascii_lower ascii_word
    (join_space
       (extract_words ascii_lower ascii_word (py "The Matrix: Reloaded")))
  = [py "the"; py "matrix"; py "reloaded"].
Proof.
  destruct (extract_words_round_trip ascii_lower ascii_word ascii_lowered
              ascii_lower_lowered ascii_lower_fixed eq_refl eq_refl
              (py "The Matrix: Reloaded")) as (_ & _ & H).
  rewrite H. reflexivity.
Defined.

Lemma remove_stop_words_idempotent_witness :
  remove_stop_words ascii_lower ascii_word
    (remove_stop_words ascii_lower ascii_word
       (py "The Lord of the Rings") None) None
  = py "lord rings".
Proof.
  destruct (remove_stop_words_idempotent ascii_lower ascii_word ascii_lowered
              ascii_lower_lowered ascii_lower_fixed eq_refl eq_refl
              (py "The Lord of the Rings") None) as (H & _).
  rewrite H. reflexivity.
Defined.

(** ** Formatting and validation of numbers: properties *)

Lemma str_uint_digits d :
  Forall (fun c => ascii_isdigit c = true) (py (NilEmpty.string_of_uint d)).
Proof.
  induction d; simpl; constructor; try reflexivity; exact IHd.
Qed.

Lemma str_of_nonneg z :
  (0 <= z)%Z ->
  str_of (PyInt z) <> []
  /\ Forall (fun c => ascii_isdigit c = true) (str_of (PyInt z)).
Proof.
  intros Hz. unfold str_of. destruct z as [|p|p]; [| |lia].
  - split; [discriminate|]. repeat constructor.
  - simpl. split; [|apply str_uint_digits].
    pose proof (DecimalPos.Unsigned.to_uint_nonnil p) as Hnil.
    destruct (Pos.to_uint p); [contradiction| | | | | | | | | |];
      discriminate.
Qed.

Lemma str_of_neg z :
  (z < 0)%Z -> exists r, str_of (PyInt z) = 45%N :: r.
Proof.
  intros Hz. destruct z as [|p|p]; try lia. eexists. reflexivity.
Qed.

Lemma py_inj s1 s2 : py s1 = py s2 -> s1 = s2.
Proof.
  unfold py. revert s2.
  induction s1 as [|a s1 IH]; intros [|b s2]; simpl; try discriminate;
    [reflexivity|].
  intros [= Hab Hs]. f_equal; [|now apply IH].
  rewrite <- (ascii_N_embedding a), <- (ascii_N_embedding b).
  now rewrite Hab.
Qed.

Lemma string_of_int_inj d1 d2 :
  NilEmpty.string_of_int d1 = NilEmpty.string_of_int d2 -> d1 = d2.
Proof.
  intros H. pose proof (NilEmpty.isi d1) as H1.
  rewrite H, NilEmpty.isi in H1. congruence.
Qed.

Lemma str_of_int_inj a b : str_of (PyInt a) = str_of (PyInt b) -> a = b.
Proof.
  unfold str_of. intros H.
  apply py_inj, string_of_int_inj, DecimalZ.to_int_inj in H. exact H.
Qed.

Lemma digit_not_space c : ascii_isdigit c = true -> isspace c = false.
Proof.
  intros H. destruct (isspace c) eqn:E; [|reflexivity].
  apply isspace_cases in E. simpl in E.
  repeat (destruct E as [<-|E]; [discriminate H|]). destruct E.
Qed.

Lemma strip_digits s :
  Forall (fun c => ascii_isdigit c = true) s -> strip s = s.
Proof.
  intros H. apply strip_no_space.
  eapply Forall_impl; [exact H|]. apply digit_not_space.
Qed.

Lemma sep_split (x : N) (t1 t2 i1 i2 : pystr) :
  ~ In x t1 -> ~ In x t2 ->
  t1 ++ x :: i1 = t2 ++ x :: i2 -> t1 = t2 /\ i1 = i2.
Proof.
  revert t2.
  induction t1 as [|c t1 IH]; intros [|c' t2] H1 H2; simpl; intros E.
  - injection E as E. now split.
  - injection E as E _. exfalso. apply H2. left. now rewrite <- E.
  - injection E as E _. exfalso. apply H1. left. exact E.
  - injection E as -> E.
    destruct (IH t2) as [-> ->]; [| |exact E|now split].
    + intros H. apply H1. now right.
    + intros H. apply H2. now right.
Qed.

Lemma digits_without (x : N) s :
  ascii_isdigit x = false ->
  Forall (fun c => ascii_isdigit c = true) s -> ~ In x s.
Proof.
  intros Hx Hs Hin. rewrite Forall_forall in Hs.
  apply list_elem_of_In in Hin. rewrite (Hs x Hin) in Hx. discriminate.
Qed.

Lemma long_shape (a b : pystr) :
  a ++ [104%N; 32%N] ++ b ++ [109%N] = (a ++ 104%N :: 32%N :: b) ++ [109%N].
Proof. rewrite <- app_assoc. reflexivity. Qed.

Lemma printable_below z :
  (-10000 < z < 10000)%Z -> printable (PyInt z) = true.
Proof.
  intros Hz. unfold printable. apply Z.ltb_lt.
  assert (H : (10 ^ 4 <= 10 ^ 4300)%Z) by (apply Z.pow_le_mono_r; lia).
  change (10 ^ 4)%Z with 10000%Z in H.
  set (bound := (10 ^ 4300)%Z) in *. lia.
Qed.

Lemma py_str_printable v :
  printable v = true -> py_str v = Returned (str_of v).
Proof. unfold py_str. now intros ->. Qed.

Lemma py_str_unprintable v :
  printable v = false -> py_str v = Raised (py "ValueError").
Proof. unfold py_str. now intros ->. Qed.

Section NumbersProps.

Variable int_of_str : pystr -> option Z.
Variable isdigit : N -> bool.

Lemma format_duration_int v m :
  int_of int_of_str v = Some m ->
  format_duration int_of_str v
  = if (m <=? 0)%Z then None
    else if printable (PyInt (m / 60)) then Some (duration_text m)
    else None.
Proof.
  intros Hm. unfold format_duration, duration_text. rewrite Hm.
  assert (E : forall body : option pystr,
             match v with PyNone => None | _ => body end = body).
  { intros body. destruct v; [discriminate Hm|reflexivity|reflexivity]. }
  rewrite E. clear E.
  destruct (Z.leb_spec m 0) as [Hle|Hlt]; [reflexivity|].
  pose proof (Z.mod_pos_bound m 60 ltac:(lia)) as Bm.
  rewrite (py_str_printable (PyInt (m mod 60)))
    by (apply printable_below; lia).
  destruct (Z.eqb_spec (m / 60) 0) as [E0|E0].
  - rewrite E0. now rewrite (printable_below 0) by lia.
  - destruct (printable (PyInt (m / 60))) eqn:P.
    + rewrite (py_str_printable _ P). now destruct (_ =? 0)%Z.
    + rewrite (py_str_unprintable _ P). now destruct (_ =? 0)%Z.
Qed.

Lemma duration_text_inj m n :
  (0 < m)%Z -> (0 < n)%Z -> duration_text m = duration_text n -> m = n.
Proof.
  intros Hm Hn. unfold duration_text.
  pose proof (Z.div_mod m 60 ltac:(lia)) as Em.
  pose proof (Z.div_mod n 60 ltac:(lia)) as En.
  pose proof (Z.mod_pos_bound m 60 ltac:(lia)) as Bm.
  pose proof (Z.mod_pos_bound n 60 ltac:(lia)) as Bn.
  pose proof (Z.div_pos m 60 ltac:(lia) ltac:(lia)) as Dm.
  pose proof (Z.div_pos n 60 ltac:(lia) ltac:(lia)) as Dn.
  set (hm := (m / 60)%Z) in *. set (rm := (m mod 60)%Z) in *.
  set (hn := (n / 60)%Z) in *. set (rn := (n mod 60)%Z) in *.
  destruct (str_of_nonneg hm Dm) as [_ Fhm].
  destruct (str_of_nonneg hn Dn) as [_ Fhn].
  destruct (str_of_nonneg rm ltac:(lia)) as [_ Frm].
  destruct (str_of_nonneg rn ltac:(lia)) as [_ Frn].
  change (py "m") with [109%N]. change (py "h") with [104%N].
  change (py "h ") with [104%N; 32%N].
  rewrite !long_shape.
  destruct (Z.eqb_spec hm 0) as [Hhm|Hhm];
    [|destruct (Z.eqb_spec rm 0) as [Hrm|Hrm]];
    (destruct (Z.eqb_spec hn 0) as [Hhn|Hhn];
     [|destruct (Z.eqb_spec rn 0) as [Hrn|Hrn]]);
    intros E; apply app_inj_tail in E as [E Elast];
    try discriminate Elast.
  - apply str_of_int_inj in E. lia.
  - exfalso. apply (digits_without 104%N _ eq_refl Frm).
    rewrite E. apply in_or_app. right. now left.
  - apply str_of_int_inj in E. lia.
  - exfalso. apply (digits_without 104%N _ eq_refl Frn).
    rewrite <- E. apply in_or_app. right. now left.
  - apply sep_split in E as [E1 E2];
      [|apply (digits_without 104%N _ eq_refl Fhm)
       |apply (digits_without 104%N _ eq_refl Fhn)].
    injection E2 as E2.
    apply str_of_int_inj in E1. apply str_of_int_inj in E2. lia.
Qed.

(** X24. Every value [format_duration] formats is one [is_valid_duration]
    accepts, but not every accepted value is formatted: the valid values
    that are formatted are those whose number of whole hours is short
    enough to print (below 10^4300); for a longer one the f-string raises
    [ValueError] and the result is [None].  On the integers it formats,
    [format_duration] is one-to-one: two different durations are never
    shown by the same text.  An integer that is not positive gives
    [None]. *)
Theorem format_duration_faithful :
  (forall v,
      is_valid_duration int_of_str v = true
      <-> exists m, int_of int_of_str v = Some m /\ (0 < m)%Z)
  /\ (forall v,
        (exists text, format_duration int_of_str v = Some text)
        <-> exists m, int_of int_of_str v = Some m /\ (0 < m)%Z
                      /\ (m / 60 < 10 ^ 4300)%Z)
  /\ (forall v text,
        format_duration int_of_str v = Some text ->
        is_valid_duration int_of_str v = true)
  /\ (forall m n text,
        format_duration int_of_str (PyInt m) = Some text ->
        format_duration int_of_str (PyInt n) = Some text ->
        m = n)
  /\ (forall m, (m <= 0)%Z -> format_duration int_of_str (PyInt m) = None)
  /\ (forall m,
        (60 * 10 ^ 4300 <= m)%Z ->
        is_valid_duration int_of_str (PyInt m) = true
        /\ format_duration int_of_str (PyInt m) = None).
Proof.
  assert (Hvalid : forall v,
    is_valid_duration int_of_str v = true
    <-> exists m, int_of int_of_str v = Some m /\ (0 < m)%Z).
  { intros v. unfold is_valid_duration.
    destruct (int_of int_of_str v) as [m|].
    - rewrite Z.ltb_lt. split; [intros H; now exists m|].
      now intros (m' & [= <-] & H).
    - split; [discriminate|now intros (m' & [=] & _)]. }
  assert (Hformat : forall v,
    (exists text, format_duration int_of_str v = Some text)
    <-> exists m, int_of int_of_str v = Some m /\ (0 < m)%Z
                  /\ (m / 60 < 10 ^ 4300)%Z).
  { intros v. destruct (int_of int_of_str v) as [m|] eqn:Hm.
    - rewrite (format_duration_int v m Hm).
      pose proof (Z.div_pos m 60) as Dm.
      unfold printable.
      destruct (Z.leb_spec m 0) as [Hle|Hlt].
      + split; [now intros [? [=]]|]. intros (m' & [= <-] & H & _). lia.
      + rewrite Z.abs_eq by (apply Dm; lia).
        destruct (Z.ltb_spec (m / 60) (10 ^ 4300)) as [Hp|Hp].
        * split; [intros _; now exists m|intros _; eexists; reflexivity].
        * split; [now intros [? [=]]|]. intros (m' & [= <-] & _ & H).
          set (bound := (10 ^ 4300)%Z) in *. lia.
    - split.
      + intros [text H]. unfold format_duration in H. rewrite Hm in H.
        destruct v; discriminate.
      + now intros (m & [=] & _). }
  split; [exact Hvalid|]. split; [exact Hformat|].
  split; [|split; [|split]].
  - intros v text H. apply Hvalid.
    destruct (proj1 (Hformat v) (ex_intro _ text H)) as (m & Hm & Hpos & _).
    now exists m.
  - intros m n text Hm Hn.
    rewrite (format_duration_int (PyInt m) m eq_refl) in Hm.
    rewrite (format_duration_int (PyInt n) n eq_refl) in Hn.
    destruct (Z.leb_spec m 0); [discriminate|].
    destruct (Z.leb_spec n 0); [discriminate|].
    destruct (printable (PyInt (m / 60))); [|discriminate].
    destruct (printable (PyInt (n / 60))); [|discriminate].
    apply duration_text_inj; [assumption|assumption|congruence].
  - intros m Hm. rewrite (format_duration_int (PyInt m) m eq_refl).
    destruct (Z.leb_spec m 0); [reflexivity|lia].
  - intros m Hm.
    assert (Hbig : (0 < 10 ^ 4300)%Z) by (apply Z.pow_pos_nonneg; lia).
    set (bound := (10 ^ 4300)%Z) in *.
    assert (Hh : (bound <= m / 60)%Z).
    { apply Z.div_le_lower_bound; lia. }
    split.
    + apply Hvalid. exists m. split; [reflexivity|lia].
    + destruct (format_duration int_of_str (PyInt m)) as [text|] eqn:E;
        [|reflexivity].
      destruct (proj1 (Hformat (PyInt m)) (ex_intro _ text E))
        as (m' & [= <-] & _ & H).
      fold bound in H. lia.
Qed.

End NumbersProps.

Section YearProps.

Variable int_of_str : pystr -> option Z.
Variable isdigit : N -> bool.
Variable is_word : N -> bool.
Variable decimal : N -> option Z.

(** What is assumed of Python's tables: the ASCII digits are digits, word
    characters and decimal digits with their usual values, the minus sign
    is no digit, a decimal digit has a value from 0 to 9, and [int] reads
    back what [str] prints of a natural number. *)
Hypothesis isdigit_ascii : forall c, ascii_isdigit c = true -> isdigit c = true.
Hypothesis isdigit_minus : isdigit 45%N = false.
Hypothesis is_word_ascii : forall c, ascii_isdigit c = true -> is_word c = true.
Hypothesis decimal_ascii :
  forall c, ascii_isdigit c = true -> decimal c = Some (Z.of_N c - 48)%Z.
Hypothesis decimal_range :
  forall c v, decimal c = Some v -> (0 <= v <= 9)%Z.
Hypothesis int_of_str_digits :
  forall z, (0 <= z)%Z -> printable (PyInt z) = true ->
            int_of_str (str_of (PyInt z)) = Some z.

Lemma match_year_range before s y :
  match_year is_word decimal before s = Some y ->
  (1800 <= y <= 2099)%Z
  /\ exists c1 c2 c3 c4 rest, s = c1 :: c2 :: c3 :: c4 :: rest.
Proof.
  unfold match_year.
  destruct s as [|c1 [|c2 [|c3 [|c4 rest]]]]; try discriminate.
  destruct (_ && _); [|discriminate].
  destruct (decimal c3) as [d3|] eqn:E3; [|discriminate].
  destruct (decimal c4) as [d4|] eqn:E4; [|discriminate].
  apply decimal_range in E3. apply decimal_range in E4.
  destruct ((c1 =? 49)%N && ((c2 =? 56)%N || (c2 =? 57)%N)) eqn:A.
  - intros [= <-]. split; [|now eauto 6].
    apply andb_true_iff in A as [_ A]. apply orb_true_iff in A.
    rewrite !N.eqb_eq in A. lia.
  - destruct ((c1 =? 50)%N && (c2 =? 48)%N); [|discriminate].
    intros [= <-]. split; [lia|now eauto 6].
Qed.

Lemma first_year_range s : forall before y,
  first_year is_word decimal before s = Some y ->
  (1800 <= y <= 2099)%Z
  /\ exists front c1 c2 c3 c4 rest,
       s = front ++ c1 :: c2 :: c3 :: c4 :: rest.
Proof.
  induction s as [|c r IH]; intros before y; [discriminate|].
  cbn [first_year].
  destruct (match_year is_word decimal before (c :: r)) as [y'|] eqn:E.
  - intros [= <-]. apply match_year_range in E as [Hy (c1 & c2 & c3 & c4 & rest & Hs)].
    split; [exact Hy|]. exists [], c1, c2, c3, c4, rest. exact Hs.
  - intros H. apply IH in H as [Hy (front & c1 & c2 & c3 & c4 & rest & Hs)].
    split; [exact Hy|]. exists (c :: front), c1, c2, c3, c4, rest.
    now rewrite Hs.
Qed.

(** X25. A year that [extract_year_from_string] finds lies between 1800
    and 2099: 2100, which [is_valid_year] and [format_year] accept, is never
    extracted.  The year is read from four consecutive characters of the
    text, and [is_valid_year] holds of it. *)
Theorem extract_year_from_string_range :
  forall (text : pystr) (year : Z),
    extract_year_from_string is_word decimal text = Some year ->
    (1800 <= year <= 2099)%Z
    /\ is_valid_year int_of_str (PyInt year) = true
    /\ exists front c1 c2 c3 c4 rest,
         text = front ++ c1 :: c2 :: c3 :: c4 :: rest.
Proof.
  intros text year H. unfold extract_year_from_string in H.
  destruct text as [|c r]; [discriminate|].
  apply first_year_range in H as [Hy Hs]. split; [exact Hy|].
  split; [|exact Hs]. unfold is_valid_year. simpl.
  apply andb_true_iff. rewrite !Z.leb_le. lia.
Qed.

Lemma format_year_int z :
  format_year int_of_str isdigit (PyInt z)
  = if printable (PyInt z)
    then Returned (if ((1800 <=? z) && (z <=? 2100))%Z
                   then Some (str_of (PyInt z)) else None)
    else Raised (py "ValueError").
Proof.
  unfold format_year. destruct (printable (PyInt z)) eqn:P;
    [|now rewrite (py_str_unprintable _ P)].
  rewrite (py_str_printable _ P).
  destruct (Z.le_gt_cases 0 z) as [Hz|Hz].
  - destruct (str_of_nonneg z Hz) as [Hne Hd].
    rewrite (strip_digits _ Hd).
    destruct (str_of (PyInt z)) as [|c r] eqn:E; [contradiction|].
    replace (forallb isdigit (c :: r)) with true.
    + rewrite <- E, (int_of_str_digits z Hz P). cbn [orb negb].
      now destruct ((1800 <=? z) && (z <=? 2100))%Z.
    + symmetry. apply forallb_forall. intros x Hx.
      apply isdigit_ascii. rewrite Forall_forall in Hd.
      apply Hd, list_elem_of_In, Hx.
  - destruct (str_of_neg z Hz) as [r Hr]. rewrite Hr.
    unfold strip. rewrite (lstrip_head_fix 45%N r eq_refl).
    destruct (rstrip_head 45%N r eq_refl) as [r' ->].
    simpl. rewrite isdigit_minus. simpl.
    destruct (Z.leb_spec 1800 z); [lia|reflexivity].
Qed.

Lemma match_year_ascii before s :
  Forall (fun c => ascii_isdigit c = true) s ->
  from_option is_word false before
  = from_option ascii_word false before ->
  match_year is_word decimal before s
  = match_year ascii_word ascii_decimal before s.
Proof.
  intros Hs Hb. unfold match_year.
  destruct s as [|c1 [|c2 [|c3 [|c4 rest]]]]; try reflexivity.
  inversion Hs as [|? ? H1 Hs1]; subst.
  inversion Hs1 as [|? ? H2 Hs2]; subst.
  inversion Hs2 as [|? ? H3 Hs3]; subst.
  inversion Hs3 as [|? ? H4 Hs4]; subst.
  assert (Hw : forall c, ascii_isdigit c = true -> ascii_word c = true).
  { intros c Hc. unfold ascii_word. unfold ascii_isdigit in Hc.
    now rewrite Hc. }
  unfold word_boundary. rewrite Hb. cbn [from_option].
  rewrite (is_word_ascii c1 H1), (is_word_ascii c4 H4).
  rewrite (Hw c1 H1), (Hw c4 H4).
  replace (from_option is_word false (head rest))
    with (from_option ascii_word false (head rest)).
  - rewrite (decimal_ascii c3 H3), (decimal_ascii c4 H4).
    unfold ascii_decimal. now rewrite H3, H4.
  - destruct Hs4 as [|c5 rest H5 _]; [reflexivity|]. simpl.
    now rewrite (is_word_ascii c5 H5), (Hw c5 H5).
Qed.

Lemma first_year_ascii s : forall before,
  Forall (fun c => ascii_isdigit c = true) s ->
  from_option is_word false before
  = from_option ascii_word false before ->
  first_year is_word decimal before s
  = first_year ascii_word ascii_decimal before s.
Proof.
  induction s as [|c r IH]; intros before Hs Hb; [reflexivity|].
  cbn [first_year]. rewrite (match_year_ascii before (c :: r) Hs Hb).
  destruct (match_year ascii_word ascii_decimal before (c :: r));
    [reflexivity|].
  inversion Hs as [|? ? Hc Hr]; subst. apply IH; [exact Hr|].
  simpl. rewrite (is_word_ascii c Hc).
  unfold ascii_word. unfold ascii_isdigit in Hc. now rewrite Hc.
Qed.

Lemma extract_year_of_str z :
  (0 <= z)%Z ->
  extract_year_from_string is_word decimal (str_of (PyInt z))
  = extract_year_from_string ascii_word ascii_decimal (str_of (PyInt z)).
Proof.
  intros Hz. destruct (str_of_nonneg z Hz) as [_ Hd].
  unfold extract_year_from_string.
  destruct (str_of (PyInt z)) as [|c r]; [reflexivity|].
  now apply first_year_ascii.
Qed.

Lemma year_range_round_trip :
  forallb
    (fun z =>
       match extract_year_from_string ascii_word ascii_decimal
               (str_of (PyInt z)) with
       | Some y => (y =? z)%Z && negb (z =? 2100)%Z
       | None => (z =? 2100)%Z
       end) year_range = true.
Proof. vm_compute. reflexivity. Qed.

Lemma year_range_In z : (1800 <= z <= 2100)%Z -> In z year_range.
Proof.
  intros Hz. unfold year_range. apply in_map_iff.
  exists (Z.to_nat (z - 1800)). split; [lia|]. apply in_seq. lia.
Qed.

(** X26. On an integer short enough to print (of absolute value below
    10^4300) [format_year] and [is_valid_year] agree: the year is formatted,
    as its decimal text, exactly when it lies between 1800 and 2100, and
    otherwise the result is [None].  On a longer integer [format_year]
    raises [ValueError], at [str(year)], while [is_valid_year] is [False].
    The text of a year from 1800 to 2099 is read back by
    [extract_year_from_string] as that year; the text of 2100 is not read
    back at all. *)
Theorem format_year_round_trip :
  forall (z : Z),
    format_year int_of_str isdigit (PyInt z)
    = (if printable (PyInt z)
       then Returned (if is_valid_year int_of_str (PyInt z)
                      then Some (str_of (PyInt z)) else None)
       else Raised (py "ValueError"))
    /\ is_valid_year int_of_str (PyInt z)
       = ((1800 <=? z) && (z <=? 2100))%Z
    /\ (is_valid_year int_of_str (PyInt z) = true ->
        format_year int_of_str isdigit (PyInt z)
        = Returned (Some (str_of (PyInt z))))
    /\ ((10 ^ 4300 <= Z.abs z)%Z ->
        format_year int_of_str isdigit (PyInt z) = Raised (py "ValueError")
        /\ is_valid_year int_of_str (PyInt z) = false)
    /\ ((1800 <= z <= 2099)%Z ->
        extract_year_from_string is_word decimal (str_of (PyInt z))
        = Some z)
    /\ (z = 2100%Z ->
        extract_year_from_string is_word decimal (str_of (PyInt z)) = None).
Proof.
  intros z. split; [apply format_year_int|]. split; [reflexivity|].
  pose proof year_range_round_trip as Hall.
  rewrite forallb_forall in Hall. split; [|split; [|split]].
  - unfold is_valid_year. cbn [int_of]. intros Hv.
    rewrite format_year_int, Hv.
    apply andb_true_iff in Hv as [H1 H2].
    apply Z.leb_le in H1. apply Z.leb_le in H2.
    now rewrite printable_below by lia.
  - intros Hbig.
    assert (Hlow : (10 ^ 4 <= 10 ^ 4300)%Z)
      by (apply Z.pow_le_mono_r; lia).
    change (10 ^ 4)%Z with 10000%Z in Hlow.
    rewrite format_year_int. unfold printable, is_valid_year. cbn [int_of].
    set (bound := (10 ^ 4300)%Z) in *.
    destruct (Z.ltb_spec (Z.abs z) bound); [lia|].
    split; [reflexivity|].
    apply andb_false_iff.
    destruct (Z.leb_spec z 2100); [left; apply Z.leb_gt; lia|now right].
  - intros Hz. rewrite extract_year_of_str by lia.
    specialize (Hall z (year_range_In z ltac:(lia))).
    destruct (extract_year_from_string _ _ _) as [y|].
    + apply andb_true_iff in Hall as [Hy _]. apply Z.eqb_eq in Hy.
      now subst.
    + apply Z.eqb_eq in Hall. lia.
  - intros ->. rewrite extract_year_of_str by lia. reflexivity.
Qed.

(** X27. What [format_year] returns is the printed value without the
    whitespace around it, and it is a fixed point: formatting the returned
    text gives the same text.  [is_valid_year] accepts the text returned,
    and it accepts the value that was formatted when that is an integer. *)
Theorem format_year_result_is_valid :
  forall (year : pyscalar) (text : pystr),
    format_year int_of_str isdigit year = Returned (Some text) ->
    text = strip (str_of year)
    /\ format_year int_of_str isdigit (PyStr text) = Returned (Some text)
    /\ is_valid_year int_of_str (PyStr text) = true
    /\ (forall z, year = PyInt z -> is_valid_year int_of_str year = true).
Proof.
  intros year text H.
  assert (Hstr : exists z,
             text = strip (str_of year)
             /\ text <> []
             /\ forallb isdigit text = true
             /\ int_of_str text = Some z
             /\ ((1800 <=? z) && (z <=? 2100))%Z = true).
  { unfold format_year in H.
    assert (Hsome : year <> PyNone) by (intros ->; discriminate).
    assert (H' : match py_str year with
                 | Raised exc => Raised exc
                 | Returned printed =>
                     let t := strip printed in
                     if match t with [] => true | _ => false end
                        || negb (forallb isdigit t)
                     then Returned None
                     else match int_of_str t with
                          | None => Raised (py "ValueError")
                          | Some year_int =>
                              if ((1800 <=? year_int)
                                  && (year_int <=? 2100))%Z
                              then Returned (Some t) else Returned None
                          end
                 end = Returned (Some text)).
    { destruct year; [contradiction| |]; exact H. }
    clear H. unfold py_str in H'.
    destruct (printable year); [|discriminate]. cbv zeta in H'.
    remember (strip (str_of year)) as t eqn:Et.
    destruct t as [|c r]; [discriminate|]. cbn [orb] in H'.
    destruct (forallb isdigit (c :: r)) eqn:D; [|discriminate].
    cbn [negb] in H'.
    destruct (int_of_str (c :: r)) as [z|] eqn:I; [|discriminate].
    destruct ((1800 <=? z) && (z <=? 2100))%Z eqn:R; [|discriminate].
    injection H' as <-. exists z. now repeat split. }
  destruct Hstr as (z & Htext & Hne & Hdig & Hint & Hrange).
  assert (Hfix : strip text = text) by (rewrite Htext; apply strip_idem).
  split; [exact Htext|]. split; [|split].
  - unfold format_year, py_str. cbn [printable str_of]. rewrite Hfix.
    destruct text as [|c r]; [contradiction|].
    rewrite Hdig, Hint, Hrange. reflexivity.
  - unfold is_valid_year. cbn [int_of]. now rewrite Hint.
  - intros y ->. unfold is_valid_year. cbn [int_of].
    rewrite format_year_int in H.
    destruct (printable (PyInt y)); [|discriminate].
    destruct ((1800 <=? y) && (y <=? 2100))%Z; [reflexivity|discriminate].
Qed.

End YearProps.

Lemma unpy_py s : string_of_list_ascii (map ascii_of_N (py s)) = s.
Proof.
  unfold py. rewrite map_map.
  rewrite <- (string_of_list_ascii_of_string s) at 2. f_equal.
  induction (list_ascii_of_string s) as [|a l IH]; simpl; [reflexivity|].
  now rewrite ascii_N_embedding, IH.
Qed.

Lemma plain_int_of_str_digits z :
  (0 <= z)%Z -> printable (PyInt z) = true ->
  plain_int_of_str (str_of (PyInt z)) = Some z.
Proof.
  intros Hz Hp. destruct (str_of_nonneg z Hz) as [Hne Hd].
  unfold plain_int_of_str. rewrite (strip_digits _ Hd).
  assert (Hsep : forallb (fun c => negb ((28 <=? c)%N && (c <=? 31)%N))
                   (str_of (PyInt z)) = true).
  { apply forallb_forall. intros c Hc. rewrite Forall_forall in Hd.
    apply list_elem_of_In, Hd in Hc. unfold ascii_isdigit in Hc.
    apply andb_true_iff in Hc as [Hc _]. apply N.leb_le in Hc.
    apply negb_true_iff, andb_false_iff. right. apply N.leb_gt. lia. }
  assert (Hparse : NilEmpty.int_of_string
                     (string_of_list_ascii
                        (map ascii_of_N (str_of (PyInt z))))
                   = Some (Z.to_int z)).
  { unfold str_of. now rewrite unpy_py, NilEmpty.isi. }
  cbv zeta. rewrite Hsep, Hparse, DecimalZ.of_to, Hp.
  now rewrite bool_decide_eq_true_2.
Qed.

Lemma ascii_word_digit c : ascii_isdigit c = true -> ascii_word c = true.
Proof.
  unfold ascii_word, ascii_isdigit. intros H. now rewrite H.
Qed.

Lemma ascii_decimal_digit c :
  ascii_isdigit c = true -> ascii_decimal c = Some (Z.of_N c - 48)%Z.
Proof. unfold ascii_decimal. now intros ->. Qed.

Lemma ascii_decimal_range c v :
  ascii_decimal c = Some v -> (0 <= v <= 9)%Z.
Proof.
  unfold ascii_decimal. destruct (ascii_isdigit c) eqn:E; [|discriminate].
  intros [= <-]. unfold ascii_isdigit in E.
  apply andb_true_iff in E as [E1 E2].
  apply N.leb_le in E1. apply N.leb_le in E2. lia.
Qed.

Lemma extract_year_from_string_range_witness :
  (1800 <= 1982 <= 2099)%Z
  /\ is_valid_year plain_int_of_str (PyInt 1982) = true
  /\ exists front c1 c2 c3 c4 rest,
       py "Blade Runner (1982)" = front ++ c1 :: c2 :: c3 :: c4 :: rest.
Proof.
  apply (extract_year_from_string_range plain_int_of_str ascii_word
           ascii_decimal ascii_decimal_range (py "Blade Runner (1982)") 1982).
  reflexivity.
Defined.

Lemma format_year_round_trip_witness :
  extract_year_from_string ascii_word ascii_decimal (str_of (PyInt 1999))
  = Some 1999%Z.
Proof.
  destruct (format_year_round_trip plain_int_of_str ascii_isdigit ascii_word
              ascii_decimal (fun c H => H) eq_refl ascii_word_digit
              ascii_decimal_digit plain_int_of_str_digits 1999)
    as (_ & _ & _ & _ & H & _).
  apply H. lia.
Defined.

Lemma format_year_result_is_valid_witness :
  format_year plain_int_of_str ascii_isdigit (PyStr (py "1999"))
  = Returned (Some (py "1999"))
  /\ is_valid_year plain_int_of_str (PyStr (py "1999")) = true.
Proof.
  destruct (format_year_result_is_valid plain_int_of_str ascii_isdigit
              (fun c H => H) eq_refl plain_int_of_str_digits
              (PyStr ([32%N] ++ py "1999" ++ [10%N])) (py "1999") eq_refl)
    as (_ & H1 & H2 & _).
  now split.
Defined.

(** What [format_year] formats, [is_valid_year] need not accept:
    [str.strip] removes the separators U+001C to U+001F, which [int]
    rejects. *)
Example format_year_formats_what_is_valid_year_rejects :
  format_year plain_int_of_str ascii_isdigit (PyStr ([28%N] ++ py "1999"))
  = Returned (Some (py "1999"))
  /\ is_valid_year plain_int_of_str (PyStr ([28%N] ++ py "1999")) = false.
Proof. split; vm_compute; reflexivity. Qed.

(** [format_year] raises on a string of digits that [int] does not read,
    such as the superscript two: [isdigit] lets it through to [int]. *)
Example format_year_raises_on_superscript :
  format_year plain_int_of_str isdigit_with_superscript (PyStr [178%N])
  = Raised (py "ValueError").
Proof. reflexivity. Qed.

(** ** Validation of titles and addresses: properties *)

Lemma fifth_exact_upto_500 : forallb fifth_is_exact (seq 0 501) = true.
Proof. vm_compute. reflexivity. Qed.

Lemma float_fifth k n :
  k <= n -> n <= 500 ->
  PyFloat.gt (PyFloat.float_of_len k)
    (PyFloat.mul (PyFloat.float_of_len n) PyFloat.point_two)
  = (n <? 5 * k).
Proof.
  intros Hk Hn. pose proof fifth_exact_upto_500 as H.
  rewrite forallb_forall in H.
  specialize (H n ltac:(apply in_seq; lia)). unfold fifth_is_exact in H.
  rewrite forallb_forall in H.
  specialize (H k ltac:(apply in_seq; lia)).
  now apply Bool.eqb_prop in H.
Qed.

Lemma lstrip_nil_iff s :
  lstrip s = [] <-> Forall (fun c => isspace c = true) s.
Proof.
  induction s as [|c r IH]; simpl; [split; [constructor|reflexivity]|].
  destruct (isspace c) eqn:E.
  - rewrite IH. split; [now constructor|]. now inversion 1.
  - split; [discriminate|]. inversion 1; congruence.
Qed.

Lemma rstrip_nil_iff s :
  rstrip s = [] <-> Forall (fun c => isspace c = true) s.
Proof.
  induction s as [|c r IH]; [split; [constructor|reflexivity]|].
  cbn [rstrip]. destruct (rstrip r) as [|d r'] eqn:R.
  - destruct (isspace c) eqn:E.
    + split; [|reflexivity]. intros _. constructor; [exact E|].
      now apply IH.
    + split; [discriminate|]. inversion 1; congruence.
  - split; [discriminate|]. inversion 1 as [|? ? _ Hr]; subst.
    apply IH in Hr. discriminate.
Qed.

Lemma lstrip_suffix s : exists spaces,
  s = spaces ++ lstrip s /\ Forall (fun c => isspace c = true) spaces.
Proof.
  induction s as [|c r (sp & Hr & Hsp)]; simpl.
  - exists []. split; [reflexivity|constructor].
  - destruct (isspace c) eqn:E.
    + exists (c :: sp). split; [simpl; now rewrite <- Hr|now constructor].
    + exists []. split; [reflexivity|constructor].
Qed.

Lemma strip_nil_iff s :
  strip s = [] <-> Forall (fun c => isspace c = true) s.
Proof.
  unfold strip. rewrite rstrip_nil_iff.
  destruct (lstrip_suffix s) as (sp & Hs & Hsp). split.
  - intros H. rewrite Hs. apply Forall_app. now split.
  - intros H. now apply Forall_lstrip.
Qed.

Lemma length_filter_le {A} (f : A -> bool) l :
  length (List.filter f l) <= length l.
Proof.
  induction l as [|x l IH]; simpl; [lia|]. destruct (f x); simpl; lia.
Qed.

Lemma is_valid_title_iff title :
  is_valid_title title = true
  <-> strip title <> []
      /\ length title <= 500
      /\ 5 * length (foreign title) <= length title.
Proof.
  unfold is_valid_title, foreign.
  destruct title as [|c r]; [split; [discriminate|now intros [[] _]]|].
  set (title := c :: r).
  pose proof (length_filter_le (fun c => negb (is_title_char c)) title)
    as Hle.
  destruct (Nat.ltb_spec (length (strip title)) 1) as [Hblank|Hblank].
  { split; [discriminate|]. intros [Hne _].
    destruct (strip title); [contradiction|simpl in Hblank; lia]. }
  destruct (Nat.ltb_spec 500 (length title)) as [Hlong|Hlong].
  { split; [discriminate|]. intros (_ & H & _). lia. }
  cbn [orb]. rewrite float_fifth by (exact Hle || exact Hlong).
  destruct (Nat.ltb_spec (length title)
              (5 * length (List.filter (fun c => negb (is_title_char c))
                             title))) as [Hmany|Hfew].
  - split; [discriminate|]. intros (_ & _ & H). lia.
  - split; [|reflexivity]. intros _.
    split; [|split; [exact Hlong|exact Hfew]].
    intros E. rewrite E in Hblank. simpl in Hblank. lia.
Qed.

Lemma foreign_nil_iff title :
  foreign title = [] <-> Forall (fun c => is_title_char c = true) title.
Proof.
  unfold foreign. induction title as [|c r IH]; simpl.
  - split; [constructor|reflexivity].
  - destruct (is_title_char c) eqn:E; simpl.
    + rewrite IH. split; [now constructor|now inversion 1].
    + split; [discriminate|]. inversion 1; congruence.
Qed.

Lemma foreign_app a b : foreign (a ++ b) = foreign a ++ foreign b.
Proof. unfold foreign. apply List.filter_app. Qed.

(** X28. [is_valid_title] holds of a string exactly when it is not blank,
    has at most 500 characters, and at most one fifth of its characters
    lie outside the accepted class; the float product in the source never
    decides otherwise than the exact fifth.  So a title of fewer than five
    characters is valid only if all its characters are accepted, and a
    valid title stays valid when accepted characters are put before or
    after it, up to 500 characters. *)
Theorem is_valid_title_exact_fifth :
  (forall title,
      is_valid_title title = true
      <-> strip title <> []
          /\ length title <= 500
          /\ 5 * length (foreign title) <= length title)
  /\ (forall title,
        is_valid_title title = true -> length title < 5 ->
        Forall (fun c => is_title_char c = true) title)
  /\ (forall title pad,
        is_valid_title title = true ->
        Forall (fun c => is_title_char c = true) pad ->
        length title + length pad <= 500 ->
        is_valid_title (title ++ pad) = true
        /\ is_valid_title (pad ++ title) = true).
Proof.
  split; [exact is_valid_title_iff|]. split.
  - intros title H Hshort. apply is_valid_title_iff in H as (_ & _ & H).
    apply foreign_nil_iff. destruct (foreign title); [reflexivity|].
    simpl in H. lia.
  - intros title pad H Hpad Hlen.
    apply is_valid_title_iff in H as (Hne & _ & Hfew).
    apply foreign_nil_iff in Hpad.
    assert (Hsome : ~ Forall (fun c => isspace c = true) title)
      by (intros E; apply Hne, strip_nil_iff, E).
    split; apply is_valid_title_iff; rewrite foreign_app, Hpad,
      ?app_nil_r, !length_app; simpl.
    + split; [|lia]. intros E. apply strip_nil_iff, Forall_app in E.
      now apply Hsome.
    + split; [|lia]. intros E. apply strip_nil_iff, Forall_app in E.
      now apply Hsome.
Qed.

(** A short title with an inverted exclamation mark is not valid; a longer
    one is. *)
Example is_valid_title_short_foreign :
  is_valid_title ([161%N] ++ py "Ay!") = false
  /\ is_valid_title ([161%N] ++ py "Hola!") = true.
Proof. split; vm_compute; reflexivity. Qed.

Lemma url_after_scheme_app url rest more :
  url_after_scheme url = Some rest ->
  url_after_scheme (url ++ more) = Some (rest ++ more).
Proof.
  unfold url_after_scheme.
  destruct url as [|h [|t1 [|t2 [|p [|a [|b [|c r]]]]]]]; try discriminate.
  cbn [app]. destruct (url_h h && url_t t1 && url_t t2 && url_p p);
    [|discriminate].
  destruct ((a =? 58)%N && (b =? 47)%N && (c =? 47)%N).
  - now intros [= <-].
  - destruct r as [|d r']; [discriminate|]. cbn [app].
    destruct (url_s a && (b =? 58)%N && (c =? 47)%N && (d =? 47)%N);
      [|discriminate].
    now intros [= <-].
Qed.

Lemma url_after_scheme_shape url rest :
  url_after_scheme url = Some rest ->
  7 + length rest <= length url
  /\ ascii_lower (take 4 url) = py "http"
  /\ exists scheme, url = scheme ++ rest /\ scheme <> [].
Proof.
  unfold url_after_scheme.
  destruct url as [|h [|t1 [|t2 [|p [|a [|b [|c r]]]]]]]; try discriminate.
  destruct (url_h h && url_t t1 && url_t t2 && url_p p) eqn:S;
    [|discriminate].
  intros H.
  assert (Hhttp : ascii_lower [h; t1; t2; p] = py "http").
  { apply andb_true_iff in S as [S Hp]. apply andb_true_iff in S as [S H2].
    apply andb_true_iff in S as [Hh H1].
    unfold url_h, url_t, url_p in *.
    apply orb_true_iff in Hh, H1, H2, Hp. rewrite !N.eqb_eq in *.
    destruct Hh as [-> | ->], H1 as [-> | ->], H2 as [-> | ->],
      Hp as [-> | ->]; reflexivity. }
  destruct ((a =? 58)%N && (b =? 47)%N && (c =? 47)%N).
  - injection H as <-. split; [simpl; lia|]. split; [exact Hhttp|].
    exists [h; t1; t2; p; a; b; c]. split; [reflexivity|discriminate].
  - destruct r as [|d r']; [discriminate|].
    destruct (url_s a && (b =? 58)%N && (c =? 47)%N && (d =? 47)%N);
      [|discriminate].
    injection H as <-. split; [simpl; lia|]. split; [exact Hhttp|].
    exists [h; t1; t2; p; a; b; c; d]. split; [reflexivity|discriminate].
Qed.

Lemma url_tail_snoc tail c :
  url_tail tail = true -> last tail <> Some 10%N ->
  (c =? 10)%N || negb (isspace c) = true ->
  url_tail (tail ++ [c]) = true.
Proof.
  intros Ht Hlast Hc. induction tail as [|x r IH]; [exact Hc|].
  cbn [app]. destruct r as [|y r].
  - simpl in *. rewrite Hc. rewrite andb_true_r.
    destruct (N.eqb_spec x 10) as [->|Hx]; [now destruct Hlast|].
    exact Ht.
  - cbn [url_tail app] in *. apply andb_true_iff in Ht as [Hx Hr].
    rewrite Hx. apply IH; [exact Hr|exact Hlast].
Qed.

Lemma url_tail_two_newlines tail :
  url_tail (tail ++ [10%N; 10%N]) = false.
Proof.
  induction tail as [|x r IH]; [reflexivity|].
  cbn [app]. destruct r as [|y r].
  - simpl. apply andb_false_r.
  - cbn [url_tail app] in *. rewrite IH. apply andb_false_r.
Qed.

Lemma is_valid_url_parts url :
  is_valid_url url = true
  <-> exists c1 c2 tail,
        url_after_scheme url = Some (c1 :: c2 :: tail)
        /\ url_first c1 = true /\ url_any c2 = true
        /\ url_tail tail = true.
Proof.
  unfold is_valid_url. split.
  - destruct url as [|x url]; [discriminate|].
    destruct (url_after_scheme (x :: url)) as [[|c1 [|c2 tail]]|];
      try discriminate.
    intros H. apply andb_true_iff in H as [H Ht].
    apply andb_true_iff in H as [H1 H2]. now exists c1, c2, tail.
  - intros (c1 & c2 & tail & Hs & H1 & H2 & Ht).
    destruct url as [|x url]; [discriminate|].
    now rewrite Hs, H1, H2, Ht.
Qed.

Lemma last_app_cons {A} (l : list A) x y r :
  last (l ++ x :: y :: r) = last (y :: r).
Proof.
  induction l as [|z l IH]; [reflexivity|].
  cbn [app]. destruct l; simpl in *; exact IH.
Qed.

(** X29. A string [is_valid_url] accepts has at least nine characters and
    starts with "http" in some mix of cases.  The test asks for no more
    than two characters after "://", of which the second may be a space;
    after them no whitespace is accepted, except one newline at the very
    end.  So an accepted string that does not end in a newline stays
    accepted when a character that is not whitespace, or one newline, is
    added at the end, and is rejected when two newlines are. *)
Theorem is_valid_url_shape :
  (forall url,
      is_valid_url url = true ->
      9 <= length url /\ ascii_lower (take 4 url) = py "http")
  /\ (forall c1 c2,
        url_first c1 = true -> c2 <> 10%N ->
        is_valid_url (py "http://" ++ [c1; c2]) = true
        /\ is_valid_url (py "https://" ++ [c1; c2]) = true)
  /\ (forall url c,
        is_valid_url url = true -> last url <> Some 10%N ->
        (isspace c = false \/ c = 10%N) ->
        is_valid_url (url ++ [c]) = true)
  /\ (forall url, is_valid_url (url ++ [10%N; 10%N]) = false).
Proof.
  split; [|split; [|split]].
  - intros url H.
    apply is_valid_url_parts in H as (c1 & c2 & tail & Hs & _).
    apply url_after_scheme_shape in Hs as (Hlen & Hhttp & _).
    simpl in Hlen. split; [lia|exact Hhttp].
  - intros c1 c2 H1 H2. unfold is_valid_url. simpl.
    rewrite H1. unfold url_any.
    destruct (N.eqb_spec c2 10); [contradiction|]. now split.
  - intros url c H Hlast Hc.
    apply is_valid_url_parts in H as (c1 & c2 & tail & Hs & H1 & H2 & Ht).
    apply is_valid_url_parts. exists c1, c2, (tail ++ [c]).
    split; [apply (url_after_scheme_app url _ [c]) in Hs; exact Hs|].
    split; [exact H1|]. split; [exact H2|].
    apply url_after_scheme_shape in Hs as (_ & _ & scheme & Hurl & _).
    apply url_tail_snoc; [exact Ht| |].
    + destruct tail as [|x r]; [discriminate|].
      rewrite Hurl, last_app_cons in Hlast.
      change (last (c2 :: x :: r)) with (last (x :: r)) in Hlast.
      exact Hlast.
    + destruct Hc as [Hc| ->]; [|reflexivity].
      rewrite Hc. apply orb_true_r.
  - intros url. destruct (is_valid_url (url ++ [10%N; 10%N])) eqn:E;
      [|reflexivity].
    apply is_valid_url_parts in E as (c1 & c2 & tail & Hs & _ & H2 & Ht).
    apply url_after_scheme_shape in Hs as (_ & _ & scheme & Hurl & _).
    exfalso.
    assert (Hend : exists tail', tail = tail' ++ [10%N; 10%N]
                   \/ (tail = [10%N] /\ c2 = 10%N)
                   \/ (tail = [] /\ c2 = 10%N)).
    { clear -Hurl.
      assert (Hrev : rev (url ++ [10%N; 10%N])
                     = rev (scheme ++ c1 :: c2 :: tail)) by now rewrite Hurl.
      rewrite !rev_app_distr in Hrev. simpl in Hrev.
      destruct (rev tail) as [|x [|y t]] eqn:Rt.
      - apply (f_equal (@rev N)) in Rt. rewrite rev_involutive in Rt.
        simpl in Rt. subst tail. simpl in Hrev.
        exists []. right. right. split; [reflexivity|]. congruence.
      - apply (f_equal (@rev N)) in Rt. rewrite rev_involutive in Rt.
        simpl in Rt. subst tail. simpl in Hrev.
        exists []. right. left. split; [|congruence].
        injection Hrev as Hx _. now subst.
      - apply (f_equal (@rev N)) in Rt. rewrite rev_involutive in Rt.
        simpl in Rt. subst tail. simpl in Hrev.
        injection Hrev as Hx Hy _. subst.
        exists (rev t). left. now rewrite <- app_assoc. }
    destruct Hend as [tail' [-> | [[-> ->] | [-> ->]]]].
    + rewrite url_tail_two_newlines in Ht. discriminate.
    + discriminate H2.
    + discriminate H2.
Qed.

(** A space right after the first character of the host is accepted. *)
Example is_valid_url_accepts_space :
  is_valid_url (py "http://a b") = true
  /\ is_valid_url (py "http://a.b c") = false.
Proof. split; reflexivity. Qed.

(** ** Formatting of a title: properties *)

Section TitleProps.

Variable upper_cp : N -> pystr.

Lemma format_title_pieces s : forall cur,
  Forall (fun c => is_delimiter c = false) cur ->
  concat (map (format_word upper_cp) (re_split_delimiters cur s))
  = match cur with
    | [] => capitalize_starts upper_cp true s
    | c :: rest => upper_cp c ++ rest ++ capitalize_starts upper_cp false s
    end.
Proof.
  induction s as [|x r IH]; intros cur Hcur.
  - destruct cur as [|c rest]; [reflexivity|].
    inversion Hcur as [|? ? Hc _]; subst.
    destruct rest; simpl; rewrite ?Hc, ?app_nil_r; reflexivity.
  - cbn [re_split_delimiters capitalize_starts].
    destruct (is_delimiter x) eqn:D.
    + cbn [map concat]. rewrite (IH [] ltac:(constructor)).
      assert (Hx : format_word upper_cp [x] = [x])
        by (simpl; now rewrite D).
      rewrite Hx. destruct cur as [|c rest]; [reflexivity|].
      inversion Hcur as [|? ? Hc _]; subst.
      destruct rest; simpl; rewrite ?Hc, <- ?app_assoc; reflexivity.
    + rewrite IH.
      * destruct cur as [|c rest]; simpl; [reflexivity|].
        now rewrite <- app_assoc.
      * apply Forall_app. split; [exact Hcur|]. now constructor.
Qed.

Lemma capitalize_spaced s :
  (forall c, isspace c = true -> upper_cp c = [c]) ->
  delimiters_spaced s = true ->
  capitalize_starts upper_cp false s = s.
Proof.
  intros Hup. induction s as [|c r IH]; [reflexivity|].
  cbn [delimiters_spaced capitalize_starts]. intros H.
  apply andb_true_iff in H as [Hc Hr]. specialize (IH Hr).
  destruct (is_delimiter c); [|now rewrite IH].
  f_equal. destruct r as [|d r']; [reflexivity|].
  cbn [capitalize_starts] in *.
  destruct (is_delimiter d) eqn:D; [exact IH|].
  rewrite orb_false_r in Hc. rewrite (Hup d Hc). simpl.
  now rewrite IH.
Qed.

(** X30. [format_title] puts in upper case the first character of every
    piece between delimiters, and nothing else, before it strips the
    result: splitting, capitalizing the pieces and joining them is one pass
    over the title.  Words inside a piece are left as they are; so if
    every delimiter is followed by whitespace (which has no upper case), by
    another delimiter or by nothing, only the first character of the title
    is changed. *)
Theorem format_title_capitalizes_piece_starts :
  (forall title,
      format_title upper_cp title
      = strip (capitalize_starts upper_cp true title))
  /\ (forall c rest,
        (forall s, isspace s = true -> upper_cp s = [s]) ->
        is_delimiter c = false ->
        delimiters_spaced rest = true ->
        format_title upper_cp (c :: rest) = strip (upper_cp c ++ rest)).
Proof.
  assert (H1 : forall title,
             format_title upper_cp title
             = strip (capitalize_starts upper_cp true title)).
  { intros title. unfold format_title.
    destruct title as [|c r]; [reflexivity|].
    now rewrite (format_title_pieces (c :: r) [] ltac:(constructor)). }
  split; [exact H1|].
  intros c rest Hup Hc Hrest. rewrite H1. cbn [capitalize_starts].
  rewrite Hc. now rewrite (capitalize_spaced rest Hup Hrest).
Qed.

End TitleProps.

(** Only the start of a piece is capitalized, not every word; and the
    result is not a fixed point when the title starts with a space. *)
Example format_title_pieces_not_words :
  format_title ascii_upper (py "spider-man: far from home")
  = py "Spider-Man: far from home"
  /\ format_title ascii_upper (py " matrix") = py "matrix"
  /\ format_title ascii_upper (py "matrix") = py "Matrix".
Proof. repeat split; reflexivity. Qed.
